(** * networker: the modified Boruvka engine of networkbuild/ModBoruvka.py

    A shallow embedding of the union-find with satellite state, the
    heap-backed priority queue, the foreign-nearest-neighbour search, the
    segment-intersection guard and the commit loop of [modBoruvka], together
    with the properties of the specification that concern them.

    Conventions of the embedding.
    - Node identifiers are natural numbers (the graph is labelled
      [range(n)] by [NetworkBuild.setup_input_nodes]).
    - Budgets ("mv"), lengths and queue priorities are exact integers
      (a fixed unit); coordinates are integer grid points.  Rounding of
      machine floats is outside the embedding.
    - Python dictionaries are [gmap]s, Python lists are [list]s.
    - A Python object that is shared between several dictionary slots
      (the per-root [PriorityQueue]) lives in an explicit store and is
      referred to by a handle. *)

From Stdlib Require Import ZArith QArith Lia.
From Stdlib Require Reals.
From stdpp Require Import base option list gmap sets.

#[local] Open Scope Z_scope.

(** ** Results of possibly failing, possibly diverging code *)

Inductive exn : Type :=
  | IndexError
  | KeyError
  | TypeError
  | NameError
  | ValueError.

Inductive outcome (A : Type) : Type :=
  | Return (a : A)
  | Raise (e : exn)
  | OutOfFuel.

Arguments Return {A} a.
Arguments Raise {A} e.
Arguments OutOfFuel {A}.

Definition obind {A B} (m : outcome A) (k : A -> outcome B) : outcome B :=
  match m with
  | Return a => k a
  | Raise e => Raise e
  | OutOfFuel => OutOfFuel
  end.

#[export] Instance outcome_bind : MBind outcome :=
  fun A B f m => obind m f.
#[export] Instance outcome_ret : MRet outcome :=
  fun A a => Return a.

Definition node := nat.

(** ** heapq on a Python list

    Queue entries are the tuples [(priority, index, item)] pushed by
    [PriorityQueue.push].  Tuples compare lexicographically; the running
    [_index] of a queue is distinct for every entry it holds, so the
    comparison is settled by the first two components. *)

Section Heapq.
Context {A : Type}.

Definition entry : Type := Z * nat * A.

Definition entry_priority (e : entry) : Z := e.1.1.
Definition entry_index (e : entry) : nat := e.1.2.
Definition entry_item (e : entry) : A := e.2.

Definition entry_lt (a b : entry) : bool :=
  (entry_priority a <? entry_priority b)
  || ((entry_priority a =? entry_priority b)
      && (entry_index a <? entry_index b)%nat).

(** [_siftdown(heap, startpos, pos)]: the loop runs while
    [pos > startpos]; [pos] strictly decreases, so [pos] iterations
    are enough and the exhausted case is the loop exit. *)
Fixpoint siftdown_loop (fuel : nat) (heap : list entry)
    (startpos pos : nat) (newitem : entry) : list entry :=
  match fuel with
  | O => <[pos := newitem]> heap
  | S fuel' =>
      if (startpos <? pos)%nat then
        let parentpos := ((pos - 1) / 2)%nat in
        match heap !! parentpos with
        | Some parent =>
            if entry_lt newitem parent
            then siftdown_loop fuel' (<[pos := parent]> heap)
                   startpos parentpos newitem
            else <[pos := newitem]> heap
        | None => <[pos := newitem]> heap
        end
      else <[pos := newitem]> heap
  end.

Definition _siftdown (heap : list entry) (startpos pos : nat) : list entry :=
  match heap !! pos with
  | Some newitem => siftdown_loop pos heap startpos pos newitem
  | None => heap
  end.

(** [_siftup(heap, pos)]: bubble the smaller child up until a leaf is
    reached, then sift the displaced item down from there. *)
Fixpoint siftup_loop (fuel : nat) (heap : list entry)
    (pos : nat) : list entry * nat :=
  match fuel with
  | O => (heap, pos)
  | S fuel' =>
      let endpos := length heap in
      let childpos := (2 * pos + 1)%nat in
      if (childpos <? endpos)%nat then
        let rightpos := (childpos + 1)%nat in
        let childpos' :=
          match heap !! childpos, heap !! rightpos with
          | Some l, Some r => if entry_lt l r then childpos else rightpos
          | _, _ => childpos
          end in
        match heap !! childpos' with
        | Some c => siftup_loop fuel' (<[pos := c]> heap) childpos'
        | None => (heap, pos)
        end
      else (heap, pos)
  end.

Definition _siftup (heap : list entry) (pos : nat) : list entry :=
  match heap !! pos with
  | Some newitem =>
      let '(heap', pos') := siftup_loop (length heap) heap pos in
      _siftdown (<[pos' := newitem]> heap') pos pos'
  | None => heap
  end.

Definition heappush (heap : list entry) (item : entry) : list entry :=
  let heap' := heap ++ [item] in
  _siftdown heap' 0 (length heap' - 1).

(** [heappop]: [None] stands for the [IndexError] of popping an empty
    list. *)
Definition heappop (heap : list entry) : option (entry * list entry) :=
  match last heap with
  | None => None
  | Some lastelt =>
      let heap' := removelast heap in
      match heap' with
      | [] => Some (lastelt, [])
      | returnitem :: _ =>
          Some (returnitem, _siftup (<[0%nat := lastelt]> heap') 0)
      end
  end.

(** ** PriorityQueue *)

Record PriorityQueue : Type := mkPQ {
  _queue : list entry;
  _index : nat
}.

Definition pq_new : PriorityQueue := mkPQ [] 0.

Definition push (q : PriorityQueue) (item : A) (priority : Z)
    : PriorityQueue :=
  mkPQ (heappush (_queue q) (priority, _index q, item)) (S (_index q)).

(** [pop] returns the item of the popped entry and the queue after it. *)
Definition pop (q : PriorityQueue) : option (A * PriorityQueue) :=
  match heappop (_queue q) with
  | Some (e, heap') => Some (entry_item e, mkPQ heap' (_index q))
  | None => None
  end.

(** [top] peeks at slot 0; [None] is Python's [None] for an empty queue. *)
Definition top (q : PriorityQueue) : option A :=
  match _queue q with
  | e :: _ => Some (entry_item e)
  | [] => None
  end.

(** The drain loop of [merge]: pop [other] until it is empty and push
    every entry into [self] with a fresh index. *)
Fixpoint merge_loop (fuel : nat) (self : PriorityQueue)
    (other : list entry) : PriorityQueue * list entry :=
  match fuel with
  | O => (self, other)
  | S fuel' =>
      match heappop other with
      | Some (e, other') =>
          merge_loop fuel' (push self (entry_item e) (entry_priority e))
            other'
      | None => (self, other)
      end
  end.

(** [list(set(l))]: the iteration order of a Python set is not fixed by
    the language; it is the parameter [list_of_set] of [merge]. *)
(** [merge] returns the surviving queue and the drained [other]. *)
Definition merge (list_of_set : list entry -> list entry)
    (self other : PriorityQueue) : PriorityQueue * PriorityQueue :=
  let '(self', rest) :=
    merge_loop (length (_queue other)) self (_queue other) in
  (mkPQ (list_of_set (_queue self')) (_index self'),
   mkPQ rest (_index other)).

End Heapq.

Arguments entry A : clear implicits.
Arguments PriorityQueue A : clear implicits.

(** ** UnionFind

    The five dictionaries of the class.  [queues] maps a node to the handle
    of a queue object; the object created when node [x] is registered has
    handle [x] and lives in [heap]. *)

Definition edge : Type := node * node.

Record UnionFind : Type := mkUF {
  weights : gmap node nat;
  mv : gmap node Z;
  parents : gmap node node;
  children : gmap node (list node);
  queues : gmap node node;
  heap : gmap node (PriorityQueue edge)
}.

Definition set_parents (f : gmap node node -> gmap node node)
    (X : UnionFind) : UnionFind :=
  mkUF (weights X) (mv X) (f (parents X)) (children X) (queues X) (heap X).

Definition set_heap
    (f : gmap node (PriorityQueue edge) -> gmap node (PriorityQueue edge))
    (X : UnionFind) : UnionFind :=
  mkUF (weights X) (mv X) (parents X) (children X) (queues X) (f (heap X)).

(** The [while root != path[-1]] loop of [__getitem__]: [last] is
    [path[-1]].  A missing key is the [KeyError] of [self.parents[root]]. *)
Fixpoint climb (fuel : nat) (p : gmap node node) (path : list node)
    (last root : node) : outcome (list node * node) :=
  if decide (root = last) then Return (path, root)
  else
    match fuel with
    | O => OutOfFuel
    | S fuel' =>
        match p !! root with
        | Some next => climb fuel' p (path ++ [root]) root next
        | None => Raise KeyError
        end
    end.

(** [for ancestor in path: self.parents[ancestor] = root]. *)
Definition compress (path : list node) (root : node)
    (p : gmap node node) : gmap node node :=
  foldl (fun q ancestor => <[ancestor := root]> q) p path.

Section Engine.

(** [self.graph.node[x]['mv']]: the budget attribute of the input graph.
    The embedding covers the graphs in which every node carries the
    attribute, as [NetworkBuild] builds them; for an object without it
    line 64 raises [KeyError]. *)
Variable node_mv : node -> Z.

(** The iteration order of [list(set(...))] in [PriorityQueue.merge]. *)
Variable list_of_set : list (entry edge) -> list (entry edge).

(** [__getitem__]: find with lazy registration and path compression.  The
    fuel of the climb is the number of registered nodes. *)
Definition getitem (X : UnionFind) (object : node)
    : outcome (node * UnionFind) :=
  match parents X !! object with
  | None =>
      Return (object,
        mkUF (<[object := 1%nat]> (weights X))
             (<[object := node_mv object]> (mv X))
             (<[object := object]> (parents X))
             (<[object := [object]]> (children X))
             (<[object := object]> (queues X))
             (<[object := pq_new]> (heap X)))
  | Some first =>
      '(path, root) ← climb (size (parents X)) (parents X) [object]
                         object first;
      Return (root, set_parents (compress path root) X)
  end.

(** A dictionary read [d[k]]. *)
Definition read {V} (d : gmap node V) (k : node) : outcome V :=
  match d !! k with
  | Some v => Return v
  | None => Raise KeyError
  end.

(** [max([(self.weights[r], r) for r in roots])[1]] on the two roots. *)
Definition heaviest_of (w1 : nat) (r1 : node) (w2 : nat) (r2 : node) : node :=
  if (w1 <? w2)%nat || ((w1 =? w2)%nat && (r1 <? r2)%nat) then r2 else r1.

(** [union(g1, g2, d)]. *)
Definition union (X : UnionFind) (g1 g2 : node) (d : Z)
    : outcome UnionFind :=
  '(r1, X1) ← getitem X g1;
  '(r2, X2) ← getitem X1 g2;
  w1 ← read (weights X2) r1;
  w2 ← read (weights X2) r2;
  let heaviest := heaviest_of w1 r1 w2 r2 in
  match filter (fun r => r ≠ heaviest) [r1; r2] with
  | [] => Raise IndexError
  | r :: _ =>
      wh ← read (weights X2) heaviest;
      wr ← read (weights X2) r;
      m1 ← read (mv X2) g1;
      m2 ← read (mv X2) g2;
      let budget := m1 + m2 - d in
      ch ← read (children X2) heaviest;
      cr ← read (children X2) r;
      hh ← read (queues X2) heaviest;
      hr ← read (queues X2) r;
      qh ← read (heap X2) hh;
      qr ← read (heap X2) hr;
      let '(qh', qr') := merge list_of_set qh qr in
      Return
        (mkUF (<[heaviest := (wh + wr)%nat]> (weights X2))
              (<[r := budget]> (<[heaviest := budget]> (mv X2)))
              (<[r := heaviest]> (parents X2))
              (<[r := ch ++ cr]> (<[heaviest := ch ++ cr]> (children X2)))
              (<[r := hh]> (queues X2))
              (<[hh := qh']> (<[hr := qr']> (heap X2))))
  end.

(** ** GeometryGuard *)

Definition point : Type := Z * Z.

Definition psub (a b : point) : point := (a.1 - b.1, a.2 - b.2).

(** [np.cross] of two plane vectors. *)
Definition cross (a b : point) : Z := a.1 * b.2 - a.2 * b.1.

(** [np.array_equal] of two coordinate pairs. *)
Definition array_equal (a b : point) : bool :=
  (a.1 =? b.1) && (a.2 =? b.2).

Definition bbox : Type := Z * Z * Z * Z.

(** [make_bounding_box(u, v)]: [(xmin, ymin, xmax, ymax)]. *)
Definition make_bounding_box (u v : point) : bbox :=
  (Z.min u.1 v.1, Z.min u.2 v.2, Z.max u.1 v.1, Z.max u.2 v.2).

(** The rectangle index: the inserted [(bounds, obj)] pairs, oldest first. *)
Definition Rtree : Type := list (bbox * edge).

Definition boxes_meet (a b : bbox) : bool :=
  let '(axmin, aymin, axmax, aymax) := a in
  let '(bxmin, bymin, bxmax, bymax) := b in
  (axmin <=? bxmax) && (bxmin <=? axmax)
  && (aymin <=? bymax) && (bymin <=? aymax).

(** [rtree.intersection(box, objects=True)]. *)
Definition intersection (rtree : Rtree) (box : bbox) : list edge :=
  map snd (filter (fun e => boxes_meet e.1 box) rtree).

(** The chained comparison [a != b != c != d] of Python is
    [a != b and b != c and c != d]. *)
Definition chained_ne (a b c d : bool) : bool :=
  negb (eqb a b) && negb (eqb b c) && negb (eqb c d).

(** Lines 237-240: the collinear overlap test. *)
Definition overlapping (p1 p2 p3 p4 : point) : bool :=
  chained_ne (p3.1 - p1.1 <? 0) (p3.1 - p2.1 <? 0)
             (p4.1 - p1.1 <? 0) (p4.1 - p2.1 <? 0)
  || chained_ne (p3.2 - p1.2 <? 0) (p3.2 - p2.2 <? 0)
                (p4.2 - p1.2 <? 0) (p4.2 - p2.2 <? 0).

(** Lines 243-246 and 261-264: "allow intersection if lines share an
    endpoint". *)
Definition share_an_endpoint (p1 p2 p3 p4 : point) : bool :=
  (array_equal p1 p3 && negb (array_equal p2 p4))
  || (array_equal p1 p4 && negb (array_equal p2 p3))
  || (array_equal p2 p3 && negb (array_equal p1 p4))
  || (array_equal p2 p4 && negb (array_equal p1 p3)).

Definition between01 (x : Q) : bool :=
  Qle_bool 0 x && Qle_bool x 1.

(** The body of the [for possible in intersecting_bounds] loop: [true]
    is [return True], [false] is [continue]. *)
Definition segment_test (p1 p2 p3 p4 : point) : bool :=
  let r := psub p2 p1 in
  let s := psub p4 p3 in
  let numerator := cross (psub p3 p1) r in
  let denominator := cross r s in
  if (numerator =? 0) && (denominator =? 0) then
    if overlapping p1 p2 p3 p4 then
      if share_an_endpoint p1 p2 p3 p4 then false else true
    else false
  else if denominator =? 0 then false
  else
    let u := (inject_Z numerator / inject_Z denominator)%Q in
    let t := (inject_Z (cross (psub p3 p1) s) / inject_Z denominator)%Q in
    let intersecting := between01 t && between01 u in
    if intersecting then
      if share_an_endpoint p1 p2 p3 p4 then false else true
    else false.

(** [coords[v]]: the coordinate row of a node. *)
Variable coords : node -> point.

Fixpoint scan_possible (p1 p2 : point) (possible : list edge) : bool :=
  match possible with
  | [] => false
  | (up, vp) :: rest =>
      if segment_test p1 p2 (coords up) (coords vp) then true
      else scan_possible p1 p2 rest
  end.

Definition line_intersection (rtree : Rtree) (um vm : node) : bool :=
  let p1 := coords um in
  let p2 := coords vm in
  scan_possible p1 p2 (intersection rtree (make_bounding_box p1 p2)).

(** ** The commit phase of a round (lines 329-352) *)

Record state : Type := mkState {
  subgraphs : UnionFind;
  rtree : Rtree;
  Et : list edge
}.

Definition candidate : Type := node * node * Z.

(** [try: subgraphs.queues[um].pop() except: pass]. *)
Definition try_pop (X : UnionFind) (um : node) : UnionFind :=
  match queues X !! um with
  | Some h =>
      match heap X !! h with
      | Some q =>
          match pop q with
          | Some (_, q') => set_heap (insert h q') X
          | None => X
          end
      | None => X
      end
  | None => X
  end.

(** The body of [while Ep._queue] for the popped [(um, vm, dm)]. *)
Definition commit (st : state) (c : candidate) : outcome state :=
  let '(um, vm, dm) := c in
  '(ru, X1) ← getitem (subgraphs st) um;
  '(rv, X2) ← getitem X1 vm;
  mu ← (if decide (ru = rv) then Return 0 else read (mv X2) um);
  if decide (ru ≠ rv ∧ dm <= mu) then
    mvm ← read (mv X2) vm;
    if decide (dm <= mvm) then
      X3 ← union X2 um vm dm;
      if line_intersection (rtree st) um vm then
        Return (mkState X3 (rtree st) (Et st))
      else
        Return (mkState X3
                  (rtree st
                   ++ [(make_bounding_box (coords um) (coords vm), (um, vm))])
                  (Et st ++ [(um, vm)]))
    else Return (mkState X2 (rtree st) (Et st))
  else Return (mkState (try_pop X2 um) (rtree st) (Et st)).

(** [while Ep._queue: (um, vm, dm) = Ep.pop(); ...]. *)
Fixpoint commit_loop (fuel : nat) (Ep : PriorityQueue candidate)
    (st : state) : outcome state :=
  match fuel with
  | O => Return st
  | S fuel' =>
      match pop Ep with
      | None => Return st
      | Some (c, Ep') =>
          st' ← commit st c;
          commit_loop fuel' Ep' st'
      end
  end.

Definition P2 (Ep : PriorityQueue candidate) (st : state) : outcome state :=
  commit_loop (length (_queue Ep)) Ep st.

(** ** Foreign nearest neighbour

    The k-d tree is built once over the projected coordinates of all
    nodes.  [neighbours b] is the list of all indexed nodes by ascending
    distance from [b]; [kdtree.query(b, k=k)[1][-1][k-1]] is its [k]-th
    element, and cKDTree reports a missing neighbour as the number of
    indexed points. *)
Variable neighbours : point -> list node.

Definition kth_neighbour (b : point) (k : nat) : node :=
  nth (k - 1) (neighbours b) (length (neighbours b)).

(** [while a not in A: _, nn = kdtree.query(b, k=k); a = nn[-1][k-1];
    k += 1], started with [a = None]: the pair returned is [(a, k)] at
    the exit of the loop. *)
Fixpoint FNNd_loop (fuel : nat) (A : list node) (b : point) (k : nat)
    : outcome (node * nat) :=
  match fuel with
  | O => OutOfFuel
  | S fuel' =>
      let a := kth_neighbour b k in
      if decide (a ∈ A) then Return (a, S k)
      else FNNd_loop fuel' A b (S k)
  end.

(** [k_cache] is a module-level dictionary keyed by the printed query
    point; the embedding keys it by the point and threads it through. *)
Definition FNNd (fuel : nat) (k_cache : gmap point nat) (A : list node)
    (b : point) : outcome (node * gmap point nat) :=
  let k := default 2%nat (k_cache !! b) in
  '(a, k') ← FNNd_loop fuel A b k;
  Return (a, <[b := (k' - 1)%nat]> k_cache).

(** [sq_dist(a, b)] on coordinate pairs. *)
Definition sq_dist (a b : point) : Z :=
  (a.1 - b.1) * (a.1 - b.1) + (a.2 - b.2) * (a.2 - b.2).

(** ** modBoruvka *)

(** [hav_dist] as the engine calls it: a length or an exception.  The
    module's own [hav_dist] raises on every call ([Haversine.hav_dist]
    below); the engine is studied for any distance function put in its
    place. *)
Variable hav_dist : point -> point -> outcome Z.

(** The iteration order of the set returned by [connected_components]. *)
Variable iter_set : list node -> list node.

(** [subgraphs.queues[C]]: the handle stored under [C] and its object. *)
Definition queue_at (X : UnionFind) (C : node)
    : outcome (node * PriorityQueue edge) :=
  h ← read (queues X) C;
  q ← read (heap X) h;
  Return (h, q).

(** Lines 284-290: one iteration of the initialisation loop. *)
Definition init_node (fuel : nat) (V : list node)
    (acc : UnionFind * gmap point nat) (v : node)
    : outcome (UnionFind * gmap point nat) :=
  let '(X, k_cache) := acc in
  '(vm, k_cache') ← FNNd fuel k_cache V (coords v);
  let dm := sq_dist (coords v) (coords vm) in
  '(root, X1) ← getitem X v;
  '(h, q) ← queue_at X1 root;
  Return (set_heap (insert h (push q (v, vm) dm)) X1, k_cache').

Fixpoint for_each {S E} (body : S -> E -> outcome S) (s : S) (l : list E)
    : outcome S :=
  match l with
  | [] => Return s
  | e :: rest => s' ← body s e; for_each body s' rest
  end.

(** [set([self[r] for r in self.parents.keys()])]: the keys are the nodes
    in registration order. *)
Definition connected_components (X : UnionFind) (keys : list node)
    : outcome (list node * UnionFind) :=
  '(roots, X') ← for_each
      (fun (acc : list node * UnionFind) r =>
         '(root, X1) ← getitem acc.2 r;
         Return (acc.1 ++ [root], X1))
      ([], X) keys;
  Return (iter_set roots, X').

(** [component_set(r)]: [self.children[self[r]]]. *)
Definition component_set (X : UnionFind) (r : node)
    : outcome (list node * UnionFind) :=
  '(root, X1) ← getitem X r;
  ch ← read (children X1) root;
  Return (ch, X1).

(** Lines 316-321: replace stale tops until the top edge leaves the
    component. *)
Fixpoint refresh_top (fuel gas : nat) (C : node) (members djointVC : list node)
    (X : UnionFind) (k_cache : gmap point nat) (v vm : node)
    : outcome (UnionFind * gmap point nat * edge) :=
  if decide (vm ∈ members) then
    match gas with
    | O => OutOfFuel
    | S gas' =>
        '(h, q) ← queue_at X C;
        match pop q with
        | None => Raise IndexError
        | Some (_, q1) =>
            let X1 := set_heap (insert h q1) X in
            '(um, k_cache') ← FNNd fuel k_cache djointVC (coords v);
            let dm := sq_dist (coords v) (coords um) in
            '(h2, q2) ← queue_at X1 C;
            let q3 := push q2 (v, um) dm in
            let X2 := set_heap (insert h2 q3) X1 in
            match top q3 with
            | None => Raise TypeError
            | Some (v', vm') =>
                refresh_top fuel gas' C members djointVC X2 k_cache' v' vm'
            end
        end
    end
  else Return (X, k_cache, (v, vm)).

(** Lines 299-326: the body of [for C in connected_components()]. *)
Definition gather (fuel : nat) (V : list node)
    (acc : UnionFind * gmap point nat * PriorityQueue candidate) (C : node)
    : outcome (UnionFind * gmap point nat * PriorityQueue candidate) :=
  let '(X, k_cache, Ep) := acc in
  '(_, q) ← queue_at X C;
  match top q with
  | None => Return (X, k_cache, Ep)
  | Some (v, vm) =>
      '(members, X1) ← component_set X v;
      let djointVC := filter (fun x => x ∉ members) V in
      '(X2, k_cache', (v', vm')) ←
         refresh_top fuel fuel C members djointVC X1 k_cache v vm;
      dm ← hav_dist (coords v') (coords vm');
      Return (X2, k_cache', push Ep (v', vm', dm) dm)
  end.

(** Lines 295-355: the rounds. *)
Fixpoint rounds (fuel gas : nat) (V : list node) (k_cache : gmap point nat)
    (st : state) : outcome state :=
  if decide (Z.of_nat (length (Et st)) < Z.of_nat (length V) - 1) then
    match gas with
    | O => OutOfFuel
    | S gas' =>
        '(comps, X1) ← connected_components (subgraphs st) V;
        '(X2, k_cache', Ep) ← for_each (gather fuel V)
                                 (X1, k_cache, pq_new) comps;
        let snapshot := Et st in
        st' ← P2 Ep (mkState X2 (rtree st) (Et st));
        if decide (Et st' = snapshot) then Return st'
        else rounds fuel gas' V k_cache' st'
    end
  else Return st.

Definition empty_UnionFind : UnionFind := mkUF ∅ ∅ ∅ ∅ ∅ ∅.

(** [modBoruvka(T)]: the accepted edges put into [T] at the end.  [V] is
    [T.nodes()]; [k_cache] is the content of the cache at the call.
    [np.row_stack] of line 275 raises [ValueError] when there is no
    coordinate row to stack. *)
Definition modBoruvka (fuel : nat) (V : list node) (k_cache : gmap point nat)
    : outcome (list edge) :=
  match V with
  | [] => Raise ValueError
  | _ :: _ =>
      '(X, k_cache') ← for_each (init_node fuel V) (empty_UnionFind, k_cache) V;
      st ← rounds fuel fuel V k_cache' (mkState X [] []);
      Return (Et st)
  end.

End Engine.

(** ** Haversine (lines 15-23 and 143-165)

    Angles and lengths are real numbers here. *)

Module Haversine.

(** [memoize(f)]: the body defines the class [memodict] and ends; a Python
    function that ends without [return] yields [None]. *)
Definition memoize {F : Type} (f : F) : option F := None.

(** Calling the object a decorated name is bound to: [None] is not
    callable. *)
Definition call {F B : Type} (g : option F) (k : F -> B) : outcome B :=
  match g with
  | Some f => Return (k f)
  | None => Raise TypeError
  end.

Section Formula.
Import Stdlib.Reals.Reals.
#[local] Open Scope R_scope.

(** [pi] is a free name of the module. *)
Variable pi : R.

(** The function under the decorator. *)
Definition get_hav_distance_body (lat lon pcode_lat pcode_lon : R) : R :=
  let rad_factor := pi / 180 in
  let lat_in_rad := lat * rad_factor in
  let lon_in_rad := lon * rad_factor in
  let pcode_lat_in_rad := pcode_lat * rad_factor in
  let pcode_lon_in_rad := pcode_lon * rad_factor in
  let delta_lon := lon_in_rad - pcode_lon_in_rad in
  let delta_lat := lat_in_rad - pcode_lat_in_rad in
  let inverse_angle :=
    (sin (delta_lat / 2)) ^ 2
    + cos pcode_lat_in_rad * cos lat_in_rad * (sin (delta_lon / 2)) ^ 2 in
  let haversine_angle := 2 * asin (sqrt inverse_angle) in
  let earth_radius := 6371010 in
  haversine_angle * earth_radius.

(** [@memoize def get_hav_distance(...)]: the name is bound to the value
    of [memoize(get_hav_distance)]. *)
Definition get_hav_distance : option (R -> R -> R -> R -> R) :=
  memoize get_hav_distance_body.

Definition hav_dist (point1 point2 : R * R) : outcome R :=
  let '(x1, y1) := point1 in
  let '(x2, y2) := point2 in
  call get_hav_distance (fun f => f y1 x1 y2 x2).

(** The haversine great-circle distance of the specification, in metres,
    between [(lon1, lat1)] and [(lon2, lat2)] given in degrees. *)
Definition haversine (lon1 lat1 lon2 lat2 : R) : R :=
  let phi1 := lat1 * (PI / 180) in
  let phi2 := lat2 * (PI / 180) in
  let dphi := phi1 - phi2 in
  let dlam := lon1 * (PI / 180) - lon2 * (PI / 180) in
  2 * 6371010
  * asin (sqrt ((sin (dphi / 2)) ^ 2
                + cos phi1 * cos phi2 * (sin (dlam / 2)) ^ 2)).

End Formula.

End Haversine.

(** * Specification predicates *)

(** [root_of p x r]: following parent pointers from [x] ends at the
    self-parented node [r]. *)
Inductive root_of (p : gmap node node) : node -> node -> Prop :=
  | root_self r : p !! r = Some r -> root_of p r r
  | root_step x y r :
      p !! x = Some y -> x ≠ y -> root_of p y r -> root_of p x r.

(** The same with the number of pointers followed. *)
Inductive reach (p : gmap node node) : nat -> node -> node -> Prop :=
  | reach_O r : p !! r = Some r -> reach p 0 r r
  | reach_S n x y r :
      p !! x = Some y -> x ≠ y -> reach p n y r -> reach p (S n) x r.

(** Two nodes lie in one component of the partition. *)
Definition same_root (p : gmap node node) (u v : node) : Prop :=
  ∃ r, root_of p u r ∧ root_of p v r.

(** Connection by a path of edges of [E], in either direction. *)
Inductive connected (E : list edge) : node -> node -> Prop :=
  | conn_refl x : connected E x x
  | conn_edge u v : (u, v) ∈ E -> connected E u v
  | conn_sym u v : connected E u v -> connected E v u
  | conn_trans u w v : connected E u w -> connected E w v -> connected E u v.

(** A forest: every edge occurrence is a bridge, that is, taking it out
    disconnects its end points.  (A repeated edge, a loop or any cycle
    has an edge that is not a bridge.) *)
Definition acyclic (E : list edge) : Prop :=
  ∀ E1 e E2, E = E1 ++ e :: E2 -> ¬ connected (E1 ++ E2) e.1 e.2.

(** * Union-find lemmas *)

Lemma root_of_is_root p x r : root_of p x r -> p !! r = Some r.
Proof. induction 1; auto. Qed.

Lemma root_of_registered p x r : root_of p x r -> is_Some (p !! x).
Proof. destruct 1; eauto. Qed.

Lemma root_of_det p x r s : root_of p x r -> root_of p x s -> r = s.
Proof.
  intros H; revert s; induction H as [r Hr | x y r Hxy Hne _ IH]; intros s Hs.
  - inversion Hs; subst; congruence.
  - inversion Hs; subst; [congruence|].
    apply IH. congruence.
Qed.

Lemma root_of_root p r s : p !! r = Some r -> root_of p r s -> s = r.
Proof. intros Hr Hs. eapply root_of_det; eauto using root_self. Qed.

Lemma reach_root_of p n x r : reach p n x r -> root_of p x r.
Proof. induction 1; eauto using root_self, root_step. Qed.

Lemma root_of_reach p x r : root_of p x r -> ∃ n, reach p n x r.
Proof.
  induction 1 as [r Hr | x y r Hxy Hne _ [n IH]];
    eauto using reach_O, reach_S.
Qed.

Lemma reach_det p n m x r s : reach p n x r -> reach p m x s -> n = m.
Proof.
  intros H; revert m s; induction H as [r Hr | n x y r Hxy Hne _ IH];
    intros m s Hs.
  - inversion Hs; subst; congruence.
  - inversion Hs as [|m' x' y' s' Hxy' Hne' Hs']; subst; [congruence|].
    f_equal. eapply IH. replace y with y' by congruence. eauto.
Qed.

(** The nodes on the way to the root are pairwise distinct registered
    nodes, hence no more than the dictionary has keys. *)
Lemma reach_chain p n x r :
  reach p n x r ->
  ∃ l : list node, length l = S n ∧ NoDup l
    ∧ ∀ y, y ∈ l -> is_Some (p !! y) ∧ ∃ m, (m <= n)%nat ∧ reach p m y r.
Proof.
  induction 1 as [r Hr | n x y r Hxy Hne Hy (l & Hlen & Hnd & Hl)].
  - exists [r]. split; [done|]. split; [apply NoDup_singleton|].
    intros y ->%list_elem_of_singleton. split; [eauto|].
    exists 0%nat. split; [lia|]. by constructor.
  - exists (x :: l). split; [simpl; lia|]. split.
    + constructor; [|done]. intros Hx. destruct (Hl _ Hx) as (_ & m & Hm & Hr).
      assert (S n = m) by (eapply reach_det; [eapply reach_S|]; eauto). lia.
    + intros z [->|Hz]%elem_of_cons.
      * split; [eauto|]. exists (S n). split; [lia|]. eapply reach_S; eauto.
      * destruct (Hl _ Hz) as (? & m & ? & ?). split; [done|].
        exists m. split; [lia|done].
Qed.

Lemma reach_bound p n x r : reach p n x r -> (n < size p)%nat.
Proof.
  intros (l & Hlen & Hnd & Hl)%reach_chain.
  assert (length l <= size (dom p))%nat as Hle.
  { rewrite <-(size_list_to_set (C:=gset node) l) by done.
    apply subseteq_size. intros y Hy%elem_of_list_to_set.
    apply elem_of_dom. by apply Hl. }
  rewrite size_dom in Hle. lia.
Qed.

(** The climb of [__getitem__] ends at the root and collects only nodes of
    that root. *)
Lemma climb_reach p n last r :
  reach p n last r ->
  ∀ fuel path next, p !! last = Some next -> (n <= fuel)%nat ->
  ∃ path', climb fuel p path last next = Return (path ++ path', r)
           ∧ ∀ a, a ∈ path' -> root_of p a r.
Proof.
  induction 1 as [r Hr | n x y r Hxy Hne Hy IH]; intros fuel path next Hn Hf.
  - exists []. assert (next = r) as -> by congruence.
    destruct fuel; simpl; rewrite decide_True by done;
      rewrite app_nil_r; split; auto; intros a Ha; inversion Ha.
  - assert (next = y) as -> by congruence.
    destruct fuel as [|fuel]; [lia|]. simpl.
    rewrite decide_False by congruence.
    destruct (root_of_registered p y r (reach_root_of _ _ _ _ Hy)) as [z Hz].
    rewrite Hz.
    destruct (IH fuel (path ++ [y]) z Hz ltac:(lia)) as (path' & -> & Hp).
    exists (y :: path'). split.
    + by rewrite <-app_assoc.
    + intros a [->|Ha]%elem_of_cons; [eauto using reach_root_of|auto].
Qed.

(** Re-pointing a node at its own root changes no root. *)
Lemma compress_one p a r :
  root_of p a r ->
  ∀ y s, root_of (<[a := r]> p) y s ↔ root_of p y s.
Proof.
  intros Ha y s. pose proof (root_of_is_root _ _ _ Ha) as Hr. split.
  - induction 1 as [s Hs | y z s Hyz Hne _ IH].
    + destruct (decide (s = a)) as [->|Hsa].
      * rewrite lookup_insert_eq in Hs. injection Hs as ->.
        by apply root_self.
      * rewrite lookup_insert_ne in Hs by done. by apply root_self.
    + destruct (decide (y = a)) as [->|Hya].
      * rewrite lookup_insert_eq in Hyz. injection Hyz as <-.
        assert (s = r) as -> by eauto using root_of_root. done.
      * rewrite lookup_insert_ne in Hyz by done. eapply root_step; eauto.
  - induction 1 as [s Hs | y z s Hyz Hne Hz IH].
    + destruct (decide (s = a)) as [->|Hsa].
      * assert (r = a) as Hra by (eapply root_of_root; eauto).
        rewrite Hra. apply root_self. by rewrite lookup_insert_eq.
      * apply root_self. by rewrite lookup_insert_ne.
    + destruct (decide (y = a)) as [->|Hya].
      * assert (s = r) as ->.
        { eapply root_of_det; [|exact Ha]. eapply root_step; eauto. }
        destruct (decide (a = r)) as [->|Har].
        -- apply root_self. by rewrite lookup_insert_eq.
        -- eapply root_step; [by rewrite lookup_insert_eq|done|].
           apply root_self. by rewrite lookup_insert_ne.
      * eapply root_step; [by rewrite lookup_insert_ne|done|done].
Qed.

Lemma compress_roots path : ∀ p r,
  (∀ a, a ∈ path -> root_of p a r) ->
  ∀ y s, root_of (compress path r p) y s ↔ root_of p y s.
Proof.
  induction path as [|a path IH]; intros p r Hp y s; [done|].
  unfold compress in *. simpl.
  assert (root_of p a r) as Ha by (apply Hp; left).
  rewrite IH; [by apply compress_one|].
  intros b Hb. apply compress_one; [done|]. apply Hp. by right.
Qed.

Lemma compress_registered path : ∀ p r x,
  is_Some (p !! x) -> is_Some (compress path r p !! x).
Proof.
  induction path as [|a path IH]; intros p r x Hx; [done|].
  unfold compress in *. simpl. apply IH.
  destruct (decide (x = a)) as [->|];
    [rewrite lookup_insert_eq|rewrite lookup_insert_ne by done]; eauto.
Qed.

Lemma compress_registered_inv path : ∀ p r x,
  (∀ a, a ∈ path -> is_Some (p !! a)) ->
  is_Some (compress path r p !! x) -> is_Some (p !! x).
Proof.
  induction path as [|a path IH]; intros p r x Hp Hx; [done|].
  unfold compress in *. simpl in Hx. apply IH in Hx.
  - destruct (decide (x = a)) as [->|];
      [apply Hp; left|by rewrite lookup_insert_ne in Hx].
  - intros b Hb. destruct (decide (b = a)) as [->|];
      [rewrite lookup_insert_eq|rewrite lookup_insert_ne by done]; eauto.
    apply Hp. by right.
Qed.

(** Hanging the root [r] under another root [h] sends the nodes of [r]
    to [h] and leaves every other root. *)
Lemma link_roots p r h :
  p !! r = Some r -> p !! h = Some h -> r ≠ h ->
  ∀ y s, root_of (<[r := h]> p) y s
         ↔ ∃ s0, root_of p y s0 ∧ s = (if decide (s0 = r) then h else s0).
Proof.
  intros Hr Hh Hne y s. split.
  - induction 1 as [s Hs | y z s Hyz Hyz' _ (s0 & Hs0 & ->)].
    + destruct (decide (s = r)) as [->|Hsr].
      * rewrite lookup_insert_eq in Hs. congruence.
      * rewrite lookup_insert_ne in Hs by done. exists s.
        rewrite decide_False by done. eauto using root_self.
    + destruct (decide (y = r)) as [->|Hyr].
      * rewrite lookup_insert_eq in Hyz. injection Hyz as <-.
        assert (s0 = h) as -> by eauto using root_of_root.
        exists r. split; [eauto using root_self|].
        repeat case_decide; congruence.
      * rewrite lookup_insert_ne in Hyz by done.
        exists s0. eauto using root_step.
  - intros (s0 & Hs0 & ->).
    induction Hs0 as [s0 Hs0 | y z s0 Hyz Hyz' _ IH].
    + destruct (decide (s0 = r)) as [->|Hsr].
      * eapply root_step; [by rewrite lookup_insert_eq|done|].
        apply root_self. by rewrite lookup_insert_ne.
      * apply root_self. by rewrite lookup_insert_ne.
    + assert (y ≠ r) by congruence.
      eapply root_step; [by rewrite lookup_insert_ne|done|done].
Qed.

(** Well-formed union-find states: every registered node has a root and
    an entry in every dictionary, every stored handle names a live queue
    object, and a root holds the queue object it was created with. *)
Record wf_uf (X : UnionFind) : Prop := mk_wf_uf {
  wf_rooted : ∀ x, is_Some (parents X !! x) -> ∃ r, root_of (parents X) x r;
  wf_weights : ∀ x, is_Some (parents X !! x) -> is_Some (weights X !! x);
  wf_mv : ∀ x, is_Some (parents X !! x) -> is_Some (mv X !! x);
  wf_children : ∀ x, is_Some (parents X !! x) -> is_Some (children X !! x);
  wf_queues : ∀ x, is_Some (parents X !! x) -> is_Some (queues X !! x);
  wf_heap : ∀ x h, queues X !! x = Some h -> is_Some (heap X !! h);
  wf_own : ∀ r, parents X !! r = Some r -> queues X !! r = Some r
}.

Section UnionFindFacts.
Variable node_mv : node -> Z.
Variable list_of_set : list (entry edge) -> list (entry edge).

(** [find] of a registered node returns its root and only rewrites parent
    pointers, keeping every root. *)
Lemma getitem_registered X x :
  wf_uf X -> is_Some (parents X !! x) ->
  ∃ r p', getitem node_mv X x = Return (r, set_parents (fun _ => p') X)
    ∧ root_of (parents X) x r
    ∧ (∀ y s, root_of p' y s ↔ root_of (parents X) y s)
    ∧ (∀ y, is_Some (p' !! y) ↔ is_Some (parents X !! y)).
Proof.
  intros Hwf [first Hx]. unfold getitem. rewrite Hx.
  destruct (wf_rooted X Hwf x) as [r Hr]; [eauto|].
  destruct (root_of_reach _ _ _ Hr) as [n Hn].
  pose proof (reach_bound _ _ _ _ Hn) as Hb.
  destruct (climb_reach _ _ _ _ Hn (size (parents X)) [x] first Hx
              ltac:(lia)) as (path' & Hc & Hp).
  rewrite Hc. simpl.
  assert (∀ a, a ∈ [x] ++ path' -> root_of (parents X) a r) as Hall.
  { intros a [->%list_elem_of_singleton|Ha]%elem_of_app; auto. }
  exists r, (compress ([x] ++ path') r (parents X)).
  split; [done|]. split; [done|]. split.
  - by apply compress_roots.
  - intros y. split.
    + apply compress_registered_inv. intros a Ha.
      eauto using root_of_registered.
    + apply compress_registered.
Qed.

Lemma wf_set_parents X p' :
  wf_uf X ->
  (∀ y s, root_of p' y s ↔ root_of (parents X) y s) ->
  (∀ y, is_Some (p' !! y) ↔ is_Some (parents X !! y)) ->
  wf_uf (set_parents (fun _ => p') X).
Proof.
  intros Hwf Hroots Hreg. constructor; simpl.
  - intros x Hx%Hreg. destruct (wf_rooted X Hwf x Hx) as [r Hr].
    exists r. by apply Hroots.
  - intros x Hx%Hreg. by apply (wf_weights X).
  - intros x Hx%Hreg. by apply (wf_mv X).
  - intros x Hx%Hreg. by apply (wf_children X).
  - intros x Hx%Hreg. by apply (wf_queues X).
  - apply (wf_heap X Hwf).
  - intros r Hr. apply (wf_own X Hwf).
    eapply root_of_is_root, Hroots. by apply root_self.
Qed.

(** [find] of an unknown node registers it as a singleton. *)
Lemma root_of_fresh X x :
  wf_uf X -> parents X !! x = None ->
  ∀ y s, root_of (<[x := x]> (parents X)) y s
         ↔ root_of (parents X) y s ∨ (y = x ∧ s = x).
Proof.
  intros Hwf Hx y s. split.
  - induction 1 as [s Hs | y z s Hyz Hne _ IH].
    + destruct (decide (s = x)) as [->|Hsx]; [by right|].
      rewrite lookup_insert_ne in Hs by done. left. by apply root_self.
    + destruct (decide (y = x)) as [->|Hyx].
      { rewrite lookup_insert_eq in Hyz. congruence. }
      rewrite lookup_insert_ne in Hyz by done.
      destruct IH as [IH|[-> ->]]; [left; eapply root_step; eauto|].
      destruct (wf_rooted X Hwf y) as [r Hr]; [eauto|].
      inversion Hr as [? Hy|? z ? Hyz' ? Hz]; subst; [congruence|].
      assert (z = x) as -> by congruence.
      apply root_of_registered in Hz. rewrite Hx in Hz. by destruct Hz.
  - intros [H|[-> ->]]; [|apply root_self; by rewrite lookup_insert_eq].
    induction H as [s Hs | y z s Hyz Hne _ IH].
    + apply root_self. rewrite lookup_insert_ne; [done|congruence].
    + eapply root_step; [|done|done].
      rewrite lookup_insert_ne; [done|congruence].
Qed.

Lemma getitem_fresh X x :
  wf_uf X -> parents X !! x = None ->
  ∃ X', getitem node_mv X x = Return (x, X')
    ∧ wf_uf X'
    ∧ parents X' = <[x := x]> (parents X)
    ∧ mv X' = <[x := node_mv x]> (mv X)
    ∧ queues X' = <[x := x]> (queues X)
    ∧ heap X' = <[x := pq_new]> (heap X).
Proof.
  intros Hwf Hx. unfold getitem. rewrite Hx. eexists. split; [done|].
  split; [|done].
  assert (∀ {V} (m : gmap node V) (v : V) y,
    is_Some (<[x := x]> (parents X) !! y) ->
    (∀ z, is_Some (parents X !! z) -> is_Some (m !! z)) ->
    is_Some (<[x := v]> m !! y)) as Hdom.
  { intros V m v y Hy Hm. destruct (decide (y = x)) as [->|].
    - rewrite lookup_insert_eq. eauto.
    - rewrite lookup_insert_ne in Hy by done.
      rewrite lookup_insert_ne by done. auto. }
  constructor; simpl.
  - intros y Hy. destruct (decide (y = x)) as [->|Hyx].
    + exists x. apply root_self. by rewrite lookup_insert_eq.
    + rewrite lookup_insert_ne in Hy by done.
      destruct (wf_rooted X Hwf y Hy) as [r Hr]. exists r.
      apply root_of_fresh; auto.
  - intros y Hy. apply Hdom; [done|apply (wf_weights X Hwf)].
  - intros y Hy. apply Hdom; [done|apply (wf_mv X Hwf)].
  - intros y Hy. apply Hdom; [done|apply (wf_children X Hwf)].
  - intros y Hy. apply Hdom; [done|apply (wf_queues X Hwf)].
  - intros y h Hy. destruct (decide (y = x)) as [->|Hyx].
    + rewrite lookup_insert_eq in Hy. injection Hy as <-.
      rewrite lookup_insert_eq. eauto.
    + rewrite lookup_insert_ne in Hy by done.
      destruct (decide (h = x)) as [->|];
        [rewrite lookup_insert_eq; eauto|].
      rewrite lookup_insert_ne by done. eapply wf_heap; eauto.
  - intros r Hr. destruct (decide (r = x)) as [->|Hrx].
    + by rewrite lookup_insert_eq.
    + rewrite lookup_insert_ne in Hr by done.
      rewrite lookup_insert_ne by done. by apply (wf_own X).
Qed.

Lemma read_Some {V} (d : gmap node V) k v : d !! k = Some v -> read d k = Return v.
Proof. unfold read. by intros ->. Qed.

Lemma filter_other (r1 r2 hv : node) :
  r1 ≠ r2 -> hv = r1 ∨ hv = r2 ->
  ∃ r, filter (fun r => r ≠ hv) [r1; r2] = [r]
       ∧ ((r = r1 ∧ hv = r2) ∨ (r = r2 ∧ hv = r1)).
Proof.
  intros Hne [->| ->]; rewrite !filter_cons, filter_nil;
    repeat case_decide; try congruence; eauto.
Qed.

Lemma heaviest_of_cases w1 r1 w2 r2 :
  heaviest_of w1 r1 w2 r2 = r1 ∨ heaviest_of w1 r1 w2 r2 = r2.
Proof. unfold heaviest_of. destruct (_ || _); auto. Qed.

Lemma insert_is_Some {V} (m : gmap node V) k v y :
  is_Some (m !! y) -> is_Some (<[k := v]> m !! y).
Proof.
  intros Hy. destruct (decide (y = k)) as [->|];
    [rewrite lookup_insert_eq|rewrite lookup_insert_ne by done]; eauto.
Qed.

Lemma insert_is_Some_inv {V} (m : gmap node V) k v y :
  is_Some (m !! k) -> is_Some (<[k := v]> m !! y) -> is_Some (m !! y).
Proof.
  intros Hk Hy. destruct (decide (y = k)) as [->|]; [done|].
  by rewrite lookup_insert_ne in Hy.
Qed.

(** [union] of two registered nodes of different roots: one root is hung
    under the other, and both get the budget [mv[g1] + mv[g2] - d]. *)
Lemma union_spec X g1 g2 d r1 r2 :
  wf_uf X ->
  root_of (parents X) g1 r1 -> root_of (parents X) g2 r2 -> r1 ≠ r2 ->
  ∃ X' r h m1 m2,
    union node_mv list_of_set X g1 g2 d = Return X'
    ∧ wf_uf X'
    ∧ ((r = r1 ∧ h = r2) ∨ (r = r2 ∧ h = r1))
    ∧ mv X !! g1 = Some m1 ∧ mv X !! g2 = Some m2
    ∧ mv X' = <[r := m1 + m2 - d]> (<[h := m1 + m2 - d]> (mv X))
    ∧ (∀ y s, root_of (parents X') y s
              ↔ ∃ s0, root_of (parents X) y s0
                      ∧ s = (if decide (s0 = r) then h else s0))
    ∧ (∀ y, is_Some (parents X' !! y) ↔ is_Some (parents X !! y)).
Proof.
  intros Hwf Hg1 Hg2 Hne. unfold union.
  destruct (getitem_registered X g1 Hwf (root_of_registered _ _ _ Hg1))
    as (r1' & p1 & -> & Hr1' & Hp1 & Hd1).
  assert (r1' = r1) as -> by eauto using root_of_det. clear Hr1'.
  pose proof (wf_set_parents X p1 Hwf Hp1 Hd1) as Hwf1.
  set (X1 := set_parents (fun _ => p1) X) in *. simpl.
  destruct (getitem_registered X1 g2 Hwf1) as (r2' & p2 & -> & Hr2' & Hp2 & Hd2).
  { simpl. apply Hd1. eauto using root_of_registered. }
  assert (r2' = r2) as ->.
  { eapply root_of_det; [|exact Hg2]. by apply Hp1. }
  clear Hr2'.
  pose proof (wf_set_parents X1 p2 Hwf1 Hp2 Hd2) as Hwf2.
  set (X2 := set_parents (fun _ => p2) X1) in *. simpl.
  assert (∀ y s, root_of p2 y s ↔ root_of (parents X) y s) as Hp.
  { intros y s. rewrite Hp2. simpl. apply Hp1. }
  assert (∀ y, is_Some (p2 !! y) ↔ is_Some (parents X !! y)) as Hd.
  { intros y. rewrite Hd2. simpl. apply Hd1. }
  assert (p2 !! r1 = Some r1) as Hr1.
  { eapply root_of_is_root, Hp. apply root_self.
    eauto using root_of_is_root. }
  assert (p2 !! r2 = Some r2) as Hr2.
  { eapply root_of_is_root, Hp. apply root_self.
    eauto using root_of_is_root. }
  assert (∀ y, is_Some (p2 !! y) -> is_Some (parents X !! y)) as Hd'
    by (intros y; apply Hd).
  destruct (wf_weights X Hwf r1) as [w1 Hw1]; [apply Hd'; eauto|].
  destruct (wf_weights X Hwf r2) as [w2 Hw2]; [apply Hd'; eauto|].
  rewrite (read_Some _ _ _ Hw1), (read_Some _ _ _ Hw2). simpl.
  destruct (filter_other r1 r2 (heaviest_of w1 r1 w2 r2) Hne
              (heaviest_of_cases _ _ _ _)) as (r & -> & Hrh).
  set (h := heaviest_of w1 r1 w2 r2) in *.
  assert (p2 !! r = Some r ∧ p2 !! h = Some h ∧ r ≠ h) as (Hrr & Hhh & Hrh').
  { destruct Hrh as [[-> ->]|[-> ->]]; auto. }
  destruct (wf_weights X Hwf h) as [wh Hwh]; [apply Hd'; eauto|].
  destruct (wf_weights X Hwf r) as [wr Hwr]; [apply Hd'; eauto|].
  destruct (wf_mv X Hwf g1) as [m1 Hm1]; [eauto using root_of_registered|].
  destruct (wf_mv X Hwf g2) as [m2 Hm2]; [eauto using root_of_registered|].
  destruct (wf_children X Hwf h) as [ch Hch]; [apply Hd'; eauto|].
  destruct (wf_children X Hwf r) as [cr Hcr]; [apply Hd'; eauto|].
  destruct (wf_queues X Hwf h) as [hh Hhq]; [apply Hd'; eauto|].
  destruct (wf_queues X Hwf r) as [hr Hrq]; [apply Hd'; eauto|].
  destruct (wf_heap X Hwf h hh Hhq) as [qh Hqh].
  destruct (wf_heap X Hwf r hr Hrq) as [qr Hqr].
  rewrite (read_Some _ _ _ Hwh), (read_Some _ _ _ Hwr). simpl.
  rewrite (read_Some _ _ _ Hm1), (read_Some _ _ _ Hm2). simpl.
  rewrite (read_Some _ _ _ Hch), (read_Some _ _ _ Hcr). simpl.
  rewrite (read_Some _ _ _ Hhq), (read_Some _ _ _ Hrq). simpl.
  rewrite (read_Some _ _ _ Hqh), (read_Some _ _ _ Hqr). simpl.
  destruct (merge list_of_set qh qr) as [qh' qr'].
  eexists _, r, h, m1, m2. split; [done|].
  assert (∀ y s, root_of (<[r := h]> p2) y s
                 ↔ ∃ s0, root_of (parents X) y s0
                         ∧ s = (if decide (s0 = r) then h else s0)) as Hlink.
  { intros y s. rewrite link_roots by done.
    split; intros (s0 & Hs0 & ->); exists s0; split; auto; by apply Hp. }
  assert (∀ y, is_Some (<[r := h]> p2 !! y) ↔ is_Some (parents X !! y)) as Hreg.
  { intros y. rewrite <-Hd. split;
      [apply insert_is_Some_inv; eauto|apply insert_is_Some]. }
  split; [|simpl; split_and!; auto].
  constructor; simpl.
  - intros y [s0 Hs0]%Hreg%(wf_rooted X Hwf). eexists. apply Hlink. eauto.
  - intros y Hy%Hreg. by apply insert_is_Some, (wf_weights X).
  - intros y Hy%Hreg. by apply insert_is_Some, insert_is_Some, (wf_mv X).
  - intros y Hy%Hreg.
    by apply insert_is_Some, insert_is_Some, (wf_children X).
  - intros y Hy%Hreg. by apply insert_is_Some, (wf_queues X).
  - intros y k Hy. apply insert_is_Some, insert_is_Some.
    destruct (decide (y = r)) as [->|Hyr].
    + rewrite lookup_insert_eq in Hy. injection Hy as <-. eauto.
    + rewrite lookup_insert_ne in Hy by done. eapply wf_heap; eauto.
  - intros s Hs. destruct (decide (s = r)) as [->|Hsr].
    + rewrite lookup_insert_eq in Hs. congruence.
    + rewrite lookup_insert_ne in Hs by done.
      rewrite lookup_insert_ne by done. apply (wf_own X Hwf).
      eapply root_of_is_root, Hp. by apply root_self.
Qed.

End UnionFindFacts.

(** * Connectivity lemmas *)

Lemma connected_mono E F u v :
  (∀ e, e ∈ E -> e ∈ F) -> connected E u v -> connected F u v.
Proof.
  intros Hsub. induction 1;
    eauto using conn_refl, conn_edge, conn_sym, conn_trans.
Qed.

(** A path that may use one more edge either avoids it or crosses it. *)
Lemma connected_snoc E u v a b :
  connected (E ++ [(u, v)]) a b ->
  connected E a b
  ∨ (connected E a u ∧ connected E v b)
  ∨ (connected E a v ∧ connected E u b).
Proof.
  induction 1 as [x | x y Hxy | x y _ IH | x w y _ IH1 _ IH2].
  - left. apply conn_refl.
  - apply elem_of_app in Hxy as [Hxy|Hxy%list_elem_of_singleton].
    + left. by apply conn_edge.
    + injection Hxy as -> ->. right; left. split; apply conn_refl.
  - destruct IH as [IH|[[IH1 IH2]|[IH1 IH2]]];
      eauto 6 using conn_sym.
  - destruct IH1 as [IH1|[[IH1 IH1']|[IH1 IH1']]];
      destruct IH2 as [IH2|[[IH2 IH2']|[IH2 IH2']]];
      eauto 8 using conn_trans.
Qed.

Lemma acyclic_nil : acyclic [].
Proof. intros [|? ?] ? ? H; discriminate. Qed.

(** An edge between two nodes not yet connected keeps a forest a forest. *)
Lemma acyclic_snoc E u v :
  acyclic E -> ¬ connected E u v -> acyclic (E ++ [(u, v)]).
Proof.
  intros HE Huv E1 e E2 Heq Hc.
  destruct (decide (E2 = [])) as [->|Hne].
  - apply app_inj_tail in Heq as [<- <-]. rewrite app_nil_r in Hc. done.
  - destruct (exists_last Hne) as (E2' & e' & ->).
    rewrite app_comm_cons, app_assoc in Heq.
    apply app_inj_tail in Heq as [-> <-].
    rewrite app_assoc in Hc.
    assert (∀ x y, connected (E1 ++ E2') x y ->
                   connected (E1 ++ e :: E2') x y) as Hup.
    { intros x y. apply connected_mono. intros z.
      rewrite !elem_of_app, elem_of_cons. tauto. }
    assert (connected (E1 ++ e :: E2') e.1 e.2) as He.
    { apply conn_edge. destruct e. simpl.
      rewrite elem_of_app, elem_of_cons. auto. }
    apply connected_snoc in Hc as [Hc|[[Hc1 Hc2]|[Hc1 Hc2]]].
    + by eapply HE.
    + apply Huv. eapply conn_trans; [apply conn_sym, Hup, Hc1|].
      eapply conn_trans; [exact He|]. apply conn_sym, Hup, Hc2.
    + apply Huv. eapply conn_trans; [apply Hup, Hc2|].
      eapply conn_trans; [apply conn_sym, He|]. apply Hup, Hc1.
Qed.

Lemma same_root_sym p u v : same_root p u v -> same_root p v u.
Proof. intros (r & ? & ?). exists r. auto. Qed.

Lemma same_root_trans p u w v :
  same_root p u w -> same_root p w v -> same_root p u v.
Proof.
  intros (r & Hu & Hw) (s & Hw' & Hv).
  assert (r = s) as -> by eauto using root_of_det. exists s. auto.
Qed.

(** If every edge joins two nodes of one component, so does every path. *)
Lemma connected_same_root p E u v :
  (∀ a b, (a, b) ∈ E -> same_root p a b) ->
  connected E u v -> u = v ∨ same_root p u v.
Proof.
  intros HE. induction 1 as [x | x y Hxy | x y _ IH | x w y _ IH1 _ IH2].
  - by left.
  - right. by apply HE.
  - destruct IH as [->|IH]; [by left|right; by apply same_root_sym].
  - destruct IH1 as [->|IH1]; [done|].
    destruct IH2 as [<-|IH2]; [by right|].
    right. eapply same_root_trans; eauto.
Qed.

(** * The commit step *)

(** The candidate passes the tests of lines 334 and 336: its end points
    have different roots and both of their [mv] entries cover [dm]. *)
Definition unites (node_mv : node -> Z) (X : UnionFind) (c : candidate)
    : Prop :=
  let '(um, vm, dm) := c in
  ∃ ru X1 rv X2 mu mvm,
    getitem node_mv X um = Return (ru, X1)
    ∧ getitem node_mv X1 vm = Return (rv, X2)
    ∧ ru ≠ rv
    ∧ mv X2 !! um = Some mu ∧ dm <= mu
    ∧ mv X2 !! vm = Some mvm ∧ dm <= mvm.

Section CommitFacts.
Variable node_mv : node -> Z.
Variable list_of_set : list (entry edge) -> list (entry edge).
Variable coords : node -> point.

(** [find] always returns on a well-formed state; it keeps the roots of
    the registered nodes and at most adds the singleton of its argument. *)
Lemma getitem_total X x :
  wf_uf X ->
  ∃ r X', getitem node_mv X x = Return (r, X')
    ∧ wf_uf X'
    ∧ root_of (parents X') x r
    ∧ (∀ y s, root_of (parents X) y s -> root_of (parents X') y s)
    ∧ (∀ y s, root_of (parents X') y s ->
              root_of (parents X) y s ∨ (y = x ∧ s = x))
    ∧ (∀ y, is_Some (parents X !! y) -> is_Some (parents X' !! y))
    ∧ (∀ y, is_Some (parents X' !! y) -> is_Some (parents X !! y) ∨ y = x).
Proof.
  intros Hwf. destruct (parents X !! x) as [first|] eqn:Hx.
  - destruct (getitem_registered node_mv X x Hwf) as (r & p' & Hg & Hr & Hp & Hd);
      [eauto|].
    exists r, (set_parents (fun _ => p') X). split; [done|].
    split; [by apply wf_set_parents|]. simpl.
    split; [by apply Hp|]. split; [intros; by apply Hp|].
    split; [intros y s Hy; left; by apply Hp|].
    split; [intros; by apply Hd|]. intros y Hy; left; by apply Hd.
  - destruct (getitem_fresh node_mv X x Hwf Hx) as (X' & Hg & Hwf' & Hp & _).
    exists x, X'. split; [done|]. split; [done|]. rewrite Hp.
    split; [apply root_self; by rewrite lookup_insert_eq|].
    split; [intros y s Hy; apply root_of_fresh; auto|].
    split; [intros y s Hy; by apply root_of_fresh in Hy|].
    split; [intros y Hy; by apply insert_is_Some|].
    intros y Hy. destruct (decide (y = x)) as [->|]; [by right|].
    left. by rewrite lookup_insert_ne in Hy.
Qed.

(** What one iteration of the commit loop does, branch by branch. *)
Lemma commit_cases st um vm dm :
  wf_uf (subgraphs st) ->
  ∃ ru X1 rv X2 mu mvm,
    getitem node_mv (subgraphs st) um = Return (ru, X1)
    ∧ getitem node_mv X1 vm = Return (rv, X2)
    ∧ wf_uf X2
    ∧ root_of (parents X2) um ru ∧ root_of (parents X2) vm rv
    ∧ (∀ y s, root_of (parents (subgraphs st)) y s -> root_of (parents X2) y s)
    ∧ (∀ y s, root_of (parents X2) y s ->
              root_of (parents (subgraphs st)) y s ∨ y = s)
    ∧ mv X2 !! um = Some mu ∧ mv X2 !! vm = Some mvm
    ∧ ((ru ≠ rv ∧ dm <= mu ∧ dm <= mvm
        ∧ ∃ X3 r h,
            union node_mv list_of_set X2 um vm dm = Return X3
            ∧ wf_uf X3
            ∧ ((r = ru ∧ h = rv) ∨ (r = rv ∧ h = ru))
            ∧ mv X3 = <[r := mu + mvm - dm]> (<[h := mu + mvm - dm]> (mv X2))
            ∧ (∀ y s, root_of (parents X3) y s
                      ↔ ∃ s0, root_of (parents X2) y s0
                              ∧ s = (if decide (s0 = r) then h else s0))
            ∧ commit node_mv list_of_set coords st (um, vm, dm)
              = Return
                  (if line_intersection coords (rtree st) um vm
                   then mkState X3 (rtree st) (Et st)
                   else mkState X3
                          (rtree st
                           ++ [(make_bounding_box (coords um) (coords vm),
                                (um, vm))])
                          (Et st ++ [(um, vm)])))
       ∨ (ru ≠ rv ∧ dm <= mu ∧ mvm < dm
          ∧ commit node_mv list_of_set coords st (um, vm, dm)
            = Return (mkState X2 (rtree st) (Et st)))
       ∨ ((ru = rv ∨ mu < dm)
          ∧ commit node_mv list_of_set coords st (um, vm, dm)
            = Return (mkState (try_pop X2 um) (rtree st) (Et st)))).
Proof.
  intros Hwf.
  destruct (getitem_total (subgraphs st) um Hwf)
    as (ru & X1 & Hg1 & Hwf1 & Hru & Hk1 & Hb1 & Hd1 & _).
  destruct (getitem_total X1 vm Hwf1)
    as (rv & X2 & Hg2 & Hwf2 & Hrv & Hk2 & Hb2 & Hd2 & _).
  destruct (wf_mv X2 Hwf2 um) as [mu Hmu].
  { apply Hd2. eauto using root_of_registered. }
  destruct (wf_mv X2 Hwf2 vm) as [mvm Hmvm];
    [eauto using root_of_registered|].
  exists ru, X1, rv, X2, mu, mvm.
  split; [done|]. split; [done|]. split; [done|].
  split; [auto|]. split; [done|]. split; [auto|]. split.
  { intros y s [Hy|[-> ->]]%Hb2; [|by right].
    apply Hb1 in Hy as [Hy|[-> ->]]; auto. }
  split; [done|]. split; [done|].
  unfold commit. rewrite Hg1. simpl. rewrite Hg2. simpl.
  destruct (decide (ru = rv)) as [Heq|Hne].
  { right; right. split; [by left|]. simpl.
    rewrite decide_False by tauto. done. }
  rewrite (read_Some _ _ _ Hmu). simpl.
  destruct (decide (dm <= mu)) as [Hle|Hgt].
  2:{ right; right. split; [right; lia|].
      rewrite decide_False by tauto. done. }
  rewrite decide_True by done.
  rewrite (read_Some _ _ _ Hmvm). simpl.
  destruct (decide (dm <= mvm)) as [Hle'|Hgt'].
  2:{ right; left. split; [done|]. split; [done|]. split; [lia|done]. }
  left. split; [done|]. split; [done|]. split; [done|].
  destruct (union_spec node_mv list_of_set X2 um vm dm ru rv Hwf2
              (Hk2 _ _ Hru) Hrv Hne)
    as (X3 & r & h & m1 & m2 & Hu & Hwf3 & Hrh & Hm1 & Hm2 & Hmv & Hroots & _).
  assert (m1 = mu) as -> by congruence.
  assert (m2 = mvm) as -> by congruence.
  exists X3, r, h. rewrite Hu. simpl.
  split; [done|]. split; [done|]. split; [done|]. split; [done|].
  split; [done|]. by destruct (line_intersection _ _ _ _).
Qed.

End CommitFacts.

(** * Runs of the engine

    [reachable U st]: [st] is reached from the empty structure by the
    operations [modBoruvka] performs on it: finds, updates of live queue
    objects and commit steps.  [U] lists, in order, the candidates on
    which [union] was called. *)
Inductive reachable (node_mv : node -> Z)
    (list_of_set : list (entry edge) -> list (entry edge))
    (coords : node -> point) : list edge -> state -> Prop :=
  | reach_start :
      reachable node_mv list_of_set coords [] (mkState empty_UnionFind [] [])
  | reach_find U st x r X' :
      reachable node_mv list_of_set coords U st ->
      getitem node_mv (subgraphs st) x = Return (r, X') ->
      reachable node_mv list_of_set coords U (mkState X' (rtree st) (Et st))
  | reach_queue U st h q :
      reachable node_mv list_of_set coords U st ->
      is_Some (heap (subgraphs st) !! h) ->
      reachable node_mv list_of_set coords U
        (mkState (set_heap (insert h q) (subgraphs st)) (rtree st) (Et st))
  | reach_union U st um vm dm st' :
      reachable node_mv list_of_set coords U st ->
      unites node_mv (subgraphs st) (um, vm, dm) ->
      commit node_mv list_of_set coords st (um, vm, dm) = Return st' ->
      reachable node_mv list_of_set coords (U ++ [(um, vm)]) st'
  | reach_skip U st um vm dm st' :
      reachable node_mv list_of_set coords U st ->
      ¬ unites node_mv (subgraphs st) (um, vm, dm) ->
      commit node_mv list_of_set coords st (um, vm, dm) = Return st' ->
      reachable node_mv list_of_set coords U st'.

(** The invariant of a run. *)
Record run_inv (U : list edge) (st : state) : Prop := mk_run_inv {
  inv_wf : wf_uf (subgraphs st);
  inv_sub : ∀ e, e ∈ Et st -> e ∈ U;
  inv_edges : ∀ a b, (a, b) ∈ U -> same_root (parents (subgraphs st)) a b;
  inv_paths : ∀ x r, root_of (parents (subgraphs st)) x r -> connected U x r;
  inv_forest : acyclic (Et st)
}.

Lemma wf_empty : wf_uf empty_UnionFind.
Proof.
  constructor; simpl; intros *; rewrite ?lookup_empty;
    try (intros []; discriminate); discriminate.
Qed.

Lemma wf_set_heap X h q :
  wf_uf X -> is_Some (heap X !! h) -> wf_uf (set_heap (insert h q) X).
Proof.
  intros [] Hh. constructor; simpl; auto.
  intros x k Hk. apply insert_is_Some. eauto.
Qed.

Lemma try_pop_parents X um : parents (try_pop X um) = parents X.
Proof. unfold try_pop. repeat case_match; done. Qed.

Lemma try_pop_mv X um : mv (try_pop X um) = mv X.
Proof. unfold try_pop. repeat case_match; done. Qed.

Lemma wf_try_pop X um : wf_uf X -> wf_uf (try_pop X um).
Proof.
  intros Hwf. unfold try_pop. repeat case_match; auto.
  apply wf_set_heap; eauto.
Qed.

Section RunFacts.
Variable node_mv : node -> Z.
Variable list_of_set : list (entry edge) -> list (entry edge).
Variable coords : node -> point.

Lemma inv_same_parents U st st' :
  run_inv U st -> wf_uf (subgraphs st') ->
  Et st' = Et st ->
  (∀ y s, root_of (parents (subgraphs st)) y s ->
          root_of (parents (subgraphs st')) y s) ->
  (∀ y s, root_of (parents (subgraphs st')) y s ->
          root_of (parents (subgraphs st)) y s ∨ y = s) ->
  run_inv U st'.
Proof.
  intros [Hwf Hsub Hed Hpa Hfo] Hwf' HEt Hk Hb. constructor; auto.
  - by rewrite HEt.
  - intros a b (r & Ha & Hb')%Hed. exists r. auto.
  - intros x r [Hx| ->]%Hb; [auto|apply conn_refl].
  - by rewrite HEt.
Qed.

Lemma unites_cases st um vm dm ru X1 rv X2 mu mvm :
  getitem node_mv (subgraphs st) um = Return (ru, X1) ->
  getitem node_mv X1 vm = Return (rv, X2) ->
  mv X2 !! um = Some mu -> mv X2 !! vm = Some mvm ->
  unites node_mv (subgraphs st) (um, vm, dm)
  ↔ ru ≠ rv ∧ dm <= mu ∧ dm <= mvm.
Proof.
  intros Hg1 Hg2 Hmu Hmvm. split.
  - intros (ru' & X1' & rv' & X2' & mu' & mvm' & Hg1' & Hg2' & ? & ? & ? & ? & ?).
    rewrite Hg1 in Hg1'. injection Hg1' as <- <-.
    rewrite Hg2 in Hg2'. injection Hg2' as <- <-.
    assert (mu' = mu) as -> by congruence.
    assert (mvm' = mvm) as -> by congruence. done.
  - intros (? & ? & ?). exists ru, X1, rv, X2, mu, mvm. by repeat split.
Qed.

(** Every reachable state satisfies the invariant. *)
Lemma reachable_inv U st :
  reachable node_mv list_of_set coords U st -> run_inv U st.
Proof.
  induction 1 as [| U st x r X' _ IH Hg | U st h q _ IH Hh
                  | U st um vm dm st' _ IH Hun Hc
                  | U st um vm dm st' _ IH Hun Hc].
  - constructor; simpl.
    + apply wf_empty.
    + intros e He. inversion He.
    + intros a b Hab. inversion Hab.
    + intros x r Hx. apply root_of_registered in Hx. simpl in Hx.
      rewrite lookup_empty in Hx. by destruct Hx.
    + apply acyclic_nil.
  - destruct (getitem_total node_mv (subgraphs st) x (inv_wf _ _ IH))
      as (r' & X'' & Hg' & Hwf' & _ & Hk & Hb & _).
    rewrite Hg in Hg'. injection Hg' as <- <-.
    eapply inv_same_parents; eauto.
    intros y s [Hy|[-> ->]]%Hb; auto.
  - eapply inv_same_parents; eauto; simpl; auto.
    apply wf_set_heap; [apply (inv_wf _ _ IH)|done].
  - destruct (commit_cases node_mv list_of_set coords st um vm dm
                (inv_wf _ _ IH))
      as (ru & X1 & rv & X2 & mu & mvm & Hg1 & Hg2 & Hwf2 & Hru & Hrv
          & Hk & Hb & Hmu & Hmvm & Hcases).
    pose proof (proj1 (unites_cases st um vm dm _ _ _ _ _ _
                         Hg1 Hg2 Hmu Hmvm) Hun) as (Hne & Hle & Hle').
    destruct Hcases as [(_ & _ & _ & X3 & r & h & _ & Hwf3 & Hrh & _ & Hroots & Hc')
                       |[(_ & _ & ? & _)|([?|?] & _)]]; try lia; try done.
    rewrite Hc in Hc'. injection Hc' as ->.
    destruct IH as [Hwf Hsub Hed Hpa Hfo].
    assert (∀ y s, root_of (parents X2) y s -> connected U y s) as Hpa2.
    { intros y s [Hy| ->]%Hb; [auto|apply conn_refl]. }
    assert (connected (U ++ [(um, vm)]) r h) as Hrh'.
    { assert (∀ a b, connected U a b -> connected (U ++ [(um, vm)]) a b) as Hup.
      { intros a b. apply connected_mono. intros e. rewrite elem_of_app. auto. }
      assert (connected (U ++ [(um, vm)]) ru rv) as Hc0.
      { eapply conn_trans; [apply conn_sym, Hup, Hpa2, Hru|].
        eapply conn_trans; [|apply Hup, Hpa2, Hrv].
        apply conn_edge. rewrite elem_of_app, list_elem_of_singleton. auto. }
      destruct Hrh as [[-> ->]|[-> ->]]; [done|by apply conn_sym]. }
    assert (¬ connected (Et st) um vm) as Hnc.
    { intros Hcn. apply (connected_mono _ U) in Hcn; [|done].
      apply (connected_same_root _ _ _ _ Hed) in Hcn as [->|(r0 & Hu0 & Hv0)].
      - apply Hne. eauto using root_of_det.
      - apply Hne. transitivity r0;
          [|symmetry]; eapply root_of_det; eauto. }
    assert (run_inv (U ++ [(um, vm)]) (mkState X3 (rtree st) (Et st))) as Hinv.
    { constructor; simpl; auto.
      - intros e He. rewrite elem_of_app. auto.
      - intros a b [Hab|Hab%list_elem_of_singleton]%elem_of_app.
        + destruct (Hed _ _ Hab) as (r0 & Ha & Hb0). eexists.
          split; apply Hroots; eauto.
        + injection Hab as -> ->. exists h.
          split; apply Hroots; eexists; (split; [eassumption|]);
            destruct Hrh as [[-> ->]|[-> ->]]; repeat case_decide; congruence.
      - intros y s (s0 & Hs0 & ->)%Hroots.
        assert (connected (U ++ [(um, vm)]) y s0) as Hy.
        { eapply connected_mono; [|apply Hpa2, Hs0].
          intros e. rewrite elem_of_app. auto. }
        case_decide as Hs; [subst s0|done]. eapply conn_trans; eauto. }
    destruct (line_intersection coords (rtree st) um vm); [done|].
    destruct Hinv as [? Hsub' ? ? ?]. constructor; simpl in *; auto.
    + intros e [He|He]%elem_of_app; rewrite elem_of_app; auto.
    + by apply acyclic_snoc.
  - destruct (commit_cases node_mv list_of_set coords st um vm dm
                (inv_wf _ _ IH))
      as (ru & X1 & rv & X2 & mu & mvm & Hg1 & Hg2 & Hwf2 & Hru & Hrv
          & Hk & Hb & Hmu & Hmvm & Hcases).
    pose proof (unites_cases st um vm dm _ _ _ _ _ _ Hg1 Hg2 Hmu Hmvm) as Hiff.
    destruct Hcases as [(? & ? & ? & _)|[(_ & _ & _ & Hc')|(_ & Hc')]].
    + destruct Hun. apply Hiff. done.
    + rewrite Hc in Hc'. injection Hc' as ->.
      eapply inv_same_parents; eauto.
    + rewrite Hc in Hc'. injection Hc' as ->.
      eapply inv_same_parents; eauto; simpl;
        rewrite ?try_pop_parents; auto using wf_try_pop.
Qed.

End RunFacts.

(** * From the code of [modBoruvka] to runs *)

Lemma bind_Return {A B} (m : outcome A) (k : A -> outcome B) b :
  m ≫= k = Return b -> ∃ a, m = Return a ∧ k a = Return b.
Proof. destruct m; simpl; intros H; try discriminate. eauto. Qed.

Lemma for_each_inv {S E} (P : S -> Prop) (body : S -> E -> outcome S) :
  (∀ s e s', P s -> body s e = Return s' -> P s') ->
  ∀ l s s', P s -> for_each body s l = Return s' -> P s'.
Proof.
  intros Hbody. induction l as [|e l IH]; intros s s' Hs Hl; simpl in Hl.
  - by injection Hl as <-.
  - apply bind_Return in Hl as (s1 & H1 & H2). eauto.
Qed.

Lemma queue_at_live X C h q :
  queue_at X C = Return (h, q) -> is_Some (heap X !! h).
Proof.
  unfold queue_at. intros (h' & Hh & H)%bind_Return.
  apply bind_Return in H as (q' & Hq & H). injection H as -> ->.
  unfold read in Hq. destruct (heap X !! h); [eauto|discriminate].
Qed.

Section EngineRuns.
Variable node_mv : node -> Z.
Variable list_of_set : list (entry edge) -> list (entry edge).
Variable coords : node -> point.
Variable neighbours : point -> list node.
Variable hav_dist : point -> point -> outcome Z.
Variable iter_set : list node -> list node.

(** The union-find [X] occurs in a run with index [rt] and accepted edges
    [E]. *)
Definition reached (rt : Rtree) (E : list edge) (X : UnionFind) : Prop :=
  ∃ U, reachable node_mv list_of_set coords U (mkState X rt E).

Lemma reached_find rt E X x r X' :
  reached rt E X -> getitem node_mv X x = Return (r, X') -> reached rt E X'.
Proof.
  intros [U HU] Hg. exists U.
  by apply (reach_find _ _ _ U (mkState X rt E) x r X').
Qed.

Lemma reached_queue rt E X h q :
  reached rt E X -> is_Some (heap X !! h) ->
  reached rt E (set_heap (insert h q) X).
Proof.
  intros [U HU] Hh. exists U.
  by apply (reach_queue _ _ _ U (mkState X rt E) h q).
Qed.

Lemma reached_commit st c st' :
  reached (rtree st) (Et st) (subgraphs st) ->
  commit node_mv list_of_set coords st c = Return st' ->
  reached (rtree st') (Et st') (subgraphs st').
Proof.
  destruct st as [X rt E], c as [[um vm] dm]. simpl. intros [U HU] Hc.
  destruct (commit_cases node_mv list_of_set coords (mkState X rt E) um vm dm)
    as (ru & X1 & rv & X2 & mu & mvm & Hg1 & Hg2 & _ & _ & _ & _ & _
        & Hmu & Hmvm & _).
  { apply (inv_wf _ _ (reachable_inv _ _ _ _ _ HU)). }
  pose proof (unites_cases node_mv (mkState X rt E) um vm dm _ _ _ _ _ _
                Hg1 Hg2 Hmu Hmvm) as Hiff.
  destruct st' as [X' rt' E'].
  destruct (decide (ru ≠ rv ∧ dm <= mu ∧ dm <= mvm)) as [Hyes|Hno].
  - exists (U ++ [(um, vm)]). eapply reach_union; eauto. by apply Hiff.
  - exists U. eapply reach_skip; eauto. by rewrite Hiff.
Qed.

Lemma reached_commit_loop fuel : ∀ Ep st st',
  reached (rtree st) (Et st) (subgraphs st) ->
  commit_loop node_mv list_of_set coords fuel Ep st = Return st' ->
  reached (rtree st') (Et st') (subgraphs st').
Proof.
  induction fuel as [|fuel IH]; intros Ep st st' Hst Hl; simpl in Hl.
  - by injection Hl as <-.
  - destruct (pop Ep) as [[c Ep']|]; [|by injection Hl as <-].
    apply bind_Return in Hl as (st1 & Hc & Hl).
    eauto using reached_commit.
Qed.

Lemma reached_init_node fuel V X kc v X' kc' :
  reached [] [] X ->
  init_node node_mv coords neighbours fuel V (X, kc) v = Return (X', kc') ->
  reached [] [] X'.
Proof.
  intros HX Hi. unfold init_node in Hi.
  apply bind_Return in Hi as ([vm kc1] & _ & Hi).
  apply bind_Return in Hi as ([root X1] & Hg & Hi).
  apply bind_Return in Hi as ([h q] & Hq & Hi).
  injection Hi as <- <-.
  eauto using reached_queue, reached_find, queue_at_live.
Qed.

Lemma init_reached fuel V k_cache X k_cache' :
  for_each (init_node node_mv coords neighbours fuel V)
    (empty_UnionFind, k_cache) V = Return (X, k_cache') ->
  reached [] [] X.
Proof.
  intros Hi.
  eapply (for_each_inv
           (fun acc : UnionFind * gmap point nat => reached [] [] acc.1))
    in Hi; [exact Hi| |].
  - intros [Y k] v [Y' k'] HY Hb. simpl in *.
    eauto using reached_init_node.
  - exists []. apply reach_start.
Qed.

Lemma reached_components rt E X keys comps X' :
  reached rt E X ->
  connected_components node_mv iter_set X keys = Return (comps, X') ->
  reached rt E X'.
Proof.
  intros HX Hc. unfold connected_components in Hc.
  apply bind_Return in Hc as ([roots X1] & Hf & Hc). injection Hc as <- <-.
  eapply (for_each_inv (fun acc : list node * UnionFind => reached rt E acc.2))
    in Hf; [exact Hf| |exact HX].
  intros [l Y] r [l' Y'] HY Hb. simpl in *.
  apply bind_Return in Hb as ([root Y1] & Hg & Hb). injection Hb as <- <-.
  eauto using reached_find.
Qed.

Lemma reached_refresh fuel gas : ∀ C members djointVC X kc v vm X' kc' e rt E,
  reached rt E X ->
  refresh_top coords neighbours fuel gas C members djointVC X kc v vm
    = Return (X', kc', e) ->
  reached rt E X'.
Proof.
  induction gas as [|gas IH];
    intros C members djointVC X kc v vm X' kc' e rt E HX Hr; simpl in Hr.
  - case_decide; [discriminate|]. by injection Hr as <- <- <-.
  - case_decide; [|by injection Hr as <- <- <-].
    apply bind_Return in Hr as ([h q] & Hq & Hr).
    destruct (pop q) as [[? q1]|]; [|discriminate].
    apply bind_Return in Hr as ([um kc1] & _ & Hr).
    apply bind_Return in Hr as ([h2 q2] & Hq2 & Hr).
    destruct (top _) as [[v1 vm1]|]; [|discriminate].
    eapply IH; [|exact Hr].
    eauto using reached_queue, queue_at_live.
Qed.

Lemma reached_gather fuel V X kc Ep C X' kc' Ep' rt E :
  reached rt E X ->
  gather node_mv coords neighbours hav_dist fuel V (X, kc, Ep) C
    = Return (X', kc', Ep') ->
  reached rt E X'.
Proof.
  intros HX Hg. unfold gather in Hg.
  apply bind_Return in Hg as ([h q] & Hq & Hg).
  destruct (top q) as [[v vm]|]; [|by injection Hg as <- <- <-].
  apply bind_Return in Hg as ([members X1] & Hc & Hg).
  apply bind_Return in Hg as ([[X2 kc2] [v2 vm2]] & Hr & Hg).
  apply bind_Return in Hg as (dm & _ & Hg). injection Hg as <- <- <-.
  eapply reached_refresh; [|exact Hr].
  unfold component_set in Hc.
  apply bind_Return in Hc as ([root Y] & Hgi & Hc).
  apply bind_Return in Hc as (ch & _ & Hc). injection Hc as <- <-.
  eauto using reached_find.
Qed.

Lemma reached_rounds fuel gas : ∀ V kc st st',
  reached (rtree st) (Et st) (subgraphs st) ->
  rounds node_mv list_of_set coords neighbours hav_dist iter_set
    fuel gas V kc st = Return st' ->
  reached (rtree st') (Et st') (subgraphs st').
Proof.
  induction gas as [|gas IH]; intros V kc st st' Hst Hr; simpl in Hr.
  - case_decide; [discriminate|]. by injection Hr as <-.
  - case_decide; [|by injection Hr as <-].
    apply bind_Return in Hr as ([comps X1] & Hc & Hr).
    apply bind_Return in Hr as ([[X2 kc2] Ep] & Hf & Hr).
    apply bind_Return in Hr as (st1 & Hp & Hr).
    assert (reached (rtree st) (Et st) X2) as HX2.
    { eapply (for_each_inv
               (fun acc : UnionFind * gmap point nat * PriorityQueue candidate =>
                  reached (rtree st) (Et st) acc.1.1)) in Hf; [exact Hf| |].
      - intros [[Y k] Q] C [[Y' k'] Q'] HY Hb. simpl in *.
        eauto using reached_gather.
      - simpl. eauto using reached_components. }
    assert (reached (rtree st1) (Et st1) (subgraphs st1)) as Hst1.
    { unfold P2 in Hp. eapply reached_commit_loop; [|exact Hp]. done. }
    case_decide; [by injection Hr as <-|]. eauto.
Qed.

(** The edges returned by [modBoruvka] are the accepted edges of a
    reachable state. *)
Lemma modBoruvka_reachable fuel V kc E :
  modBoruvka node_mv list_of_set coords neighbours hav_dist iter_set
    fuel V kc = Return E ->
  ∃ U st, reachable node_mv list_of_set coords U st ∧ Et st = E.
Proof.
  unfold modBoruvka. destruct V as [|v0 V0]; [discriminate|].
  set (V := v0 :: V0). intros ([X kc1] & Hi & Hm)%bind_Return.
  apply bind_Return in Hm as (st & Hr & Hm). injection Hm as <-.
  assert (reached [] [] X) as HX.
  { eapply (for_each_inv
             (fun acc : UnionFind * gmap point nat => reached [] [] acc.1))
      in Hi; [exact Hi| |].
    - intros [Y k] v [Y' k'] HY Hb. simpl in *.
      eauto using reached_init_node.
    - exists []. apply reach_start. }
  apply reached_rounds in Hr; [|done].
  destruct Hr as [U HU]. exists U, st. by destruct st.
Qed.

End EngineRuns.

(** * The states of a run

    [modBoruvka] followed round by round and, inside the commit loop of a
    round, candidate by candidate. *)

Section Runs.
Variable node_mv : node -> Z.
Variable list_of_set : list (entry edge) -> list (entry edge).
Variable coords : node -> point.
Variable neighbours : point -> list node.
Variable hav_dist : point -> point -> outcome Z.
Variable iter_set : list node -> list node.
Variable fuel : nat.
Variable V : list node.
Variable k_cache : gmap point nat.

(** The first [n] iterations of [while Ep._queue]: the state they leave
    and what is left of [Ep]. *)
Fixpoint commit_steps (n : nat) (Ep : PriorityQueue candidate) (st : state)
    : outcome (state * PriorityQueue candidate) :=
  match n with
  | O => Return (st, Ep)
  | S n' =>
      match pop Ep with
      | None => Return (st, Ep)
      | Some (c, Ep') =>
          st' ← commit node_mv list_of_set coords st c;
          commit_steps n' Ep' st'
      end
  end.

(** [round_start kc st]: the call [modBoruvka(T)] reaches the test of
    [while len(Et) < len(V) - 1] in state [st] with cache [kc]: after the
    initialisation loop, and after every round that changed [Et]. *)
Inductive round_start : gmap point nat -> state -> Prop :=
  | first_round X kc :
      V ≠ [] ->
      for_each (init_node node_mv coords neighbours fuel V)
        (empty_UnionFind, k_cache) V = Return (X, kc) ->
      round_start kc (mkState X [] [])
  | next_round kc st comps X1 X2 kc' Ep st' :
      round_start kc st ->
      Z.of_nat (length (Et st)) < Z.of_nat (length V) - 1 ->
      connected_components node_mv iter_set (subgraphs st) V
        = Return (comps, X1) ->
      for_each (gather node_mv coords neighbours hav_dist fuel V)
        (X1, kc, pq_new) comps = Return (X2, kc', Ep) ->
      P2 node_mv list_of_set coords Ep (mkState X2 (rtree st) (Et st))
        = Return st' ->
      Et st' ≠ Et st ->
      round_start kc' st'.

(** [in_commit_loop st Ep]: in some round of the call the test of
    [while Ep._queue] is reached in state [st] with [Ep] left. *)
Definition in_commit_loop (st : state) (Ep : PriorityQueue candidate)
    : Prop :=
  ∃ kc st0 comps X1 X2 kc' Ep0 n,
    round_start kc st0
    ∧ Z.of_nat (length (Et st0)) < Z.of_nat (length V) - 1
    ∧ connected_components node_mv iter_set (subgraphs st0) V
      = Return (comps, X1)
    ∧ for_each (gather node_mv coords neighbours hav_dist fuel V)
        (X1, kc, pq_new) comps = Return (X2, kc', Ep0)
    ∧ commit_steps n Ep0 (mkState X2 (rtree st0) (Et st0)) = Return (st, Ep).

(** The first round up to the end of its [n]-th commit. *)
Definition first_round_prefix (n : nat)
    : outcome (state * PriorityQueue candidate) :=
  '(X, kc) ← for_each (init_node node_mv coords neighbours fuel V)
               (empty_UnionFind, k_cache) V;
  '(comps, X1) ← connected_components node_mv iter_set X V;
  '(X2, kc', Ep) ← for_each (gather node_mv coords neighbours hav_dist fuel V)
                     (X1, kc, pq_new) comps;
  commit_steps n Ep (mkState X2 [] []).

Lemma first_round_in_commit_loop n st Ep :
  (2 <= length V)%nat ->
  first_round_prefix n = Return (st, Ep) -> in_commit_loop st Ep.
Proof.
  intros HV Hp. unfold first_round_prefix in Hp.
  apply bind_Return in Hp as ([X kc] & Hi & Hp).
  apply bind_Return in Hp as ([comps X1] & Hc & Hp).
  apply bind_Return in Hp as ([[X2 kc'] Ep0] & Hg & Hp).
  exists kc, (mkState X [] []), comps, X1, X2, kc', Ep0, n.
  split_and!; try done.
  - apply first_round; [|done]. intros ->. simpl in HV. lia.
  - simpl. lia.
Qed.

Lemma commit_steps_reached n : ∀ Ep st st' Ep',
  reached node_mv list_of_set coords (rtree st) (Et st) (subgraphs st) ->
  commit_steps n Ep st = Return (st', Ep') ->
  reached node_mv list_of_set coords (rtree st') (Et st') (subgraphs st').
Proof.
  induction n as [|n IH]; intros Ep st st' Ep' Hst Hl; simpl in Hl.
  - by injection Hl as <- <-.
  - destruct (pop Ep) as [[c Ep1]|]; [|by injection Hl as <- <-].
    apply bind_Return in Hl as (st1 & Hc & Hl).
    eauto using reached_commit.
Qed.

Lemma gather_loop_reached comps : ∀ X kc Ep X' kc' Ep' rt E,
  reached node_mv list_of_set coords rt E X ->
  for_each (gather node_mv coords neighbours hav_dist fuel V)
    (X, kc, Ep) comps = Return (X', kc', Ep') ->
  reached node_mv list_of_set coords rt E X'.
Proof.
  intros X kc Ep X' kc' Ep' rt E HX Hf.
  eapply (for_each_inv
            (fun acc : UnionFind * gmap point nat * PriorityQueue candidate =>
               reached node_mv list_of_set coords rt E acc.1.1)) in Hf;
    [exact Hf| |exact HX].
  intros [[Y k] Q] C [[Y' k'] Q'] HY Hb. simpl in *.
  eauto using reached_gather.
Qed.

Lemma round_start_reached kc st :
  round_start kc st ->
  reached node_mv list_of_set coords (rtree st) (Et st) (subgraphs st).
Proof.
  induction 1 as [X kc _ Hi|kc st comps X1 X2 kc' Ep st' _ IH _ Hc Hg Hp _].
  - simpl. eauto using init_reached.
  - unfold P2 in Hp. eapply reached_commit_loop; [|exact Hp]. simpl.
    eapply gather_loop_reached; [|exact Hg].
    eauto using reached_components.
Qed.

(** Every state of the commit loop of a call is a state of a run in the
    sense of [reachable]. *)
Lemma in_commit_loop_reachable st Ep :
  in_commit_loop st Ep -> ∃ U, reachable node_mv list_of_set coords U st.
Proof.
  intros (kc & st0 & comps & X1 & X2 & kc' & Ep0 & n & Hr & _ & Hc & Hg & Hs).
  apply commit_steps_reached in Hs.
  - destruct Hs as [U HU]. exists U. by destruct st.
  - simpl. eapply gather_loop_reached; [|exact Hg].
    eapply reached_components; [|exact Hc].
    exact (round_start_reached _ _ Hr).
Qed.

End Runs.

(** ** What a run does not owe to the order of [list(set(...))]

    [merge] is the only place where the order in which CPython lists a
    set enters; it decides how the entries of a merged queue are laid
    out.  Two structures have the same skeleton when they agree on
    everything but the content of the queue objects. *)

Definition same_skeleton (X Y : UnionFind) : Prop :=
  weights X = weights Y ∧ mv X = mv Y ∧ parents X = parents Y
  ∧ children X = children Y ∧ queues X = queues Y
  ∧ ∀ h, is_Some (heap X !! h) ↔ is_Some (heap Y !! h).

Definition same_state (st1 st2 : state) : Prop :=
  same_skeleton (subgraphs st1) (subgraphs st2)
  ∧ rtree st1 = rtree st2 ∧ Et st1 = Et st2.

Lemma same_skeleton_refl X : same_skeleton X X.
Proof. by split_and!. Qed.

Lemma same_skeleton_trans X Y Z :
  same_skeleton X Y -> same_skeleton Y Z -> same_skeleton X Z.
Proof.
  intros (Ha1 & Hb1 & Hc1 & Hd1 & He1 & Hf1) (Ha2 & Hb2 & Hc2 & Hd2 & He2 & Hf2).
  split_and!; try congruence. intros h. by rewrite Hf1.
Qed.

Lemma same_skeleton_sym X Y : same_skeleton X Y -> same_skeleton Y X.
Proof.
  intros (Ha & Hb & Hc & Hd & He & Hf). split_and!; try done.
Qed.

Lemma try_pop_skeleton X um : same_skeleton (try_pop X um) X.
Proof.
  unfold try_pop. repeat case_match; try apply same_skeleton_refl.
  split_and!; try done. intros h'. simpl.
  rewrite lookup_insert_is_Some. split.
  - intros [<-|[_ ?]]; eauto.
  - intros Hs.
    match goal with |- ?a = _ ∨ _ => destruct (decide (a = h')) end; eauto.
Qed.

Section Skeleton.
Variable node_mv : node -> Z.
Variable coords : node -> point.
Variables los1 los2 : list (entry edge) -> list (entry edge).

Lemma getitem_skeleton X Y x r X' :
  same_skeleton X Y -> getitem node_mv X x = Return (r, X') ->
  ∃ Y', getitem node_mv Y x = Return (r, Y') ∧ same_skeleton X' Y'.
Proof.
  intros (Hw & Hm & Hp & Hc & Hq & Hh). unfold getitem. rewrite <-Hp.
  destruct (parents X !! x) as [first|].
  - intros ([path root] & Hcl & H)%bind_Return. rewrite Hcl. simpl.
    injection H as <- <-. eexists. split; [done|].
    unfold set_parents. simpl. rewrite <-Hp. by split_and!.
  - intros [= <- <-]. eexists. split; [done|].
    rewrite <-Hw, <-Hm, <-Hc, <-Hq. split_and!; try done. simpl.
    intros h. rewrite !lookup_insert_is_Some, Hh. done.
Qed.

Lemma read_skeleton {A} (d1 d2 : gmap node A) k v :
  (∀ h, is_Some (d1 !! h) ↔ is_Some (d2 !! h)) ->
  read d1 k = Return v -> ∃ v', read d2 k = Return v'.
Proof.
  intros Hh. unfold read. destruct (d1 !! k) eqn:Hk; [|discriminate].
  intros _. destruct (proj1 (Hh k)) as [v' ->]; eauto.
Qed.

Lemma union_skeleton X Y g1 g2 d X' :
  same_skeleton X Y -> union node_mv los1 X g1 g2 d = Return X' ->
  ∃ Y', union node_mv los2 Y g1 g2 d = Return Y' ∧ same_skeleton X' Y'.
Proof.
  intros HS Hu. unfold union in *.
  apply bind_Return in Hu as ([r1 X1] & Hg1 & Hu).
  destruct (getitem_skeleton _ _ _ _ _ HS Hg1) as (Y1 & -> & HS1).
  cbn [mbind outcome_bind obind].
  apply bind_Return in Hu as ([r2 X2] & Hg2 & Hu).
  destruct (getitem_skeleton _ _ _ _ _ HS1 Hg2) as (Y2 & -> & HS2).
  cbn [mbind outcome_bind obind]. destruct HS2 as (Hw & Hm & Hp & Hc & Hq & Hh).
  rewrite <-Hw, <-Hm, <-Hp, <-Hc, <-Hq.
  apply bind_Return in Hu as (w1 & -> & Hu).
  apply bind_Return in Hu as (w2 & -> & Hu). simpl.
  destruct (filter _ _) as [|r ?]; [discriminate|].
  apply bind_Return in Hu as (wh & -> & Hu).
  apply bind_Return in Hu as (wr & -> & Hu).
  apply bind_Return in Hu as (m1 & -> & Hu).
  apply bind_Return in Hu as (m2 & -> & Hu).
  apply bind_Return in Hu as (ch & -> & Hu).
  apply bind_Return in Hu as (cr & -> & Hu).
  apply bind_Return in Hu as (hh & -> & Hu).
  apply bind_Return in Hu as (hr & -> & Hu).
  apply bind_Return in Hu as (qh & Hqh & Hu).
  apply bind_Return in Hu as (qr & Hqr & Hu). simpl.
  destruct (read_skeleton _ _ _ _ Hh Hqh) as [qh2 ->].
  destruct (read_skeleton _ _ _ _ Hh Hqr) as [qr2 ->]. simpl.
  destruct (merge los1 qh qr), (merge los2 qh2 qr2).
  injection Hu as <-. eexists. split; [done|].
  split_and!; try done. simpl.
  intros h. rewrite !lookup_insert_is_Some, Hh. done.
Qed.

Lemma commit_skeleton st1 st2 c st1' :
  same_state st1 st2 ->
  commit node_mv los1 coords st1 c = Return st1' ->
  ∃ st2', commit node_mv los2 coords st2 c = Return st2'
          ∧ same_state st1' st2'.
Proof.
  destruct c as [[um vm] dm]. intros (HS & Hrt & HEt) Hc. unfold commit in *.
  rewrite <-Hrt, <-HEt.
  apply bind_Return in Hc as ([ru X1] & Hg1 & Hc).
  destruct (getitem_skeleton _ _ _ _ _ HS Hg1) as (Y1 & -> & HS1).
  cbn [mbind outcome_bind obind].
  apply bind_Return in Hc as ([rv X2] & Hg2 & Hc).
  destruct (getitem_skeleton _ _ _ _ _ HS1 Hg2) as (Y2 & -> & HS2).
  cbn [mbind outcome_bind obind].
  assert (mv X2 = mv Y2) as <- by apply HS2.
  apply bind_Return in Hc as (mu & -> & Hc). simpl.
  case_decide.
  - apply bind_Return in Hc as (mvm & -> & Hc). simpl.
    case_decide.
    + apply bind_Return in Hc as (X3 & Hu & Hc).
      destruct (union_skeleton _ _ _ _ _ _ HS2 Hu) as (Y3 & -> & HS3).
      simpl. destruct (line_intersection _ _ _ _);
        injection Hc as <-; eexists; (split; [done|]); by split_and!.
    + injection Hc as <-. eexists. split; [done|]. by split_and!.
  - injection Hc as <-. eexists. split; [done|]. split_and!; try done.
    simpl. eapply same_skeleton_trans; [apply try_pop_skeleton|].
    eapply same_skeleton_trans; [exact HS2|].
    apply same_skeleton_sym, try_pop_skeleton.
Qed.

Lemma commit_steps_skeleton n : ∀ Ep st1 st2 st1' Ep',
  same_state st1 st2 ->
  commit_steps node_mv los1 coords n Ep st1 = Return (st1', Ep') ->
  ∃ st2', commit_steps node_mv los2 coords n Ep st2 = Return (st2', Ep')
          ∧ same_state st1' st2'.
Proof.
  induction n as [|n IH]; intros Ep st1 st2 st1' Ep' HS Hl; simpl in *.
  - injection Hl as <- <-. eauto.
  - destruct (pop Ep) as [[c Ep1]|]; [|injection Hl as <- <-; eauto].
    apply bind_Return in Hl as (st & Hc & Hl).
    destruct (commit_skeleton _ _ _ _ HS Hc) as (st2' & -> & HS'). simpl.
    eauto.
Qed.

Lemma first_round_prefix_skeleton neighbours hav_dist iter_set fuel V kc n
    st1 Ep :
  first_round_prefix node_mv los1 coords neighbours hav_dist iter_set
    fuel V kc n = Return (st1, Ep) ->
  ∃ st2,
    first_round_prefix node_mv los2 coords neighbours hav_dist iter_set
      fuel V kc n = Return (st2, Ep)
    ∧ same_state st1 st2.
Proof.
  unfold first_round_prefix. intros Hp.
  apply bind_Return in Hp as ([X kc1] & -> & Hp).
  cbn [mbind outcome_bind obind].
  apply bind_Return in Hp as ([comps X1] & -> & Hp).
  cbn [mbind outcome_bind obind].
  apply bind_Return in Hp as ([[X2 kc'] Ep0] & -> & Hp).
  cbn [mbind outcome_bind obind].
  eapply commit_steps_skeleton; [|exact Hp].
  split_and!; try done.
Qed.

End Skeleton.

(** * Worked inputs

    Small concrete runs used below to exercise the statements. *)

Definition start : state := mkState empty_UnionFind [] [].

(** The state after one iteration of the commit loop on candidate [c]. *)
Definition after (node_mv : node -> Z)
    (list_of_set : list (entry edge) -> list (entry edge))
    (coords : node -> point) (c : candidate) (st : state) : state :=
  match commit node_mv list_of_set coords st c with
  | Return st' => st'
  | _ => st
  end.

Definition ample_mv : node -> Z := fun _ => 100.

(** One order in which [list(set(...))] may list the entries: the order
    of the list itself.  It is the only order on lists of at most one
    entry. *)
Definition keep_order : list (entry edge) -> list (entry edge) := fun l => l.

(** Four nodes at the ends of a plus sign: segment 0-1 is horizontal,
    segment 2-3 is vertical and crosses it in the middle. *)
Definition plus_coords : node -> point := fun n =>
  match n with
  | O => (-5, 0)
  | 1%nat => (5, 0)
  | 2%nat => (0, -5)
  | _ => (0, 5)
  end.

(** The body of the commit loop applied, from the empty structure, to
    candidate 0-1 and then to candidate 2-3, both of length 10. *)
Definition plus_state : state :=
  after ample_mv keep_order plus_coords (2%nat, 3%nat, 10)
    (after ample_mv keep_order plus_coords (0%nat, 1%nat, 10) start).

Ltac by_unites :=
  do 6 eexists; split_and!;
    [vm_compute; reflexivity | vm_compute; reflexivity | discriminate
    | vm_compute; reflexivity | lia | vm_compute; reflexivity | lia].

Lemma plus_state_reachable :
  reachable ample_mv keep_order plus_coords [(0, 1); (2, 3)]%nat plus_state.
Proof.
  eapply (reach_union _ _ _ [(0, 1)]%nat _ 2%nat 3%nat 10).
  - eapply (reach_union _ _ _ [] _ 0%nat 1%nat 10).
    + apply reach_start.
    + by_unites.
    + vm_compute. reflexivity.
  - by_unites.
  - vm_compute. reflexivity.
Qed.

(** Four nodes near the pole, on both sides of the antimeridian, as
    (longitude, latitude) in degrees: nodes 0 and 1 lie on the meridian of
    1 degree at latitudes 79 and 81, nodes 2 and 3 on the parallel of 80
    degrees at longitudes -170 and 170.  On the sphere nodes 2 and 3 are
    20 degrees of longitude apart; in the plane of the coordinates the
    segment 2-3 runs through longitude 0 and crosses the segment 0-1. *)
Definition polar_coords : node -> point := fun n =>
  match n with
  | O => (1, 79)
  | 1%nat => (1, 81)
  | 2%nat => (-170, 80)
  | _ => (170, 80)
  end.

(** The four nodes by ascending distance of their projections from each
    of the four points; no two distances from a point are equal. *)
Definition polar_neighbours : point -> list node := fun b =>
  if decide (b = (1, 79)) then [0; 1; 3; 2]%nat
  else if decide (b = (1, 81)) then [1; 0; 3; 2]%nat
  else if decide (b = (-170, 80)) then [2; 3; 1; 0]%nat
  else [3; 2; 1; 0]%nat.

(** The haversine lengths between the four nodes in metres, rounded
    down; a pair of nodes is told by the sums of its coordinates. *)
Definition polar_hav : point -> point -> outcome Z := fun a b =>
  let key := (a.1 + b.1, a.2 + b.2) in
  Return (if decide (key = (2, 160)) then 222390
          else if decide (key = (0, 160)) then 384277
          else if decide (key = (-169, 159)) then 2327834
          else if decide (key = (171, 159)) then 2324250
          else if decide (key = (-169, 161)) then 2106152
          else if decide (key = (171, 161)) then 2102918
          else 0).

Definition polar_mv : node -> Z := fun _ => 10000000.

(** The first round of [modBoruvka] on the four nodes gathers the
    candidates 0-1, 1-0, 2-3 and 3-2, in this order of length;
    [polar_state] is the state after the third of them has gone through
    the body of the commit loop, [polar_rest] what is left of [Ep]. *)
Definition polar_round : state * PriorityQueue candidate :=
  match first_round_prefix polar_mv keep_order polar_coords polar_neighbours
          polar_hav remove_dups 5 [0; 1; 2; 3]%nat ∅ 3 with
  | Return r => r
  | _ => (start, pq_new)
  end.

Definition polar_state : state := polar_round.1.

Definition polar_rest : PriorityQueue candidate := polar_round.2.

Lemma polar_prefix :
  first_round_prefix polar_mv keep_order polar_coords polar_neighbours
    polar_hav remove_dups 5 [0; 1; 2; 3]%nat ∅ 3
  = Return (polar_state, polar_rest).
Proof. vm_compute. reflexivity. Qed.

Lemma polar_state_in_commit_loop :
  in_commit_loop polar_mv keep_order polar_coords polar_neighbours polar_hav
    remove_dups 5 [0; 1; 2; 3]%nat ∅ polar_state polar_rest.
Proof.
  apply (first_round_in_commit_loop _ _ _ _ _ _ _ _ _ 3);
    [simpl; lia|apply polar_prefix].
Qed.

(** No path of the single edge 0-1 joins 2 and 3. *)
Lemma edge_01_does_not_join_23 : ¬ connected [(0, 1)]%nat 2%nat 3%nat.
Proof.
  intros Hc.
  apply (connected_same_root
           (parents (subgraphs
              (after ample_mv keep_order plus_coords (0%nat, 1%nat, 10) start))))
    in Hc as [Heq|(r & H2 & _)].
  - discriminate.
  - apply root_of_registered in H2. vm_compute in H2. by destruct H2.
  - intros a b [= -> ->]%list_elem_of_singleton. exists 1%nat. split.
    + eapply root_step; [vm_compute; reflexivity|discriminate|].
      apply root_self. vm_compute. reflexivity.
    + apply root_self. vm_compute. reflexivity.
Qed.

(** * Claims *)

(** ** C1: invariant B1 *)

(** Invariant B1 as the specification states it: at every point of the
    commit loop of a call [modBoruvka(T)], after any number of commits,
    two nodes of [T] have the same root exactly when a path of accepted
    edges joins them. *)
Definition invariant_B1 (node_mv : node -> Z)
    (list_of_set : list (entry edge) -> list (entry edge))
    (coords : node -> point) (neighbours : point -> list node)
    (hav_dist : point -> point -> outcome Z)
    (iter_set : list node -> list node) : Prop :=
  ∀ fuel V k_cache st Ep u v,
    in_commit_loop node_mv list_of_set coords neighbours hav_dist iter_set
      fuel V k_cache st Ep ->
    u ∈ V -> v ∈ V ->
    (same_root (parents (subgraphs st)) u v ↔ connected (Et st) u v).




(** ** C3: the accepted edges form a forest *)

(** Three nodes on a line, one unit apart, with their neighbour lists and
    the length of a segment between two of them. *)
Definition line_coords : node -> point := fun n => (Z.of_nat n, 0).

Definition line_neighbours : point -> list node := fun b =>
  if b.1 =? 0 then [0; 1; 2]%nat
  else if b.1 =? 1 then [1; 0; 2]%nat
  else [2; 1; 0]%nat.

Definition line_hav : point -> point -> outcome Z :=
  fun a b => Return (Z.abs (a.1 - b.1)).

(** C3: the edge list returned by [modBoruvka] is a forest, and an
    iteration of the commit loop in a run appends nothing or appends its
    candidate, whose end points then had different roots and were joined
    by no path of accepted edges. *)
Theorem accepted_edges_form_a_forest :
  (∀ node_mv list_of_set coords neighbours hav_dist iter_set fuel V k_cache E,
     modBoruvka node_mv list_of_set coords neighbours hav_dist iter_set
       fuel V k_cache = Return E ->
     acyclic E)
  ∧ (∀ node_mv list_of_set coords U st um vm dm st',
       reachable node_mv list_of_set coords U st ->
       commit node_mv list_of_set coords st (um, vm, dm) = Return st' ->
       Et st' = Et st
       ∨ (Et st' = Et st ++ [(um, vm)]
          ∧ ¬ same_root (parents (subgraphs st)) um vm
          ∧ ¬ connected (Et st) um vm)).
Proof.
  split.
  - intros * (U & st & Hr & <-)%modBoruvka_reachable.
    apply (inv_forest _ _ (reachable_inv _ _ _ _ _ Hr)).
  - intros * [Hwf Hsub Hed _ _]%reachable_inv Hc.
    destruct (commit_cases node_mv list_of_set coords st um vm dm Hwf)
      as (ru & X1 & rv & X2 & mu & mvm & _ & _ & _ & Hru & Hrv & Hk & _ & _ & _
          & [(Hne & _ & _ & X3 & r & h & _ & _ & _ & _ & _ & Hc')
            |[(_ & _ & _ & Hc')|(_ & Hc')]]);
      rewrite Hc in Hc'; injection Hc' as ->; [|by left..].
    destruct (line_intersection coords (rtree st) um vm); [by left|].
    right. simpl. split; [done|].
    assert (¬ same_root (parents (subgraphs st)) um vm) as Hns.
    { intros (r0 & Hu & Hv). apply Hne.
      transitivity r0; [|symmetry]; eapply root_of_det; eauto. }
    split; [done|]. intros Hcn.
    apply (connected_mono _ U) in Hcn; [|done].
    apply (connected_same_root _ _ _ _ Hed) in Hcn as [->|Hcn]; [|done].
    apply Hne. eauto using root_of_det.
Qed.

Lemma accepted_edges_form_a_forest_witness :
  acyclic [(0, 1); (2, 1)]%nat
  ∧ (Et (after ample_mv keep_order line_coords (0%nat, 1%nat, 1) start)
     = Et start
     ∨ (Et (after ample_mv keep_order line_coords (0%nat, 1%nat, 1) start)
        = Et start ++ [(0, 1)]%nat
        ∧ ¬ same_root (parents (subgraphs start)) 0%nat 1%nat
        ∧ ¬ connected (Et start) 0%nat 1%nat)).
Proof.
  split.
  - apply (proj1 accepted_edges_form_a_forest ample_mv keep_order line_coords
             line_neighbours line_hav remove_dups 10%nat [0; 1; 2]%nat ∅).
    vm_compute. reflexivity.
  - apply (proj2 accepted_edges_form_a_forest ample_mv keep_order line_coords
             [] start 0%nat 1%nat 1).
    + apply reach_start.
    + vm_compute. reflexivity.
Defined.

(** ** C2: solvency at commit and the budget of the merged component *)

(** The budget recorded at the root of the component of [x]. *)
Definition root_budget (node_mv : node -> Z) (X : UnionFind) (x : node)
    : option Z :=
  match getitem node_mv X x with
  | Return (r, X') => mv X' !! r
  | _ => None
  end.

(** Nodes 0, 1, 2 and 3 with budgets 10, 10, 100 and 10. *)
Definition ledger_mv : node -> Z := fun n =>
  match n with
  | 2%nat => 100
  | _ => 10
  end.

(** C2, the code at the failing input: on a fresh structure over the four
    nodes, [union(0, 1, 1)], [union(2, 1, 2)] and [union(3, 0, 4)] all
    return.  Before the third call the root budgets of its two end points
    are 10 and 117, and both cover the length 4; the call computes the new
    budget from the entries [mv[3]] and [mv[0]], and [mv[0]] is still the
    19 written by the first call.  The merged root gets 10 + 19 - 4 = 25,
    not 10 + 117 - 4 = 123.  The order of [list(set(...))] plays no part:
    all queues are empty. *)
Theorem union_reads_stale_budgets
    (list_of_set : list (entry edge) -> list (entry edge)) :
  ∃ X1 X2 X3,
    union ledger_mv list_of_set empty_UnionFind 0%nat 1%nat 1 = Return X1
    ∧ union ledger_mv list_of_set X1 2%nat 1%nat 2 = Return X2
    ∧ union ledger_mv list_of_set X2 3%nat 0%nat 4 = Return X3
    ∧ root_budget ledger_mv X2 3%nat = Some 10
    ∧ root_budget ledger_mv X2 0%nat = Some 117
    ∧ mv X2 !! 0%nat = Some 19
    ∧ root_budget ledger_mv X3 3%nat = Some 25
    ∧ root_budget ledger_mv X3 0%nat = Some 25.
Proof.
  eexists _, _, _.
  split; [vm_compute; reflexivity|].
  split; [vm_compute; reflexivity|].
  split; [vm_compute; reflexivity|].
  split_and!; vm_compute; reflexivity.
Qed.

(** ** C6: hav_dist *)

Section HaversineFacts.
Import Stdlib.Reals.Reals.
#[local] Open Scope R_scope.

(** With [pi] bound to the circle constant, the function under the
    decorator computes the haversine distance. *)
Lemma body_is_haversine lon1 lat1 lon2 lat2 :
  Haversine.get_hav_distance_body PI lat1 lon1 lat2 lon2
  = Haversine.haversine lon1 lat1 lon2 lat2.
Proof.
  unfold Haversine.get_hav_distance_body, Haversine.haversine.
  rewrite (Rmult_comm (cos (lat2 * _))). ring.
Qed.

End HaversineFacts.

(** C6, the code at every input: [memoize] returns nothing, so the name
    [get_hav_distance] is bound to [None] and the call in [hav_dist]
    raises [TypeError] instead of returning a distance. *)
Theorem hav_dist_raises pi point1 point2 :
  Haversine.hav_dist pi point1 point2 = Raise TypeError.
Proof. destruct point1, point2. reflexivity. Qed.

(** ** C8: collinear segments *)

Definition within (a b x : Z) : bool :=
  (Z.min a b <=? x) && (x <=? Z.max a b).

(** [x] lies in the closed bounding interval of [p] and [q] on both axes. *)
Definition in_span (p q x : point) : bool :=
  within p.1 q.1 x.1 && within p.2 q.2 x.2.

(** Overlap of two collinear segments as the specification restates it:
    an end point of one lies within the span of the other. *)
Definition collinear_overlap (p1 p2 p3 p4 : point) : bool :=
  in_span p1 p2 p3 || in_span p1 p2 p4 || in_span p3 p4 p1 || in_span p3 p4 p2.

(** Candidate 0-1 from (0,0) to (10,0); accepted edge 2-3 from (5,0) to
    (15,0). *)
Definition lap_coords : node -> point := fun n =>
  match n with
  | O => (0, 0)
  | 1%nat => (10, 0)
  | 2%nat => (5, 0)
  | _ => (15, 0)
  end.

Definition lap_rtree : Rtree :=
  [(make_bounding_box (lap_coords 2%nat) (lap_coords 3%nat), (2%nat, 3%nat))].

(** C8, the code at the failing input: the two segments are collinear
    (numerator and denominator are 0), they overlap from (5,0) to (10,0)
    and share no end point, yet [line_intersection] reports no crossing:
    the chained comparison holds only when both end points of the
    accepted segment lie inside the candidate's range. *)
Theorem collinear_overlap_missed :
  cross (psub (lap_coords 2%nat) (lap_coords 0%nat))
        (psub (lap_coords 1%nat) (lap_coords 0%nat)) = 0
  ∧ cross (psub (lap_coords 1%nat) (lap_coords 0%nat))
          (psub (lap_coords 3%nat) (lap_coords 2%nat)) = 0
  ∧ collinear_overlap (lap_coords 0%nat) (lap_coords 1%nat)
      (lap_coords 2%nat) (lap_coords 3%nat) = true
  ∧ share_an_endpoint (lap_coords 0%nat) (lap_coords 1%nat)
      (lap_coords 2%nat) (lap_coords 3%nat) = false
  ∧ overlapping (lap_coords 0%nat) (lap_coords 1%nat)
      (lap_coords 2%nat) (lap_coords 3%nat) = false
  ∧ line_intersection lap_coords lap_rtree 0%nat 1%nat = false.
Proof. split_and!; vm_compute; reflexivity. Qed.

(** ** C4: order after merge *)

(** A queue holding edge 0-1 with priority 1 absorbs a queue holding edge
    1-0 with priority 3; the set built from the two entries is listed
    with the entry of priority 3 first. *)
Definition small_queue : PriorityQueue edge := push pq_new (0%nat, 1%nat) 1.

Definition other_queue : PriorityQueue edge := push pq_new (1%nat, 0%nat) 3.

Definition listed_backwards : list (entry edge) -> list (entry edge) :=
  @rev (entry edge).

(** C4, the code at the failing input: after the merge the list is not
    re-heapified, so [top] and [pop] both return edge 1-0 of priority 3
    while edge 0-1 of priority 1 is in the queue. *)
Theorem merge_loses_heap_order :
  _queue (merge listed_backwards small_queue other_queue).1
  = [(3, 1%nat, (1%nat, 0%nat)); (1, 0%nat, (0%nat, 1%nat))]
  ∧ top (merge listed_backwards small_queue other_queue).1
    = Some (1%nat, 0%nat)
  ∧ fst <$> pop (merge listed_backwards small_queue other_queue).1
    = Some (1%nat, 0%nat).
Proof. split_and!; vm_compute; reflexivity. Qed.

(** ** C5: foreign nearest neighbour *)

(** C5, the code at the failing input: three points on the equator at
    longitudes 0, 1 and 2, indexed by ascending distance.  The query for
    the point of node 0 with node 2 alone allowed returns node 2 and
    remembers rank 3.  The next query for the same point, with nodes 1 and
    2 allowed, starts at rank 3 and returns node 2 again; node 1 is
    allowed, has rank 2 and is nearer, and the remembered rank stays 3
    where rank 2 would have succeeded. *)
Theorem FNNd_starts_at_the_remembered_rank (fuel : nat) :
  FNNd line_neighbours (S (S fuel)) ∅ [2]%nat (0, 0)
  = Return (2%nat, <[(0, 0) := 3%nat]> ∅)
  ∧ FNNd line_neighbours (S (S fuel)) (<[(0, 0) := 3%nat]> ∅) [1; 2]%nat (0, 0)
    = Return (2%nat, <[(0, 0) := 3%nat]> (<[(0, 0) := 3%nat]> ∅))
  ∧ kth_neighbour line_neighbours (0, 0) 2 = 1%nat
  ∧ 1%nat ∈ [1; 2]%nat
  ∧ sq_dist (0, 0) (line_coords 1%nat) < sq_dist (0, 0) (line_coords 2%nat).
Proof.
  split_and!; try (vm_compute; reflexivity).
  apply elem_of_cons. by left.
Qed.

(** ** C9: the candidate that is not committed *)

(** The queue object of the component of [u]: the one stored under the
    root of [u]. *)
Definition component_queue (node_mv : node -> Z) (X : UnionFind) (u : node)
    : option (PriorityQueue edge) :=
  match getitem node_mv X u with
  | Return (r, X') => queues X' !! r ≫= fun h => heap X' !! h
  | _ => None
  end.

(** The claim: whenever a candidate popped from [Ep] in the commit loop
    of a call is not unioned, the top of the queue of [u]'s component is
    popped. *)
Definition prune_claim (node_mv : node -> Z)
    (list_of_set : list (entry edge) -> list (entry edge))
    (coords : node -> point) (neighbours : point -> list node)
    (hav_dist : point -> point -> outcome Z)
    (iter_set : list node -> list node) : Prop :=
  ∀ fuel V k_cache st Ep um vm dm Ep' st' q e q',
    in_commit_loop node_mv list_of_set coords neighbours hav_dist iter_set
      fuel V k_cache st Ep ->
    pop Ep = Some ((um, vm, dm), Ep') ->
    ¬ unites node_mv (subgraphs st) (um, vm, dm) ->
    commit node_mv list_of_set coords st (um, vm, dm) = Return st' ->
    component_queue node_mv (subgraphs st) um = Some q ->
    pop q = Some (e, q') ->
    component_queue node_mv (subgraphs st') um = Some q'.

(** Two nodes of the equator one degree of longitude apart: node 0 has
    budget 100 and node 1 has budget 10000000. *)
Definition isolate_mv : node -> Z := fun n =>
  match n with
  | O => 100
  | _ => 10000000
  end.

Definition pair_neighbours : point -> list node := fun b =>
  if b.1 =? 0 then [0; 1]%nat else [1; 0]%nat.

(** The structure after the initialisation loop of [modBoruvka]. *)
Definition isolate_init : UnionFind :=
  match for_each (init_node isolate_mv line_coords pair_neighbours 5
                   [0; 1]%nat) (empty_UnionFind, ∅) [0; 1]%nat with
  | Return (X, _) => X
  | _ => empty_UnionFind
  end.

Lemma isolate_init_reached :
  reached isolate_mv keep_order line_coords [] [] isolate_init.
Proof.
  eapply (init_reached _ _ _ pair_neighbours 5 [0; 1]%nat ∅).
  vm_compute. reflexivity.
Qed.

(** The haversine length in metres, rounded down, between two points of
    the equator that are up to twelve degrees of longitude apart. *)
Definition equator_hav : point -> point -> outcome Z :=
  fun a b => Return (111195 * Z.abs (a.1 - b.1)).

(** The call on the two nodes of the equator, of budgets 100 and
    10000000: the first round gathers the candidates 0-1 and 1-0 of
    length 111195; [isolate_round] is the state after the first of them
    has gone through the body of the commit loop, and what is left of
    [Ep]. *)
Definition isolate_round : state * PriorityQueue candidate :=
  match first_round_prefix isolate_mv keep_order line_coords pair_neighbours
          equator_hav remove_dups 5 [0; 1]%nat ∅ 1 with
  | Return r => r
  | _ => (start, pq_new)
  end.

Lemma isolate_prefix list_of_set :
  first_round_prefix isolate_mv list_of_set line_coords pair_neighbours
    equator_hav remove_dups 5 [0; 1]%nat ∅ 1
  = Return (isolate_round.1, isolate_round.2).
Proof. vm_compute. reflexivity. Qed.


Lemma try_pop_same_store X Y um :
  queues Y = queues X -> heap Y = heap X ->
  queues (try_pop Y um) = queues X ∧ heap (try_pop Y um) = heap (try_pop X um).
Proof.
  intros Hq Hh. unfold try_pop. rewrite Hq, Hh.
  repeat case_match; simpl; rewrite ?Hq, ?Hh; done.
Qed.



(** ** C7: termination *)

(** [FNNd] has no exit when no rank from [k] on holds an allowed node. *)
Lemma FNNd_loop_never neighbours A b fuel : ∀ k,
  (∀ j, (k <= j)%nat -> kth_neighbour neighbours b j ∉ A) ->
  FNNd_loop neighbours fuel A b k = OutOfFuel.
Proof.
  induction fuel as [|fuel IH]; intros k Hk; [done|].
  cbn [FNNd_loop]. rewrite decide_False by (apply Hk; lia).
  apply IH. intros j Hj. apply Hk. lia.
Qed.

(** C7, the code: when the first query of the initialisation loop finds
    no node of [V] at any rank from its starting rank on, the call never
    returns, whatever the fuel.  A graph of one node is such an input:
    the index holds one point and answers every rank from 2 on with the
    missing-neighbour mark. *)
Theorem call_without_a_neighbour_never_returns node_mv list_of_set coords
    neighbours hav_dist iter_set v V k_cache :
  (∀ j, (default 2%nat (k_cache !! coords v) <= j)%nat ->
        kth_neighbour neighbours (coords v) j ∉ v :: V) ->
  ∀ fuel,
    modBoruvka node_mv list_of_set coords neighbours hav_dist iter_set
      fuel (v :: V) k_cache = OutOfFuel.
Proof.
  intros Hno fuel.
  assert (init_node node_mv coords neighbours fuel (v :: V)
            (empty_UnionFind, k_cache) v = OutOfFuel) as Hi.
  { unfold init_node, FNNd.
    by rewrite (FNNd_loop_never neighbours (v :: V) (coords v) fuel _ Hno). }
  unfold modBoruvka. cbn [for_each]. by rewrite Hi.
Qed.

Lemma call_without_a_neighbour_never_returns_witness :
  modBoruvka ample_mv keep_order line_coords (fun _ => [0%nat]) line_hav
    remove_dups 7 [0%nat] ∅ = OutOfFuel.
Proof.
  apply (call_without_a_neighbour_never_returns ample_mv keep_order
           line_coords (fun _ => [0%nat]) line_hav remove_dups 0%nat [] ∅).
  intros j Hj. rewrite lookup_empty in Hj. simpl in Hj.
  unfold kth_neighbour.
  destruct j as [|[|j]]; [lia..|]. simpl.
  destruct j; simpl; intros [=]%list_elem_of_singleton.
Defined.

(** ** C10: empty and single-node inputs *)

(** C10, the code at both inputs: with no node, [np.row_stack] of line 275
    has nothing to stack and raises [ValueError]; nothing is returned.
    With the single node 0 the first query of the initialisation loop asks
    for the second neighbour of an index of one point; every answer is the
    missing-neighbour mark 1, which is not a node, and [FNNd] never
    returns, whatever the fuel. *)
Theorem single_node_never_returns :
  (∀ node_mv list_of_set coords neighbours hav_dist iter_set fuel k_cache,
     modBoruvka node_mv list_of_set coords neighbours hav_dist iter_set
       fuel [] k_cache = Raise ValueError)
  ∧ (∀ node_mv list_of_set coords hav_dist iter_set fuel,
       modBoruvka node_mv list_of_set coords (fun _ => [0%nat]) hav_dist
         iter_set fuel [0%nat] ∅ = OutOfFuel).
Proof.
  split.
  - intros. reflexivity.
  - intros. unfold modBoruvka. simpl. unfold FNNd.
    rewrite lookup_empty. simpl.
    rewrite FNNd_loop_never; [done|].
    intros j Hj. unfold kth_neighbour.
    destruct j as [|[|j]]; [lia..|]. simpl.
    destruct j; simpl; intros [=]%list_elem_of_singleton.
Qed.

(** * Further properties of the code *)

(** ** FNNd (lines 167-183) *)

Lemma FNNd_loop_allowed neighbours A b fuel : ∀ k a k',
  FNNd_loop neighbours fuel A b k = Return (a, k') ->
  a ∈ A ∧ (k < k')%nat ∧ a = kth_neighbour neighbours b (k' - 1)
  ∧ ∀ j, (k <= j < k' - 1)%nat -> kth_neighbour neighbours b j ∉ A.
Proof.
  induction fuel as [|fuel IH]; intros k a k' H; [discriminate|].
  cbn [FNNd_loop] in H. destruct (decide _) as [Hin|Hout].
  - injection H as <- <-. simpl. rewrite Nat.sub_0_r.
    split; [done|]. split; [lia|]. split; [done|]. intros j Hj. lia.
  - apply IH in H as (Ha & Hk & Heq & Hbefore).
    split; [done|]. split; [lia|]. split; [done|].
    intros j Hj. destruct (decide (j = k)) as [->|]; [done|].
    apply Hbefore. lia.
Qed.

(** X1: Whenever [FNNd] returns, the node it returns is in the allowed set,
    it is the neighbour at the rank now remembered for the query point,
    that rank is not below the rank the search started from, no rank in
    between holds an allowed node, and no other cache entry changed. *)
Theorem FNNd_returns_only_allowed neighbours fuel k_cache A b a k_cache' :
  FNNd neighbours fuel k_cache A b = Return (a, k_cache') ->
  a ∈ A
  ∧ ∃ k, k_cache' = <[b := k]> k_cache
         ∧ (default 2%nat (k_cache !! b) <= k)%nat
         ∧ a = kth_neighbour neighbours b k
         ∧ ∀ j, (default 2%nat (k_cache !! b) <= j < k)%nat ->
                kth_neighbour neighbours b j ∉ A.
Proof.
  unfold FNNd. intros ([a' k'] & Hl & H)%bind_Return.
  injection H as <- <-.
  apply FNNd_loop_allowed in Hl as (Ha & Hk & Heq & Hbefore).
  split; [done|]. exists (k' - 1)%nat. split; [done|].
  split; [lia|]. split; [done|]. exact Hbefore.
Qed.

Lemma FNNd_returns_only_allowed_witness :
  2%nat ∈ [2]%nat
  ∧ ∃ k : nat,
      <[(0, 0) := 3%nat]> (<[(0, 0) := 2%nat]> (∅ : gmap point nat))
      = <[(0, 0) := k]> (<[(0, 0) := 2%nat]> (∅ : gmap point nat))
      ∧ (default 2%nat
           ((<[(0%Z, 0%Z) := 2%nat]> ∅ : gmap point nat) !! (0%Z, 0%Z))
         <= k)%nat
      ∧ 2%nat = kth_neighbour line_neighbours (0, 0) k
      ∧ ∀ j : nat,
          (default 2%nat
             ((<[(0%Z, 0%Z) := 2%nat]> ∅ : gmap point nat) !! (0%Z, 0%Z))
           <= j < k)%nat ->
          kth_neighbour line_neighbours (0, 0) j ∉ [2]%nat.
Proof.
  apply (FNNd_returns_only_allowed line_neighbours 5
           (<[(0, 0) := 2%nat]> ∅) [2]%nat (0, 0)).
  vm_compute. reflexivity.
Defined.

Lemma FNNd_loop_first_allowed neighbours A b k fuel : ∀ k0,
  (k0 <= k)%nat -> (k - k0 < fuel)%nat ->
  kth_neighbour neighbours b k ∈ A ->
  (∀ j, (k0 <= j < k)%nat -> kth_neighbour neighbours b j ∉ A) ->
  FNNd_loop neighbours fuel A b k0 = Return (kth_neighbour neighbours b k, S k).
Proof.
  induction fuel as [|fuel IH]; intros k0 Hle Hf Hk Hbefore; [lia|].
  simpl. destruct (decide (k0 = k)) as [->|Hne].
  - by rewrite decide_True.
  - rewrite decide_False by (apply Hbefore; lia).
    apply IH; [lia|lia|done|]. intros j Hj. apply Hbefore. lia.
Qed.

(** X26: [FNNd] starts at the rank remembered for the query point (2 for a
    point not yet in the cache).  When some rank from there on holds an
    allowed node, the loop ends at the first such rank: [FNNd] returns the
    node at that rank and remembers the rank. *)
Theorem FNNd_returns_first_allowed neighbours k_cache A b k fuel :
  (default 2%nat (k_cache !! b) <= k)%nat ->
  kth_neighbour neighbours b k ∈ A ->
  (∀ j, (default 2%nat (k_cache !! b) <= j < k)%nat ->
        kth_neighbour neighbours b j ∉ A) ->
  (k - default 2%nat (k_cache !! b) < fuel)%nat ->
  FNNd neighbours fuel k_cache A b
  = Return (kth_neighbour neighbours b k, <[b := k]> k_cache).
Proof.
  intros Hle Hk Hbefore Hfuel. unfold FNNd.
  rewrite (FNNd_loop_first_allowed neighbours A b k fuel) by done.
  simpl. by rewrite Nat.sub_0_r.
Qed.

Lemma FNNd_returns_first_allowed_witness :
  FNNd line_neighbours 5 ∅ [2]%nat (0, 0)
  = Return (kth_neighbour line_neighbours (0, 0) 3, <[(0, 0) := 3%nat]> ∅).
Proof.
  apply (FNNd_returns_first_allowed line_neighbours ∅ [2]%nat (0, 0)
           3%nat 5%nat).
  - rewrite lookup_empty. simpl. lia.
  - vm_compute. apply elem_of_cons. by left.
  - rewrite lookup_empty. simpl. intros j Hj.
    assert (j = 2%nat) as -> by lia. vm_compute.
    intros [= ?]%list_elem_of_singleton.
  - rewrite lookup_empty. simpl. lia.
Defined.

(** ** Coordinates on which the float arithmetic is exact

    [sq_dist] and [line_intersection] compute on float64 numbers.  When
    the coordinates are float64 numbers whose values are integers of
    absolute value up to 2^24, every difference, product and sum the two
    functions form is an integer below 2^53 and is computed without
    rounding, and the two quotients of lines 255 and 256 compare with 0 and
    1 as their exact values do.  The properties of the two functions are
    stated for such coordinates. *)
Definition on_grid (p : point) : Prop :=
  Z.abs p.1 <= 2 ^ 24 ∧ Z.abs p.2 <= 2 ^ 24.

(** ** sq_dist (lines 136-141) *)

(** X2: Between coordinate pairs with integer values of absolute value up
    to 2^24, the squared distance is symmetric, never negative, and zero
    exactly between equal pairs. *)
Theorem sq_dist_metric a b :
  on_grid a -> on_grid b ->
  sq_dist a b = sq_dist b a
  ∧ 0 <= sq_dist a b
  ∧ (sq_dist a b = 0 ↔ a = b).
Proof.
  intros _ _.
  destruct a as [ax ay], b as [bx by_]. unfold sq_dist. simpl.
  pose proof (Z.square_nonneg (ax - bx)) as Hx.
  pose proof (Z.square_nonneg (ay - by_)) as Hy.
  split; [ring|]. split; [lia|]. split.
  - intros H.
    assert ((ax - bx) * (ax - bx) = 0) as Hx0 by lia.
    assert ((ay - by_) * (ay - by_) = 0) as Hy0 by lia.
    apply Z.mul_eq_0 in Hx0, Hy0.
    f_equal; lia.
  - intros [= -> ->]. ring.
Qed.

Lemma sq_dist_metric_witness :
  sq_dist (3, 4) (0, 0) = sq_dist (0, 0) (3, 4)
  ∧ 0 <= sq_dist (3, 4) (0, 0)
  ∧ (sq_dist (3, 4) (0, 0) = 0 ↔ (3, 4) = (0, 0)).
Proof.
  apply (sq_dist_metric (3, 4) (0, 0)); unfold on_grid; simpl; lia.
Defined.

(** ** UnionFind.__getitem__ (lines 57-79) *)

Lemma compress_lookup_in path : ∀ p r x,
  x ∈ path -> compress path r p !! x = Some r.
Proof.
  induction path as [|a path IH] using rev_ind; intros p r x Hx.
  - inversion Hx.
  - unfold compress in *. rewrite foldl_app. simpl.
    destruct (decide (x = a)) as [->|Hne]; [by rewrite lookup_insert_eq|].
    rewrite lookup_insert_ne by done. apply IH.
    apply elem_of_app in Hx as [Hx|Hx%list_elem_of_singleton]; done.
Qed.

(** [find] of a node that has a root, without any assumption on the other
    dictionaries. *)
Lemma getitem_rooted node_mv X x r :
  root_of (parents X) x r ->
  ∃ p', getitem node_mv X x = Return (r, set_parents (fun _ => p') X)
    ∧ p' !! x = Some r
    ∧ (∀ y s, root_of p' y s ↔ root_of (parents X) y s)
    ∧ (∀ y, is_Some (p' !! y) ↔ is_Some (parents X !! y)).
Proof.
  intros Hr. destruct (root_of_registered _ _ _ Hr) as [first Hx].
  unfold getitem. rewrite Hx.
  destruct (root_of_reach _ _ _ Hr) as [n Hn].
  pose proof (reach_bound _ _ _ _ Hn) as Hb.
  destruct (climb_reach _ _ _ _ Hn (size (parents X)) [x] first Hx
              ltac:(lia)) as (path' & Hc & Hp).
  rewrite Hc. simpl.
  assert (∀ a, a ∈ [x] ++ path' -> root_of (parents X) a r) as Hall.
  { intros a [->%list_elem_of_singleton|Ha]%elem_of_app; auto. }
  exists (compress ([x] ++ path') r (parents X)).
  split; [done|]. split.
  { apply compress_lookup_in. apply elem_of_app. left.
    by apply list_elem_of_singleton. }
  split.
  - by apply compress_roots.
  - intros y. split.
    + apply compress_registered_inv. intros a Ha.
      eauto using root_of_registered.
    + apply compress_registered.
Qed.

(** A node that points at its root is found in at most one step, and the
    compression then rewrites nothing. *)
Lemma getitem_compressed node_mv X x r :
  parents X !! x = Some r -> parents X !! r = Some r ->
  getitem node_mv X x = Return (r, X).
Proof.
  intros Hx Hr. unfold getitem. rewrite Hx.
  assert (size (parents X) ≠ 0%nat) as Hsz.
  { intros Hsz%map_size_empty_iff. rewrite Hsz in Hx. by rewrite lookup_empty in Hx. }
  destruct (size (parents X)) as [|fuel] eqn:Hfuel; [done|].
  destruct (decide (r = x)) as [->|Hne].
  - simpl. rewrite decide_True by done. simpl.
    unfold set_parents, compress. simpl. rewrite insert_id by done.
    by destruct X.
  - simpl. rewrite decide_False by done. rewrite Hr.
    destruct fuel; simpl; rewrite decide_True by done; simpl;
      unfold set_parents, compress; simpl;
      rewrite (insert_id (<[x:=r]> (parents X)) r r)
        by (by rewrite lookup_insert_ne);
      rewrite insert_id by done; by destruct X.
Qed.

(** X3: [X[x]] for a registered [x] returns the root of [x]; afterwards [x]
    points directly at that root, every node has the root it had before,
    the other dictionaries are untouched, and asking again gives the same
    answer without changing the structure any more. *)
Theorem find_compresses_and_keeps_roots node_mv X x r :
  root_of (parents X) x r ->
  ∃ X', getitem node_mv X x = Return (r, X')
    ∧ parents X' !! x = Some r
    ∧ (∀ y s, root_of (parents X') y s ↔ root_of (parents X) y s)
    ∧ (weights X' = weights X ∧ mv X' = mv X ∧ children X' = children X
       ∧ queues X' = queues X ∧ heap X' = heap X)
    ∧ getitem node_mv X' x = Return (r, X').
Proof.
  intros Hr. destruct (getitem_rooted node_mv X x r Hr) as (p' & Hg & Hx & Hp & _).
  eexists. split; [exact Hg|]. simpl. split; [done|]. split; [done|].
  split; [done|]. apply getitem_compressed; simpl; [done|].
  eapply root_of_is_root, Hp. exact Hr.
Qed.

(** The path 2 -> 1 -> 0 of a hand-made structure. *)
Definition chain_uf : UnionFind :=
  mkUF ∅ ∅ (<[2%nat := 1%nat]> (<[1%nat := 0%nat]> (<[0%nat := 0%nat]> ∅)))
       ∅ ∅ ∅.

Lemma chain_root : root_of (parents chain_uf) 2%nat 0%nat.
Proof.
  eapply root_step; [vm_compute; reflexivity|discriminate|].
  eapply root_step; [vm_compute; reflexivity|discriminate|].
  apply root_self. vm_compute. reflexivity.
Qed.

Lemma find_compresses_and_keeps_roots_witness :
  ∃ X', getitem ample_mv chain_uf 2%nat = Return (0%nat, X')
    ∧ parents X' !! 2%nat = Some 0%nat
    ∧ (∀ y s, root_of (parents X') y s ↔ root_of (parents chain_uf) y s)
    ∧ (weights X' = weights chain_uf ∧ mv X' = mv chain_uf
       ∧ children X' = children chain_uf
       ∧ queues X' = queues chain_uf ∧ heap X' = heap chain_uf)
    ∧ getitem ample_mv X' 2%nat = Return (0%nat, X').
Proof.
  apply (find_compresses_and_keeps_roots ample_mv chain_uf 2%nat 0%nat).
  exact chain_root.
Defined.

(** X4: [find] never merges or splits sets: whenever [X[x]] returns in a
    well-formed structure, the structure is still well formed, the node
    asked for has the returned root, two nodes registered before are in
    one set afterwards exactly when they were before, and a node that was
    unknown is alone in its set. *)
Theorem find_keeps_the_partition node_mv X x r X' :
  wf_uf X ->
  getitem node_mv X x = Return (r, X') ->
  wf_uf X'
  ∧ root_of (parents X') x r
  ∧ (∀ a b, is_Some (parents X !! a) -> is_Some (parents X !! b) ->
       (same_root (parents X') a b ↔ same_root (parents X) a b))
  ∧ (parents X !! x = None ->
     r = x ∧ ∀ y, same_root (parents X') x y -> y = x).
Proof.
  intros Hwf Hret.
  destruct (getitem_total node_mv X x Hwf)
    as (r0 & X0 & Hg & Hwf' & Hr & Hk & Hb & _ & _).
  rewrite Hret in Hg. injection Hg as <- <-.
  split; [done|]. split; [done|]. split.
  - intros a b Ha Hb'. split.
    + intros (s & Has & Hbs).
      destruct (Hb _ _ Has) as [Has'|[Ea Es]];
        destruct (Hb _ _ Hbs) as [Hbs'|[Eb Es']].
      * by exists s.
      * subst b s. exists x. split; [done|].
        apply root_self. by apply root_of_is_root in Has'.
      * subst a s. exists x. split; [|done].
        apply root_self. by apply root_of_is_root in Hbs'.
      * subst a b. destruct (wf_rooted X Hwf x Ha) as [s' Hs']. by exists s'.
    + intros (s & Has & Hbs). exists s. auto.
  - intros Hx.
    assert (∀ y s, root_of (parents X) y s -> s ≠ x) as Hold.
    { intros y s Hs%root_of_is_root ->. congruence. }
    assert (r = x) as ->.
    { destruct (Hb _ _ Hr) as [Hr'%root_of_registered|[_ ->]]; [|done].
      rewrite Hx in Hr'. by destruct Hr'. }
    split; [done|]. intros y (s & Hxs & Hys).
    assert (s = x) as -> by (eapply root_of_det; [exact Hxs|exact Hr]).
    destruct (Hb _ _ Hys) as [Hys'|[-> _]]; [|done].
    by destruct (Hold _ _ Hys').
Qed.

Lemma find_keeps_the_partition_witness :
  ∃ r X',
    getitem ample_mv (subgraphs plus_state) 4%nat = Return (r, X')
    ∧ wf_uf X'
    ∧ root_of (parents X') 4%nat r
    ∧ (∀ a b, is_Some (parents (subgraphs plus_state) !! a) ->
         is_Some (parents (subgraphs plus_state) !! b) ->
         (same_root (parents X') a b
          ↔ same_root (parents (subgraphs plus_state)) a b))
    ∧ (parents (subgraphs plus_state) !! 4%nat = None ->
       r = 4%nat ∧ ∀ y, same_root (parents X') 4%nat y -> y = 4%nat).
Proof.
  eexists _, _. split; [vm_compute; reflexivity|].
  eapply (find_keeps_the_partition ample_mv (subgraphs plus_state) 4%nat).
  - exact (inv_wf _ _ (reachable_inv _ _ _ _ _ plus_state_reachable)).
  - vm_compute. reflexivity.
Defined.

(** ** UnionFind.union (lines 85-101) *)

(** What a returning call of [union] has read and written. *)
Lemma union_fields node_mv list_of_set X g1 g2 d X' :
  union node_mv list_of_set X g1 g2 d = Return X' ->
  ∃ r1 X1 r2 X2 w1 w2 r h wh wr ch cr hh,
    getitem node_mv X g1 = Return (r1, X1)
    ∧ getitem node_mv X1 g2 = Return (r2, X2)
    ∧ weights X2 !! r1 = Some w1 ∧ weights X2 !! r2 = Some w2
    ∧ h = heaviest_of w1 r1 w2 r2
    ∧ r ≠ h ∧ (r = r1 ∨ r = r2)
    ∧ weights X2 !! h = Some wh ∧ weights X2 !! r = Some wr
    ∧ children X2 !! h = Some ch ∧ children X2 !! r = Some cr
    ∧ queues X2 !! h = Some hh
    ∧ weights X' = <[h := (wh + wr)%nat]> (weights X2)
    ∧ parents X' = <[r := h]> (parents X2)
    ∧ children X' = <[r := ch ++ cr]> (<[h := ch ++ cr]> (children X2))
    ∧ queues X' = <[r := hh]> (queues X2).
Proof.
  unfold union. intros ([r1 X1] & Hg1 & H)%bind_Return.
  apply bind_Return in H as ([r2 X2] & Hg2 & H).
  apply bind_Return in H as (w1 & Hw1 & H).
  apply bind_Return in H as (w2 & Hw2 & H).
  destruct (filter _ _) as [|r rest] eqn:Hf; [discriminate|].
  apply bind_Return in H as (wh & Hwh & H).
  apply bind_Return in H as (wr & Hwr & H).
  apply bind_Return in H as (m1 & Hm1 & H).
  apply bind_Return in H as (m2 & Hm2 & H).
  apply bind_Return in H as (ch & Hch & H).
  apply bind_Return in H as (cr & Hcr & H).
  apply bind_Return in H as (hh & Hhh & H).
  apply bind_Return in H as (hr & Hhr & H).
  apply bind_Return in H as (qh & Hqh & H).
  apply bind_Return in H as (qr & Hqr & H).
  destruct (merge list_of_set qh qr) as [qh' qr']. injection H as <-.
  assert (∀ {V} (m : gmap node V) k v, read m k = Return v -> m !! k = Some v)
    as Hread.
  { intros V m k v. unfold read. destruct (m !! k); congruence. }
  assert (r ∈ filter (λ r0 : node, r0 ≠ heaviest_of w1 r1 w2 r2) [r1; r2])
    as Hr by (rewrite Hf; left).
  apply list_elem_of_filter in Hr as [Hne Hr].
  exists r1, X1, r2, X2, w1, w2, r, (heaviest_of w1 r1 w2 r2), wh, wr, ch, cr, hh.
  simpl. split_and!; auto.
  rewrite !elem_of_cons in Hr. destruct Hr as [?|[?|Hr]]; auto. inversion Hr.
Qed.

(** X5: [union] of two nodes that are already in one set fails at line 89:
    the list of roots other than the heaviest is empty and its first
    element is asked for. *)
Theorem union_within_a_set_raises node_mv list_of_set X g1 g2 d r :
  root_of (parents X) g1 r -> root_of (parents X) g2 r ->
  is_Some (weights X !! r) ->
  union node_mv list_of_set X g1 g2 d = Raise IndexError.
Proof.
  intros H1 H2 [w Hw]. unfold union.
  destruct (getitem_rooted node_mv X g1 r H1) as (p1 & -> & _ & Hp1 & _).
  simpl.
  destruct (getitem_rooted node_mv (set_parents (fun _ => p1) X) g2 r)
    as (p2 & -> & _ & _ & _); [simpl; by apply Hp1|].
  simpl. rewrite (read_Some _ _ _ Hw). simpl.
  assert (heaviest_of w r w r = r) as ->
    by (destruct (heaviest_of_cases w r w r); done).
  rewrite !filter_cons, filter_nil.
  rewrite !decide_False by (intros Hn; by apply Hn). done.
Qed.

Lemma union_within_a_set_raises_witness :
  union ample_mv keep_order (subgraphs plus_state) 0%nat 1%nat 3
  = Raise IndexError.
Proof.
  apply (union_within_a_set_raises ample_mv keep_order (subgraphs plus_state)
           0%nat 1%nat 3 1%nat).
  - eapply root_step; [vm_compute; reflexivity|discriminate|].
    apply root_self. vm_compute. reflexivity.
  - apply root_self. vm_compute. reflexivity.
  - vm_compute. eauto.
Defined.

(** ** The member lists and weights (lines 63-65, 92, 97-98, 107-110) *)

(** At every root, [children] lists the nodes of the set once each and
    [weights] holds their number. *)
Definition lists_members (X : UnionFind) : Prop :=
  ∀ r, parents X !! r = Some r ->
    ∃ l, children X !! r = Some l ∧ NoDup l
         ∧ (∀ y, y ∈ l ↔ root_of (parents X) y r)
         ∧ weights X !! r = Some (length l).

Lemma lists_members_same X X' :
  lists_members X ->
  children X' = children X -> weights X' = weights X ->
  (∀ y s, root_of (parents X') y s ↔ root_of (parents X) y s) ->
  lists_members X'.
Proof.
  intros Hm Hc Hw Hp r Hr.
  destruct (Hm r) as (l & Hl & Hnd & Hin & Hlen).
  { eapply root_of_is_root, Hp. by apply root_self. }
  exists l. rewrite Hc, Hw. split_and!; auto.
  intros y. rewrite Hin. symmetry. apply Hp.
Qed.

Lemma try_pop_children X um : children (try_pop X um) = children X.
Proof. unfold try_pop. repeat case_match; done. Qed.

Lemma try_pop_weights X um : weights (try_pop X um) = weights X.
Proof. unfold try_pop. repeat case_match; done. Qed.

Section MemberLists.
Variable node_mv : node -> Z.
Variable list_of_set : list (entry edge) -> list (entry edge).
Variable coords : node -> point.

Lemma lists_members_getitem X x r X' :
  wf_uf X -> lists_members X ->
  getitem node_mv X x = Return (r, X') ->
  lists_members X'.
Proof.
  intros Hwf Hm Hg. destruct (parents X !! x) as [first|] eqn:Hx.
  - destruct (getitem_registered node_mv X x Hwf)
      as (r' & p' & Hg' & _ & Hp & _); [eauto|].
    rewrite Hg in Hg'. injection Hg' as -> ->.
    by apply (lists_members_same X).
  - pose proof (root_of_fresh X x Hwf Hx) as Hfresh.
    unfold getitem in Hg. rewrite Hx in Hg. injection Hg as <- <-.
    intros s Hs. simpl in *. destruct (decide (s = x)) as [->|Hne].
    + exists [x]. rewrite !lookup_insert_eq.
      split_and!; auto using NoDup_singleton.
      intros y. rewrite list_elem_of_singleton, Hfresh. split.
      * intros ->. by right.
      * intros [Hy%root_of_is_root|[-> _]]; [congruence|done].
    + rewrite lookup_insert_ne in Hs by done.
      destruct (Hm s Hs) as (l & Hl & Hnd & Hin & Hlen).
      exists l. rewrite !lookup_insert_ne by done.
      split_and!; auto.
      intros y. rewrite Hin, Hfresh. split; [auto|].
      intros [Hy|[_ ->]]; done.
Qed.

Lemma lists_members_union X g1 g2 d X' :
  wf_uf X -> lists_members X ->
  union node_mv list_of_set X g1 g2 d = Return X' ->
  lists_members X'.
Proof.
  intros Hwf Hm Hu.
  destruct (union_fields _ _ _ _ _ _ _ Hu)
    as (r1 & X1 & r2 & X2 & w1 & w2 & r & h & wh & wr & ch & cr & hh
        & Hg1 & Hg2 & Hw1 & Hw2 & Hh & Hne & Hr & Hwh & Hwr & Hch & Hcr
        & _ & HW & HP & HC & _).
  destruct (getitem_total node_mv X g1 Hwf)
    as (r1' & X1' & Hg1' & Hwf1 & Hr1 & _).
  rewrite Hg1 in Hg1'. injection Hg1' as <- <-.
  destruct (getitem_total node_mv X1 g2 Hwf1)
    as (r2' & X2' & Hg2' & Hwf2 & Hr2 & Hk2 & _).
  rewrite Hg2 in Hg2'. injection Hg2' as <- <-.
  pose proof (lists_members_getitem _ _ _ _ Hwf Hm Hg1) as Hm1.
  pose proof (lists_members_getitem _ _ _ _ Hwf1 Hm1 Hg2) as Hm2.
  assert (parents X2 !! r1 = Some r1) as Hp1
    by eauto using root_of_is_root.
  assert (parents X2 !! r2 = Some r2) as Hp2
    by eauto using root_of_is_root.
  assert (parents X2 !! r = Some r) as Hpr by (by destruct Hr as [->| ->]).
  assert (parents X2 !! h = Some h) as Hph.
  { rewrite Hh. by destruct (heaviest_of_cases w1 r1 w2 r2) as [->| ->]. }
  pose proof (link_roots (parents X2) r h Hpr Hph Hne) as Hlink.
  destruct (Hm2 h Hph) as (lh & Hlh & Hndh & Hinh & Hlenh).
  destruct (Hm2 r Hpr) as (lr & Hlr & Hndr & Hinr & Hlenr).
  assert (lh = ch) as -> by congruence.
  assert (lr = cr) as -> by congruence.
  assert (wh = length ch) as -> by congruence.
  assert (wr = length cr) as -> by congruence.
  intros s Hs. rewrite HP in Hs. rewrite HP, HW, HC.
  assert (s ≠ r) as Hsr.
  { intros ->. rewrite lookup_insert_eq in Hs. congruence. }
  rewrite lookup_insert_ne in Hs by done.
  destruct (decide (s = h)) as [->|Hsh].
  - exists (ch ++ cr). rewrite lookup_insert_ne by done.
    rewrite !lookup_insert_eq. split_and!; auto.
    + apply NoDup_app. split_and!; auto.
      intros y Hy%Hinh Hy'%Hinr. apply Hne. eauto using root_of_det.
    + intros y. rewrite elem_of_app, Hinh, Hinr, Hlink. split.
      * intros [Hy|Hy]; eexists; (split; [exact Hy|]);
          repeat case_decide; congruence.
      * intros (s0 & Hs0 & Heq). case_decide; subst; auto.
    + by rewrite length_app.
  - destruct (Hm2 s Hs) as (l & Hl & Hnd & Hin & Hlen).
    exists l. rewrite !lookup_insert_ne by done. split_and!; auto.
    intros y. rewrite Hin, Hlink. split.
    + intros Hy. exists s. split; [done|]. by rewrite decide_False.
    + intros (s0 & Hs0 & Heq). case_decide; subst; [done|auto].
Qed.

Lemma lists_members_commit st c st' :
  wf_uf (subgraphs st) -> lists_members (subgraphs st) ->
  commit node_mv list_of_set coords st c = Return st' ->
  lists_members (subgraphs st').
Proof.
  destruct c as [[um vm] dm]. intros Hwf Hm Hc. unfold commit in Hc.
  apply bind_Return in Hc as ([ru X1] & Hg1 & Hc).
  apply bind_Return in Hc as ([rv X2] & Hg2 & Hc).
  apply bind_Return in Hc as (mu & _ & Hc).
  destruct (getitem_total node_mv (subgraphs st) um Hwf)
    as (? & ? & Hg1' & Hwf1 & _).
  rewrite Hg1 in Hg1'. injection Hg1' as <- <-.
  destruct (getitem_total node_mv X1 vm Hwf1)
    as (? & ? & Hg2' & Hwf2 & _).
  rewrite Hg2 in Hg2'. injection Hg2' as <- <-.
  pose proof (lists_members_getitem _ _ _ _ Hwf Hm Hg1) as Hm1.
  pose proof (lists_members_getitem _ _ _ _ Hwf1 Hm1 Hg2) as Hm2.
  case_decide.
  - apply bind_Return in Hc as (mvm & _ & Hc). case_decide.
    + apply bind_Return in Hc as (X3 & Hu & Hc).
      pose proof (lists_members_union _ _ _ _ _ Hwf2 Hm2 Hu) as Hm3.
      destruct (line_intersection _ _ _ _); by injection Hc as <-.
    + by injection Hc as <-.
  - injection Hc as <-. simpl.
    apply (lists_members_same X2); auto using try_pop_children, try_pop_weights.
    intros y s. by rewrite try_pop_parents.
Qed.

Lemma reachable_lists_members U st :
  reachable node_mv list_of_set coords U st -> lists_members (subgraphs st).
Proof.
  induction 1 as [| U st x r X' Hst IH Hg | U st h q Hst IH Hh
                  | U st um vm dm st' Hst IH Hun Hc
                  | U st um vm dm st' Hst IH Hun Hc].
  - intros r Hr. simpl in Hr. by rewrite lookup_empty in Hr.
  - eapply lists_members_getitem; [|exact IH|exact Hg].
    apply (inv_wf _ _ (reachable_inv _ _ _ _ _ Hst)).
  - by apply (lists_members_same (subgraphs st)).
  - eapply lists_members_commit; [|exact IH|exact Hc].
    apply (inv_wf _ _ (reachable_inv _ _ _ _ _ Hst)).
  - eapply lists_members_commit; [|exact IH|exact Hc].
    apply (inv_wf _ _ (reachable_inv _ _ _ _ _ Hst)).
Qed.

End MemberLists.

(** X7: In every state of a run, [component_set(v)] returns; the list it
    returns holds exactly the nodes of the set of [v], each once, and the
    weight stored at the root of [v] is the length of that list. *)
Theorem component_set_lists_the_component
    node_mv list_of_set coords U st v :
  reachable node_mv list_of_set coords U st ->
  ∃ l X' r, component_set node_mv (subgraphs st) v = Return (l, X')
    ∧ NoDup l
    ∧ (∀ y, y ∈ l ↔ same_root (parents X') y v)
    ∧ root_of (parents X') v r
    ∧ weights X' !! r = Some (length l).
Proof.
  intros Hst.
  pose proof (inv_wf _ _ (reachable_inv _ _ _ _ _ Hst)) as Hwf.
  pose proof (reachable_lists_members _ _ _ _ _ Hst) as Hm.
  destruct (getitem_total node_mv (subgraphs st) v Hwf)
    as (r & X' & Hg & Hwf' & Hr & _).
  pose proof (lists_members_getitem _ _ _ _ _ Hwf Hm Hg) as Hm'.
  destruct (Hm' r) as (l & Hl & Hnd & Hin & Hlen);
    [eauto using root_of_is_root|].
  exists l, X', r. unfold component_set. rewrite Hg. simpl.
  rewrite (read_Some _ _ _ Hl). simpl. split_and!; auto.
  intros y. rewrite Hin. split.
  - intros Hy. by exists r.
  - intros (s & Hy & Hv). by rewrite (root_of_det _ _ _ _ Hr Hv).
Qed.

Lemma component_set_lists_the_component_witness :
  ∃ l X' r, component_set ample_mv (subgraphs plus_state) 2%nat = Return (l, X')
    ∧ NoDup l
    ∧ (∀ y, y ∈ l ↔ same_root (parents X') y 2%nat)
    ∧ root_of (parents X') 2%nat r
    ∧ weights X' !! r = Some (length l).
Proof.
  apply (component_set_lists_the_component ample_mv keep_order plus_coords
           [(0, 1); (2, 3)]%nat plus_state 2%nat).
  exact plus_state_reachable.
Defined.

(** X6: [union] of two nodes of different sets returns; the heavier root (on
    equal weights the one with the larger name) becomes the root of both
    nodes, its weight is the sum of the two weights, and two nodes are in
    one set afterwards exactly when they were before or each was in one
    of the two sets that were merged. *)
Theorem union_merges_exactly_two_sets
    node_mv list_of_set X g1 g2 d r1 r2 :
  wf_uf X ->
  root_of (parents X) g1 r1 -> root_of (parents X) g2 r2 -> r1 ≠ r2 ->
  ∃ X' w1 w2 h,
    union node_mv list_of_set X g1 g2 d = Return X'
    ∧ wf_uf X'
    ∧ weights X !! r1 = Some w1 ∧ weights X !! r2 = Some w2
    ∧ h = (if decide ((w1 < w2)%nat ∨ (w1 = w2 ∧ (r1 < r2)%nat))
           then r2 else r1)
    ∧ root_of (parents X') g1 h ∧ root_of (parents X') g2 h
    ∧ weights X' !! h = Some (w1 + w2)%nat
    ∧ (∀ a b, same_root (parents X') a b
         ↔ ∃ ra rb, root_of (parents X) a ra ∧ root_of (parents X) b rb
                    ∧ (ra = rb ∨ (ra ∈ [r1; r2] ∧ rb ∈ [r1; r2]))).
Proof.
  intros Hwf H1 H2 Hne.
  destruct (union_spec node_mv list_of_set X g1 g2 d r1 r2 Hwf H1 H2 Hne)
    as (X' & _ & _ & _ & _ & Hu & Hwf' & _).
  destruct (union_fields _ _ _ _ _ _ _ Hu)
    as (s1 & X1 & s2 & X2 & w1 & w2 & r & h & wh & wr & ch & cr & hh
        & Hg1 & Hg2 & Hw1 & Hw2 & Hh & Hrh & Hr & Hwh & Hwr & _ & _
        & _ & HW & HP & _).
  destruct (getitem_registered node_mv X g1 Hwf)
    as (s1' & p1 & Hg1' & Hs1 & Hp1 & Hd1); [eauto using root_of_registered|].
  rewrite Hg1 in Hg1'. injection Hg1' as -> ->.
  assert (s1' = r1) as -> by eauto using root_of_det.
  pose proof (wf_set_parents X p1 Hwf Hp1 Hd1) as Hwf1.
  destruct (getitem_registered node_mv (set_parents (fun _ => p1) X) g2 Hwf1)
    as (s2' & p2 & Hg2' & Hs2 & Hp2 & _).
  { simpl. eapply root_of_registered, Hp1. exact H2. }
  rewrite Hg2 in Hg2'. injection Hg2' as -> ->.
  assert (s2' = r2) as ->.
  { eapply root_of_det; [exact Hs2|]. simpl. by apply Hp1. }
  simpl in *.
  assert (∀ y s, root_of p2 y s ↔ root_of (parents X) y s) as Hp.
  { intros y s. rewrite Hp2. apply Hp1. }
  assert (p2 !! r1 = Some r1) as Hr1.
  { eapply root_of_is_root, Hp. apply root_self.
    eauto using root_of_is_root. }
  assert (p2 !! r2 = Some r2) as Hr2.
  { eapply root_of_is_root, Hp. apply root_self.
    eauto using root_of_is_root. }
  assert ((r = r1 ∧ h = r2) ∨ (r = r2 ∧ h = r1)) as Hcase.
  { rewrite Hh in *.
    destruct (heaviest_of_cases w1 r1 w2 r2) as [Hc|Hc]; rewrite Hc in *;
      destruct Hr as [->| ->]; auto; congruence. }
  assert (p2 !! r = Some r ∧ p2 !! h = Some h) as [Hpr Hph]
    by (destruct Hcase as [[-> ->]|[-> ->]]; auto).
  pose proof (link_roots p2 r h Hpr Hph Hrh) as Hlink.
  assert (∀ y s, root_of (parents X') y s
                 ↔ ∃ s0, root_of (parents X) y s0
                         ∧ s = (if decide (s0 = r) then h else s0)) as Hroots.
  { intros y s. rewrite HP, Hlink.
    split; intros (s0 & Hs0 & ->); exists s0; split; auto; by apply Hp. }
  assert (∀ y s0, root_of (parents X) y s0 -> s0 ∈ [r1; r2] ->
                  root_of (parents X') y h) as Hto.
  { intros y s0 Hy Hs0. apply Hroots. exists s0. split; [done|].
    rewrite !elem_of_cons in Hs0.
    destruct Hcase as [[-> ->]|[-> ->]];
      case_decide; destruct Hs0 as [?|[?|Hs0]];
      try congruence; inversion Hs0. }
  exists X', w1, w2, h. split; [done|]. split; [done|].
  split; [done|]. split; [done|]. split.
  { rewrite Hh. unfold heaviest_of.
    destruct (Nat.ltb_spec w1 w2), (Nat.eqb_spec w1 w2),
      (Nat.ltb_spec r1 r2); simpl; case_decide; auto; lia. }
  split; [apply (Hto _ r1); [done|left]|].
  split; [apply (Hto _ r2); [done|right; left]|].
  split.
  { rewrite HW, lookup_insert_eq. f_equal.
    destruct Hcase as [[-> ->]|[-> ->]]; simplify_eq; lia. }
  intros a b. split.
  - intros (s & Ha & Hb).
    apply Hroots in Ha as (ra & Ha & Hea).
    apply Hroots in Hb as (rb & Hb & Heb).
    exists ra, rb. split; [done|]. split; [done|].
    rewrite !elem_of_cons.
    destruct Hcase as [[-> ->]|[-> ->]];
      repeat case_decide; subst; auto.
  - intros (ra & rb & Ha & Hb & [->|[Hra Hrb]]).
    + exists (if decide (rb = r) then h else rb).
      split; apply Hroots; exists rb; done.
    + exists h. eauto.
Qed.

Lemma union_merges_exactly_two_sets_witness :
  ∃ X' w1 w2 h,
    union ample_mv keep_order (subgraphs plus_state) 0%nat 3%nat 2
    = Return X'
    ∧ wf_uf X'
    ∧ weights (subgraphs plus_state) !! 1%nat = Some w1
    ∧ weights (subgraphs plus_state) !! 3%nat = Some w2
    ∧ h = (if decide ((w1 < w2)%nat ∨ (w1 = w2 ∧ (1 < 3)%nat))
           then 3%nat else 1%nat)
    ∧ root_of (parents X') 0%nat h ∧ root_of (parents X') 3%nat h
    ∧ weights X' !! h = Some (w1 + w2)%nat
    ∧ (∀ a b, same_root (parents X') a b
         ↔ ∃ ra rb, root_of (parents (subgraphs plus_state)) a ra
                    ∧ root_of (parents (subgraphs plus_state)) b rb
                    ∧ (ra = rb ∨ (ra ∈ [1; 3]%nat ∧ rb ∈ [1; 3]%nat))).
Proof.
  apply (union_merges_exactly_two_sets ample_mv keep_order
           (subgraphs plus_state) 0%nat 3%nat 2 1%nat 3%nat).
  - exact (inv_wf _ _ (reachable_inv _ _ _ _ _ plus_state_reachable)).
  - eapply root_step; [vm_compute; reflexivity|discriminate|].
    apply root_self. vm_compute. reflexivity.
  - apply root_self. vm_compute. reflexivity.
  - discriminate.
Defined.

(** ** line_intersection (lines 211-271) *)

(** The quotient of two integers lies in [0, 1]. *)
Lemma between01_div n d :
  d ≠ 0 ->
  between01 (inject_Z n / inject_Z d)
  = ((0 <? d) && (0 <=? n) && (n <=? d))
    || ((d <? 0) && (d <=? n) && (n <=? 0)).
Proof.
  intros Hd. unfold between01, Qle_bool, Qdiv, Qmult, Qinv, inject_Z.
  destruct d as [|p|p]; [done| |]; cbn;
    rewrite ?Pos.mul_1_l, ?Z.mul_1_r, ?Z.mul_1_l, ?orb_false_r; [done|].
  destruct (Z.leb_spec 0 (n * -1)), (Z.leb_spec (n * -1) (Z.pos p)),
    (Z.leb_spec (Z.neg p) n), (Z.leb_spec n 0); simpl; try done; lia.
Qed.

Lemma between01_spec x : between01 x = true ↔ (0 <= x ∧ x <= 1)%Q.
Proof.
  unfold between01. rewrite andb_true_iff, !Qle_bool_iff. done.
Qed.

(** The parameters of the common point of the two lines, as line 255 and
    line 256 compute them. *)
Definition param_t (p1 p2 p3 p4 : point) : Q :=
  (inject_Z (cross (psub p3 p1) (psub p4 p3))
   / inject_Z (cross (psub p2 p1) (psub p4 p3)))%Q.

Definition param_u (p1 p2 p3 p4 : point) : Q :=
  (inject_Z (cross (psub p3 p1) (psub p2 p1))
   / inject_Z (cross (psub p2 p1) (psub p4 p3)))%Q.

(** The point [p1 + t (p2 - p1)] of the first segment is the point
    [p3 + u (p4 - p3)] of the second. *)
Definition meet_at (p1 p2 p3 p4 : point) (t u : Q) : Prop :=
  (0 <= t ∧ t <= 1 ∧ 0 <= u ∧ u <= 1
   ∧ inject_Z p1.1 + t * (inject_Z p2.1 - inject_Z p1.1)
     == inject_Z p3.1 + u * (inject_Z p4.1 - inject_Z p3.1)
   ∧ inject_Z p1.2 + t * (inject_Z p2.2 - inject_Z p1.2)
     == inject_Z p3.2 + u * (inject_Z p4.2 - inject_Z p3.2))%Q.

Lemma segment_test_oblique p1 p2 p3 p4 :
  cross (psub p2 p1) (psub p4 p3) ≠ 0 ->
  segment_test p1 p2 p3 p4
  = between01 (param_t p1 p2 p3 p4) && between01 (param_u p1 p2 p3 p4)
    && negb (share_an_endpoint p1 p2 p3 p4).
Proof.
  intros Hd. unfold segment_test, param_t, param_u.
  apply Z.eqb_neq in Hd. rewrite Hd, andb_false_r.
  destruct (between01 _ && between01 _); [|done].
  by destruct (share_an_endpoint _ _ _ _).
Qed.

Lemma inject_Z_cross a b c d :
  (inject_Z (cross (a, b) (c, d))
   == inject_Z a * inject_Z d - inject_Z b * inject_Z c)%Q.
Proof.
  unfold cross. simpl. unfold Z.sub.
  rewrite inject_Z_plus, inject_Z_opp, !inject_Z_mult. ring.
Qed.

Lemma inject_Z_sub a b : (inject_Z (a - b) == inject_Z a - inject_Z b)%Q.
Proof. unfold Z.sub. rewrite inject_Z_plus, inject_Z_opp. ring. Qed.

(** The two parameters computed by the code solve the equation of the
    common point. *)
Lemma params_solve p1 p2 p3 p4 :
  cross (psub p2 p1) (psub p4 p3) ≠ 0 ->
  (inject_Z p1.1 + param_t p1 p2 p3 p4 * (inject_Z p2.1 - inject_Z p1.1)
   == inject_Z p3.1 + param_u p1 p2 p3 p4 * (inject_Z p4.1 - inject_Z p3.1)
   ∧ inject_Z p1.2 + param_t p1 p2 p3 p4 * (inject_Z p2.2 - inject_Z p1.2)
     == inject_Z p3.2
        + param_u p1 p2 p3 p4 * (inject_Z p4.2 - inject_Z p3.2))%Q.
Proof.
  intros Hd. unfold param_t, param_u.
  assert (¬ (inject_Z (cross (psub p2 p1) (psub p4 p3)) == 0)%Q) as Hq.
  { intros H. apply Hd. apply (inject_Z_injective _ 0). exact H. }
  revert Hq. unfold psub. simpl. rewrite !inject_Z_cross, !inject_Z_sub.
  intros Hq. split; field; exact Hq.
Qed.

(** Conversely the equation of the common point has no other solution. *)
Lemma params_unique p1 p2 p3 p4 t u :
  cross (psub p2 p1) (psub p4 p3) ≠ 0 ->
  (inject_Z p1.1 + t * (inject_Z p2.1 - inject_Z p1.1)
   == inject_Z p3.1 + u * (inject_Z p4.1 - inject_Z p3.1))%Q ->
  (inject_Z p1.2 + t * (inject_Z p2.2 - inject_Z p1.2)
   == inject_Z p3.2 + u * (inject_Z p4.2 - inject_Z p3.2))%Q ->
  (param_t p1 p2 p3 p4 == t ∧ param_u p1 p2 p3 p4 == u)%Q.
Proof.
  intros Hd Hx Hy. unfold param_t, param_u.
  assert (¬ (inject_Z (cross (psub p2 p1) (psub p4 p3)) == 0)%Q) as Hq.
  { intros H. apply Hd. apply (inject_Z_injective _ 0). exact H. }
  revert Hq. unfold psub. simpl. rewrite !inject_Z_cross, !inject_Z_sub.
  set (x1 := inject_Z p1.1) in *. set (y1 := inject_Z p1.2) in *.
  set (x2 := inject_Z p2.1) in *. set (y2 := inject_Z p2.2) in *.
  set (x3 := inject_Z p3.1) in *. set (y3 := inject_Z p3.2) in *.
  set (x4 := inject_Z p4.1) in *. set (y4 := inject_Z p4.2) in *.
  intros Hq.
  assert (x3 - x1 == t * (x2 - x1) - u * (x4 - x3))%Q as Ha.
  { transitivity (x3 + u * (x4 - x3) - x1 - u * (x4 - x3))%Q; [ring|].
    rewrite <-Hx. ring. }
  assert (y3 - y1 == t * (y2 - y1) - u * (y4 - y3))%Q as Hb.
  { transitivity (y3 + u * (y4 - y3) - y1 - u * (y4 - y3))%Q; [ring|].
    rewrite <-Hy. ring. }
  rewrite Ha, Hb. split; field; exact Hq.
Qed.

(** X8: For two segments that are not parallel and whose end points have
    integer coordinates of absolute value up to 2^24, the test of lines
    255-268 reports a crossing exactly when the segments have a common
    point and the end-point exemption of lines 261-264 does not apply. *)
Theorem oblique_crossing_reported_iff_segments_meet p1 p2 p3 p4 :
  on_grid p1 -> on_grid p2 -> on_grid p3 -> on_grid p4 ->
  cross (psub p2 p1) (psub p4 p3) ≠ 0 ->
  segment_test p1 p2 p3 p4 = true
  ↔ (share_an_endpoint p1 p2 p3 p4 = false
     ∧ ∃ t u, meet_at p1 p2 p3 p4 t u).
Proof.
  intros _ _ _ _ Hd. rewrite (segment_test_oblique _ _ _ _ Hd).
  rewrite !andb_true_iff, negb_true_iff, !between01_spec.
  destruct (params_solve p1 p2 p3 p4 Hd) as [Hx Hy]. split.
  - intros [[[? ?] [? ?]] Hs]. split; [done|].
    exists (param_t p1 p2 p3 p4), (param_u p1 p2 p3 p4).
    unfold meet_at. split_and!; done.
  - intros [Hs (t & u & ? & ? & ? & ? & Hx' & Hy')].
    destruct (params_unique p1 p2 p3 p4 t u Hd Hx' Hy') as [-> ->].
    split_and!; done.
Qed.

Lemma oblique_crossing_reported_iff_segments_meet_witness :
  segment_test (-5, 0) (5, 0) (0, -5) (0, 5) = true
  ↔ (share_an_endpoint (-5, 0) (5, 0) (0, -5) (0, 5) = false
     ∧ ∃ t u, meet_at (-5, 0) (5, 0) (0, -5) (0, 5) t u).
Proof.
  apply (oblique_crossing_reported_iff_segments_meet
           (-5, 0) (5, 0) (0, -5) (0, 5));
    try (unfold on_grid; simpl; lia).
  vm_compute. discriminate.
Defined.

(** ** The rectangle index (lines 204-209, 214-217 and 341-343) *)

(** The index that holds the accepted edges [E] under their boxes. *)
Definition index_of (coords : node -> point) (E : list edge) : Rtree :=
  map (fun e => (make_bounding_box (coords e.1) (coords e.2), e)) E.

Lemma chained_ne_between x1 x2 x3 x4 :
  chained_ne (x3 - x1 <? 0) (x3 - x2 <? 0) (x4 - x1 <? 0) (x4 - x2 <? 0)
  = true ->
  (x1 <= x3 < x2 ∧ x1 <= x4 < x2) ∨ (x2 <= x3 < x1 ∧ x2 <= x4 < x1).
Proof.
  unfold chained_ne.
  destruct (Z.ltb_spec (x3 - x1) 0), (Z.ltb_spec (x3 - x2) 0),
    (Z.ltb_spec (x4 - x1) 0), (Z.ltb_spec (x4 - x2) 0);
    simpl; intros; try discriminate; lia.
Qed.

(** A point of the line through [(x1, y1)] and [(x2, y2)] whose abscissa
    lies between [x1] and [x2] has its ordinate between [y1] and [y2]. *)
Lemma collinear_between x1 y1 x2 y2 x3 y3 :
  (x3 - x1) * (y2 - y1) - (y3 - y1) * (x2 - x1) = 0 ->
  (x1 <= x3 < x2) ∨ (x2 <= x3 < x1) ->
  Z.min y1 y2 <= y3 <= Z.max y1 y2.
Proof.
  intros Hc Hx.
  destruct (Z.le_ge_cases y1 y2);
    [rewrite Z.min_l, Z.max_r by lia|rewrite Z.min_r, Z.max_l by lia];
    destruct Hx; nia.
Qed.

Lemma oblique_boxes x1 x2 x3 x4 d tn un :
  d * x1 + tn * (x2 - x1) = d * x3 + un * (x4 - x3) ->
  (0 < d ∧ 0 <= tn <= d ∧ 0 <= un <= d)
  ∨ (d < 0 ∧ d <= tn <= 0 ∧ d <= un <= 0) ->
  Z.min x3 x4 <= Z.max x1 x2 ∧ Z.min x1 x2 <= Z.max x3 x4.
Proof.
  intros He Hs.
  assert (Z.min x3 x4 <= x3 ∧ Z.min x3 x4 <= x4
          ∧ x1 <= Z.max x1 x2 ∧ x2 <= Z.max x1 x2
          ∧ Z.min x1 x2 <= x1 ∧ Z.min x1 x2 <= x2
          ∧ x3 <= Z.max x3 x4 ∧ x4 <= Z.max x3 x4) as Hb by lia.
  revert Hb.
  generalize (Z.min x3 x4) (Z.max x1 x2) (Z.min x1 x2) (Z.max x3 x4).
  intros m34 M12 m12 M34 (? & ? & ? & ? & ? & ? & ? & ?).
  destruct Hs as [(? & ? & ?)|(? & ? & ?)]; split; nia.
Qed.

(** Two segments for which the test reports a crossing have bounding
    boxes that meet. *)
Lemma crossing_boxes_meet p1 p2 p3 p4 :
  segment_test p1 p2 p3 p4 = true ->
  boxes_meet (make_bounding_box p3 p4) (make_bounding_box p1 p2) = true.
Proof.
  destruct p1 as [x1 y1], p2 as [x2 y2], p3 as [x3 y3], p4 as [x4 y4].
  intros Ht.
  assert ((Z.min x3 x4 <= Z.max x1 x2 ∧ Z.min x1 x2 <= Z.max x3 x4)
          ∧ (Z.min y3 y4 <= Z.max y1 y2 ∧ Z.min y1 y2 <= Z.max y3 y4))
    as [[? ?] [? ?]].
  2:{ unfold boxes_meet, make_bounding_box. simpl.
      rewrite !andb_true_iff, !Z.leb_le. done. }
  destruct (decide (cross (psub (x2, y2) (x1, y1)) (psub (x4, y4) (x3, y3)) = 0))
    as [Hd|Hd].
  - unfold segment_test in Ht. rewrite Hd in Ht. simpl in Ht.
    rewrite andb_true_r in Ht.
    destruct (cross _ _ =? 0) eqn:Hn; [|discriminate].
    apply Z.eqb_eq in Hn. unfold cross, psub in Hn, Hd. simpl in Hn, Hd.
    destruct (overlapping _ _ _ _) eqn:Ho; [|discriminate]. clear Ht.
    unfold overlapping in Ho. simpl in Ho.
    assert ((x3 - x1) * (y2 - y1) - (y3 - y1) * (x2 - x1) = 0) as Hc3 by lia.
    assert ((x4 - x1) * (y2 - y1) - (y4 - y1) * (x2 - x1) = 0) as Hc4 by nia.
    apply orb_true_iff in Ho as [Hx%chained_ne_between|Hy%chained_ne_between].
    + assert (Z.min y1 y2 <= y3 <= Z.max y1 y2)
        by (apply (collinear_between x1 y1 x2 y2 x3 y3); [done|lia]).
      lia.
    + assert (Z.min x1 x2 <= x3 <= Z.max x1 x2)
        by (apply (collinear_between y1 x1 y2 x2 y3 x3); [lia|lia]).
      lia.
  - rewrite (segment_test_oblique _ _ _ _ Hd) in Ht.
    apply andb_true_iff in Ht as [Ht _].
    apply andb_true_iff in Ht as [Ht Hu].
    unfold param_t in Ht. unfold param_u in Hu.
    rewrite between01_div in Ht, Hu by done.
    revert Ht Hu Hd. unfold cross, psub. simpl.
    set (d := (x2 - x1) * (y4 - y3) - (y2 - y1) * (x4 - x3)).
    set (tn := (x3 - x1) * (y4 - y3) - (y3 - y1) * (x4 - x3)).
    set (un := (x3 - x1) * (y2 - y1) - (y3 - y1) * (x2 - x1)).
    intros Ht Hu Hd.
    assert ((0 < d ∧ 0 <= tn <= d ∧ 0 <= un <= d)
            ∨ (d < 0 ∧ d <= tn <= 0 ∧ d <= un <= 0)) as Hs.
    { destruct (Z.ltb_spec 0 d), (Z.ltb_spec d 0),
        (Z.leb_spec 0 tn), (Z.leb_spec tn d), (Z.leb_spec d tn),
        (Z.leb_spec tn 0), (Z.leb_spec 0 un), (Z.leb_spec un d),
        (Z.leb_spec d un), (Z.leb_spec un 0);
        simpl in Ht, Hu; try discriminate; lia. }
    split; apply (oblique_boxes _ _ _ _ d tn un); try done;
      unfold d, tn, un; ring.
Qed.

Section IndexFacts.
Variable coords : node -> point.

(** The rectangle query drops no accepted edge that the segment test
    would report: on the index of [E] the guard is the disjunction of the
    test over all edges of [E]. *)
Lemma line_intersection_index E um vm :
  line_intersection coords (index_of coords E) um vm
  = existsb (fun e => segment_test (coords um) (coords vm)
                        (coords e.1) (coords e.2)) E.
Proof.
  unfold line_intersection, intersection.
  induction E as [|[up vp] E IH]; [done|]. simpl.
  unfold Rtree in *. rewrite filter_cons. simpl.
  destruct (segment_test (coords um) (coords vm) (coords up) (coords vp))
    eqn:Ht.
  - rewrite decide_True by (apply Is_true_true; by apply crossing_boxes_meet).
    simpl. by rewrite Ht.
  - simpl. case_decide; simpl; [rewrite Ht|]; exact IH.
Qed.

End IndexFacts.

Section GuardFacts.
Variable node_mv : node -> Z.
Variable list_of_set : list (entry edge) -> list (entry edge).
Variable coords : node -> point.

Lemma commit_Et st um vm dm st' :
  commit node_mv list_of_set coords st (um, vm, dm) = Return st' ->
  (Et st' = Et st ∧ rtree st' = rtree st)
  ∨ (line_intersection coords (rtree st) um vm = false
     ∧ Et st' = Et st ++ [(um, vm)]
     ∧ rtree st'
       = rtree st
         ++ [(make_bounding_box (coords um) (coords vm), (um, vm))]).
Proof.
  intros Hc. unfold commit in Hc.
  apply bind_Return in Hc as ([ru X1] & Hg1 & Hc).
  apply bind_Return in Hc as ([rv X2] & Hg2 & Hc).
  apply bind_Return in Hc as (mu & _ & Hc).
  case_decide.
  - apply bind_Return in Hc as (mvm & _ & Hc). case_decide.
    + apply bind_Return in Hc as (X3 & Hu & Hc).
      destruct (line_intersection _ _ _ _); injection Hc as <-; simpl; auto.
    + injection Hc as <-; simpl; auto.
  - injection Hc as <-; simpl; auto.
Qed.

(** An edge is only accepted when the guard finds no crossing with the
    edges accepted before it. *)
Definition guarded (st : state) : Prop :=
  rtree st = index_of coords (Et st)
  ∧ ∀ E1 e E2, Et st = E1 ++ e :: E2 ->
      ∀ e', e' ∈ E1 ->
        segment_test (coords e.1) (coords e.2) (coords e'.1) (coords e'.2)
        = false.

Lemma guarded_commit st um vm dm st' :
  guarded st ->
  commit node_mv list_of_set coords st (um, vm, dm) = Return st' ->
  guarded st'.
Proof.
  unfold guarded. intros [Hrt Hcl] Hc.
  destruct (commit_Et _ _ _ _ _ Hc) as [[HE HR]|(Hli & HE & HR)].
  - rewrite HE, HR. done.
  - rewrite HE, HR, Hrt. split.
    { unfold index_of. by rewrite map_app. }
    rewrite Hrt, line_intersection_index in Hli.
    intros E1 e E2 Heq e' He'.
    destruct (decide (E2 = [])) as [->|Hne].
    + apply app_inj_tail in Heq as [<- <-].
      rewrite <-not_true_iff_false, existsb_exists in Hli.
      apply not_true_iff_false. intros Ht. apply Hli.
      exists e'. split; [|done].
      by apply list_elem_of_In.
    + destruct (exists_last Hne) as (E2' & e2 & ->).
      change (E1 ++ e :: E2' ++ [e2]) with (E1 ++ (e :: E2') ++ [e2]) in Heq.
      rewrite app_assoc in Heq.
      apply app_inj_tail in Heq as [Heq _]. eauto.
Qed.

(** The accepted edges and the index grow together in a run. *)
Lemma reachable_guarded U st :
  reachable node_mv list_of_set coords U st -> guarded st.
Proof.
  induction 1 as [| U st x r X' _ IH Hg | U st h q _ IH Hh
                  | U st um vm dm st' _ IH Hun Hc
                  | U st um vm dm st' _ IH Hun Hc];
    eauto using guarded_commit.
  split; [done|]. simpl. intros E1 e E2 Heq. by destruct E1.
Qed.

End GuardFacts.

Lemma plus_coords_on_grid n : on_grid (plus_coords n).
Proof.
  unfold on_grid. do 3 (destruct n as [|n]; [simpl; lia|]). simpl. lia.
Qed.

(** X9: When all nodes have integer coordinates of absolute value up to
    2^24, in every state of a run the guard of line 340 looks at every
    accepted edge: the rectangle index holds exactly the accepted edges,
    and its answer is the disjunction of the segment test over all of
    them. *)
Theorem guard_scans_every_accepted_edge
    node_mv list_of_set coords U st um vm :
  (∀ n, on_grid (coords n)) ->
  reachable node_mv list_of_set coords U st ->
  rtree st = index_of coords (Et st)
  ∧ line_intersection coords (rtree st) um vm
    = existsb (fun e => segment_test (coords um) (coords vm)
                          (coords e.1) (coords e.2)) (Et st).
Proof.
  intros _ [Hrt _]%reachable_guarded. split; [done|].
  rewrite Hrt. apply line_intersection_index.
Qed.

Lemma guard_scans_every_accepted_edge_witness :
  rtree plus_state = index_of plus_coords (Et plus_state)
  ∧ line_intersection plus_coords (rtree plus_state) 2%nat 3%nat
    = existsb (fun e => segment_test (plus_coords 2%nat) (plus_coords 3%nat)
                          (plus_coords e.1) (plus_coords e.2))
        (Et plus_state).
Proof.
  apply (guard_scans_every_accepted_edge ample_mv keep_order plus_coords
           [(0, 1); (2, 3)]%nat plus_state 2%nat 3%nat).
  - apply plus_coords_on_grid.
  - exact plus_state_reachable.
Defined.

(** X10: When all nodes have integer coordinates of absolute value up to
    2^24, in every state of a run two accepted edges that are not parallel
    have no common point, unless exactly one end point of one is an end
    point of the other. *)
Theorem accepted_edges_do_not_cross
    node_mv list_of_set coords U st E1 e' E2 e E3 t u :
  (∀ n, on_grid (coords n)) ->
  reachable node_mv list_of_set coords U st ->
  Et st = E1 ++ e' :: E2 ++ e :: E3 ->
  cross (psub (coords e.2) (coords e.1)) (psub (coords e'.2) (coords e'.1))
  ≠ 0 ->
  meet_at (coords e.1) (coords e.2) (coords e'.1) (coords e'.2) t u ->
  share_an_endpoint (coords e.1) (coords e.2) (coords e'.1) (coords e'.2)
  = true.
Proof.
  intros _ [_ Hcl]%reachable_guarded Heq Hd Hm.
  assert (segment_test (coords e.1) (coords e.2) (coords e'.1) (coords e'.2)
          = false) as Hf.
  { apply (Hcl (E1 ++ e' :: E2) e E3); [by rewrite <-app_assoc|].
    rewrite elem_of_app, elem_of_cons; auto. }
  clear Hcl. rename Hf into Hcl.
  rewrite (segment_test_oblique _ _ _ _ Hd) in Hcl.
  destruct Hm as (? & ? & ? & ? & Hx & Hy).
  destruct (params_unique _ _ _ _ t u Hd Hx Hy) as [Ht Hu].
  assert (between01 (param_t (coords e.1) (coords e.2) (coords e'.1)
                       (coords e'.2)) = true) as Hbt
    by (apply between01_spec; rewrite Ht; done).
  assert (between01 (param_u (coords e.1) (coords e.2) (coords e'.1)
                       (coords e'.2)) = true) as Hbu
    by (apply between01_spec; rewrite Hu; done).
  rewrite Hbt, Hbu in Hcl. simpl in Hcl.
  by apply negb_false_iff in Hcl.
Qed.

Lemma accepted_edges_do_not_cross_witness :
  share_an_endpoint (plus_coords 1%nat) (plus_coords 2%nat)
    (plus_coords 0%nat) (plus_coords 2%nat) = true.
Proof.
  apply (accepted_edges_do_not_cross ample_mv keep_order plus_coords
           [(0, 2); (1, 2)]%nat
           (after ample_mv keep_order plus_coords (1%nat, 2%nat, 10)
              (after ample_mv keep_order plus_coords (0%nat, 2%nat, 10) start))
           [] (0, 2)%nat [] (1, 2)%nat [] 1%Q 1%Q).
  - apply plus_coords_on_grid.
  - eapply (reach_union _ _ _ [(0, 2)]%nat _ 1%nat 2%nat 10).
    + eapply (reach_union _ _ _ [] _ 0%nat 2%nat 10).
      * apply reach_start.
      * by_unites.
      * vm_compute. reflexivity.
    + by_unites.
    + vm_compute. reflexivity.
  - vm_compute. reflexivity.
  - vm_compute. discriminate.
  - unfold meet_at. split_and!; vm_compute; (reflexivity || discriminate).
Defined.

(** ** The end-point exemption (lines 242-247 and 260-265) *)

(** X11: Whatever else holds of two segments, no crossing is reported when
    exactly one end point of the candidate is an end point of the accepted
    segment (the segments may even run along each other). *)
Theorem shared_endpoint_never_blocks p1 p2 p3 p4 :
  share_an_endpoint p1 p2 p3 p4 = true ->
  segment_test p1 p2 p3 p4 = false.
Proof.
  intros Hs. unfold segment_test. rewrite Hs.
  repeat (case_match; try done).
Qed.

Lemma shared_endpoint_never_blocks_witness :
  segment_test (0, 0) (10, 0) (0, 0) (5, 0) = false.
Proof.
  apply (shared_endpoint_never_blocks (0, 0) (10, 0) (0, 0) (5, 0)).
  vm_compute. reflexivity.
Defined.

(** X12: A candidate that runs between the end points of an accepted edge, in
    the same or in the opposite direction, is never reported as crossing
    that edge. *)
Theorem repeated_edge_is_not_a_crossing p1 p2 :
  segment_test p1 p2 p1 p2 = false ∧ segment_test p1 p2 p2 p1 = false.
Proof.
  destruct p1 as [x1 y1], p2 as [x2 y2].
  unfold segment_test, cross, psub, overlapping, chained_ne. simpl.
  replace ((x1 - x1) * (y2 - y1) - (y1 - y1) * (x2 - x1)) with 0 by ring.
  replace ((x2 - x1) * (y2 - y1) - (y2 - y1) * (x2 - x1)) with 0 by ring.
  replace ((x2 - x1) * (y1 - y2) - (y2 - y1) * (x1 - x2)) with 0 by ring.
  replace ((x2 - x1) * (y2 - y1) - (y2 - y1) * (x2 - x1)) with 0 by ring.
  simpl. rewrite !Z.sub_diag. simpl.
  destruct (x1 - x2 <? 0), (x2 - x1 <? 0), (y1 - y2 <? 0), (y2 - y1 <? 0);
    simpl; done.
Qed.

(** ** PriorityQueue (lines 112-134) *)

Section QueueFacts.
Context {A : Type}.
Implicit Types (l heap : list (entry A)) (q : PriorityQueue A).

(** Overwriting a slot is replacing one entry. *)
Lemma insert_Permutation l k v :
  (k < length l)%nat -> <[k := v]> l ≡ₚ v :: delete k l.
Proof.
  revert k. induction l as [|a l IH]; intros k Hk; simpl in *; [lia|].
  destruct k as [|k]; simpl; [done|].
  rewrite IH by lia. apply perm_swap.
Qed.

(** Moving the entry of slot [j] into slot [i] and putting [x] into slot
    [j] gives the same entries as putting [x] into slot [i]. *)
Lemma hole_moves l i j x y :
  l !! j = Some y -> (i < length l)%nat -> i ≠ j ->
  <[j := x]> (<[i := y]> l) ≡ₚ <[i := x]> l.
Proof.
  intros Hj Hi Hne.
  assert (j < length l)%nat as Hjl by (by eapply lookup_lt_Some).
  rewrite (insert_Permutation (<[i := y]> l) j x)
    by (by rewrite length_insert).
  rewrite (insert_Permutation l i x) by done.
  apply Permutation_cons; [done|].
  apply (Permutation_cons_inv (a := y)).
  rewrite <-(insert_Permutation l i y) by done.
  symmetry. apply delete_Permutation.
  by rewrite list_lookup_insert_ne.
Qed.

Lemma siftdown_loop_Permutation fuel : ∀ heap startpos pos newitem,
  (pos < length heap)%nat ->
  siftdown_loop fuel heap startpos pos newitem ≡ₚ <[pos := newitem]> heap.
Proof.
  induction fuel as [|fuel IH]; intros heap startpos pos newitem Hpos;
    [done|].
  cbn [siftdown_loop].
  destruct (Nat.ltb_spec startpos pos) as [Hlt|]; [|done].
  destruct (heap !! _) as [parent|] eqn:Hp; [|done].
  destruct (entry_lt newitem parent); [|done].
  assert ((pos - 1) / 2 < pos)%nat as Hpar.
  { apply Nat.Div0.div_lt_upper_bound. lia. }
  rewrite IH by (rewrite length_insert; lia).
  apply hole_moves; [done|done|lia].
Qed.

Lemma _siftdown_Permutation heap startpos pos :
  _siftdown heap startpos pos ≡ₚ heap.
Proof.
  unfold _siftdown. destruct (heap !! pos) as [newitem|] eqn:Hp; [|done].
  rewrite siftdown_loop_Permutation by (by eapply lookup_lt_Some).
  by rewrite list_insert_id.
Qed.

Lemma siftup_loop_Permutation fuel : ∀ heap pos heap' pos' newitem,
  (pos < length heap)%nat ->
  siftup_loop fuel heap pos = (heap', pos') ->
  (pos' < length heap')%nat
  ∧ <[pos' := newitem]> heap' ≡ₚ <[pos := newitem]> heap.
Proof.
  induction fuel as [|fuel IH]; intros heap pos heap' pos' newitem Hpos Hl;
    cbn [siftup_loop] in Hl.
  { by injection Hl as <- <-. }
  destruct (Nat.ltb_spec (2 * pos + 1) (length heap)) as [Hlt|];
    [|by injection Hl as <- <-].
  set (childpos' :=
         match heap !! (2 * pos + 1)%nat, heap !! (2 * pos + 1 + 1)%nat with
         | Some l, Some r =>
             if entry_lt l r then (2 * pos + 1)%nat else (2 * pos + 1 + 1)%nat
         | _, _ => (2 * pos + 1)%nat
         end) in *.
  assert (pos < childpos')%nat as Hc.
  { unfold childpos'. repeat case_match; lia. }
  destruct (heap !! childpos') as [c|] eqn:Hch; [|by injection Hl as <- <-].
  apply (IH _ _ _ _ newitem) in Hl as [Hlen Hperm].
  2:{ rewrite length_insert. by eapply lookup_lt_Some. }
  split; [done|]. rewrite Hperm. apply hole_moves; [done|done|lia].
Qed.

Lemma _siftup_Permutation heap pos : _siftup heap pos ≡ₚ heap.
Proof.
  unfold _siftup. destruct (heap !! pos) as [newitem|] eqn:Hp; [|done].
  destruct (siftup_loop _ _ _) as [heap' pos'] eqn:Hl.
  apply (siftup_loop_Permutation _ _ _ _ _ newitem) in Hl as [_ Hperm];
    [|by eapply lookup_lt_Some].
  rewrite _siftdown_Permutation, Hperm. by rewrite list_insert_id.
Qed.

Lemma heappush_Permutation heap item : heappush heap item ≡ₚ item :: heap.
Proof.
  unfold heappush. rewrite _siftdown_Permutation.
  by rewrite Permutation_app_comm.
Qed.

Lemma heappop_Permutation heap e heap' :
  heappop heap = Some (e, heap') -> heap ≡ₚ e :: heap'.
Proof.
  unfold heappop. destruct (last heap) as [lastelt|] eqn:Hlast; [|done].
  apply last_Some in Hlast as [rest ->]. rewrite removelast_last.
  destruct rest as [|returnitem rest]; intros [= <- <-].
  - done.
  - rewrite _siftup_Permutation. simpl.
    apply Permutation_cons; [done|]. symmetry.
    apply Permutation_cons_append.
Qed.

Lemma heappop_None heap : heappop heap = None ↔ heap = [].
Proof.
  unfold heappop. split; [|by intros ->].
  destruct (last heap) as [lastelt|] eqn:Hlast.
  - by destruct (removelast heap).
  - intros _. by apply last_None.
Qed.

End QueueFacts.

(** X13: [push] adds exactly the entry made of the priority, the running index
    and the item, and advances the index; a [pop] that returns takes
    exactly one entry out, returns its item and leaves the index; [pop]
    fails exactly on the empty queue, where [top] answers [None]; and
    otherwise [top] shows the item that [pop] would return. *)
Theorem push_and_pop_move_one_entry {A} (q : PriorityQueue A) :
  (∀ item priority,
     _queue (push q item priority) ≡ₚ (priority, _index q, item) :: _queue q
     ∧ _index (push q item priority) = S (_index q))
  ∧ (∀ item q', pop q = Some (item, q') ->
       ∃ e, entry_item e = item ∧ _queue q ≡ₚ e :: _queue q'
            ∧ _index q' = _index q)
  ∧ (pop q = None ↔ _queue q = [])
  ∧ top q = fst <$> pop q.
Proof.
  split_and!.
  - intros item priority. split; [apply heappush_Permutation|done].
  - intros item q' Hp. unfold pop in Hp.
    destruct (heappop (_queue q)) as [[e heap']|] eqn:Hh; [|done].
    injection Hp as <- <-. exists e. simpl.
    split_and!; auto using heappop_Permutation.
  - unfold pop. rewrite <-heappop_None.
    destruct (heappop (_queue q)) as [[e heap']|]; done.
  - unfold top, pop, heappop. destruct (_queue q) as [|e heap]; [done|].
    destruct (last (e :: heap)) as [lastelt|] eqn:Hlast.
    2:{ by apply last_None in Hlast. }
    destruct heap as [|e' heap]; simpl in *; [by injection Hlast as ->|].
    done.
Qed.

(** ** PriorityQueue.merge (lines 124-128) *)

(** The entries of a queue carry distinct indices below its running
    index. *)
Definition fresh_indices {A} (q : PriorityQueue A) : Prop :=
  NoDup (entry_index <$> _queue q)
  ∧ ∀ e, e ∈ _queue q -> (entry_index e < _index q)%nat.

(** What a queue holds, indices aside. *)
Definition content {A} (l : list (entry A)) : list (Z * A) :=
  (fun e => (entry_priority e, entry_item e)) <$> l.

Lemma fresh_indices_push {A} (q : PriorityQueue A) item priority :
  fresh_indices q -> fresh_indices (push q item priority).
Proof.
  intros [Hnd Hlt]. unfold fresh_indices, push. simpl.
  pose proof (heappush_Permutation (_queue q) (priority, _index q, item))
    as Hp.
  split.
  - rewrite Hp. simpl. constructor; [|done].
    intros (e & He & Hin)%list_elem_of_fmap.
    apply Hlt in Hin. unfold entry_index in *. simpl in *. lia.
  - intros e. rewrite Hp, elem_of_cons. intros [->|He].
    + unfold entry_index. simpl. lia.
    + apply Hlt in He. lia.
Qed.

Lemma merge_loop_drains {A} fuel : ∀ (self : PriorityQueue A) other self' rest,
  (length other <= fuel)%nat ->
  fresh_indices self ->
  merge_loop fuel self other = (self', rest) ->
  rest = []
  ∧ content (_queue self') ≡ₚ content (_queue self) ++ content other
  ∧ fresh_indices self'
  ∧ _index self' = (_index self + length other)%nat.
Proof.
  induction fuel as [|fuel IH]; intros self other self' rest Hlen Hf Hm;
    simpl in Hm.
  - injection Hm as <- <-. destruct other; simpl in *; [|lia].
    rewrite app_nil_r. split_and!; auto.
  - destruct (heappop other) as [[e other']|] eqn:Hpop.
    + apply heappop_Permutation in Hpop.
      apply IH in Hm as (-> & Hc & Hf' & Hi).
      * split; [done|]. split; [|split; [done|]].
        -- rewrite Hc. unfold content, push. simpl.
           rewrite heappush_Permutation, Hpop. simpl.
           rewrite <-Permutation_middle. done.
        -- rewrite Hi, Hpop. simpl. lia.
      * rewrite Hpop in Hlen. simpl in Hlen. lia.
      * by apply fresh_indices_push.
    + apply heappop_None in Hpop as ->. injection Hm as <- <-.
      simpl. rewrite app_nil_r. split_and!; auto.
Qed.

(** X14: [merge] empties [other]; the surviving queue holds the priorities
    and items of both queues, provided the list made from a set of
    distinct entries holds each of them once; its entries again carry
    distinct indices below its running index. *)
Theorem merge_moves_every_entry {A}
    (list_of_set : list (entry A) -> list (entry A)) self other :
  (∀ l, NoDup l -> list_of_set l ≡ₚ l) ->
  fresh_indices self ->
  _queue (merge list_of_set self other).2 = []
  ∧ content (_queue (merge list_of_set self other).1)
    ≡ₚ content (_queue self) ++ content (_queue other)
  ∧ fresh_indices (merge list_of_set self other).1.
Proof.
  intros Hset Hf. unfold merge.
  destruct (merge_loop _ _ _) as [self' rest] eqn:Hm.
  apply merge_loop_drains in Hm as (-> & Hc & [Hnd Hlt] & Hi); [|done|done].
  simpl. assert (list_of_set (_queue self') ≡ₚ _queue self') as Hp.
  { apply Hset. by eapply NoDup_fmap_1. }
  split; [done|]. split.
  - unfold content in *. by rewrite Hp.
  - unfold fresh_indices. simpl. split.
    + by rewrite Hp.
    + intros e. rewrite Hp. apply Hlt.
Qed.

Lemma merge_moves_every_entry_witness :
  _queue (merge listed_backwards small_queue other_queue).2 = []
  ∧ content (_queue (merge listed_backwards small_queue other_queue).1)
    ≡ₚ content (_queue small_queue) ++ content (_queue other_queue)
  ∧ fresh_indices (merge listed_backwards small_queue other_queue).1.
Proof.
  apply (merge_moves_every_entry listed_backwards small_queue other_queue).
  - intros l _. unfold listed_backwards. symmetry. apply Permutation_rev.
  - split.
    + vm_compute. apply NoDup_singleton.
    + intros e [->|[]%elem_of_nil]%elem_of_cons. vm_compute. lia.
Defined.

(** ** The commit phase (lines 329-352) *)

Lemma pop_length {A} (q : PriorityQueue A) item q' :
  pop q = Some (item, q') -> length (_queue q) = S (length (_queue q')).
Proof.
  unfold pop. destruct (heappop (_queue q)) as [[e heap']|] eqn:Hh; [|done].
  intros [= <- <-]. apply heappop_Permutation in Hh.
  by rewrite Hh.
Qed.

Section CommitPhase.
Variable node_mv : node -> Z.
Variable list_of_set : list (entry edge) -> list (entry edge).
Variable coords : node -> point.

(** One iteration of the commit loop, started in a state of a run,
    returns a state of a run; the candidates unioned so far and the
    accepted edges are extended at their ends, if at all. *)
Lemma commit_step U st c :
  reachable node_mv list_of_set coords U st ->
  ∃ U' st', commit node_mv list_of_set coords st c = Return st'
    ∧ reachable node_mv list_of_set coords U' st'
    ∧ U `prefix_of` U' ∧ Et st `prefix_of` Et st'.
Proof.
  destruct c as [[um vm] dm]. intros HU.
  destruct (commit_cases node_mv list_of_set coords st um vm dm)
    as (ru & X1 & rv & X2 & mu & mvm & Hg1 & Hg2 & _ & _ & _ & _ & _
        & Hmu & Hmvm & Hcases).
  { apply (inv_wf _ _ (reachable_inv _ _ _ _ _ HU)). }
  pose proof (unites_cases node_mv st um vm dm _ _ _ _ _ _
                Hg1 Hg2 Hmu Hmvm) as Hiff.
  assert (∃ st', commit node_mv list_of_set coords st (um, vm, dm)
                 = Return st') as [st' Hc].
  { destruct Hcases as [(_ & _ & _ & X3 & r & h & _ & _ & _ & _ & _ & Hc)
                       |[(_ & _ & _ & Hc)|(_ & Hc)]]; eauto. }
  assert (Et st `prefix_of` Et st') as HEt.
  { destruct (commit_Et _ _ _ _ _ _ _ _ Hc) as [[-> _]|(_ & -> & _)];
      [done|by apply prefix_app_r]. }
  destruct (decide (ru ≠ rv ∧ dm <= mu ∧ dm <= mvm)) as [Hyes|Hno].
  - exists (U ++ [(um, vm)]), st'. split_and!; [done| |by apply prefix_app_r|done].
    eapply reach_union; eauto. by apply Hiff.
  - exists U, st'. split_and!; [done| |done|done].
    eapply reach_skip; eauto. by rewrite Hiff.
Qed.

Lemma commit_loop_completes fuel : ∀ Ep U st,
  reachable node_mv list_of_set coords U st ->
  (length (_queue Ep) <= fuel)%nat ->
  ∃ U' st',
    commit_loop node_mv list_of_set coords fuel Ep st = Return st'
    ∧ commit_loop node_mv list_of_set coords (length (_queue Ep)) Ep st
      = Return st'
    ∧ reachable node_mv list_of_set coords U' st'
    ∧ U `prefix_of` U' ∧ Et st `prefix_of` Et st'.
Proof.
  induction fuel as [|fuel IH]; intros Ep U st HU Hlen.
  - assert (length (_queue Ep) = 0)%nat as -> by lia.
    exists U, st. by split_and!.
  - simpl. destruct (pop Ep) as [[c Ep']|] eqn:Hpop.
    + pose proof (pop_length _ _ _ Hpop) as Hl. rewrite Hl. simpl.
      rewrite Hpop.
      destruct (commit_step U st c HU) as (U1 & st1 & -> & HU1 & HUU & HEE).
      simpl.
      destruct (IH Ep' U1 st1 HU1) as (U' & st' & -> & -> & HU' & H1 & H2);
        [lia|].
      exists U', st'. split_and!; auto; by etrans.
    + exists U, st.
      assert (_queue Ep = []) as Hq.
      { unfold pop in Hpop.
        destruct (heappop (_queue Ep)) as [[e h]|] eqn:Hh; [done|].
        by apply heappop_None. }
      rewrite Hq. by split_and!.
Qed.

End CommitPhase.

(** X15: Started in a state of a run, the commit phase of a round never
    raises and never runs short: it pops every candidate of [Ep], and it
    ends in a state of a run in which the accepted edges of before are the
    first accepted edges. *)
Theorem commit_phase_completes
    node_mv list_of_set coords U st Ep fuel :
  reachable node_mv list_of_set coords U st ->
  (length (_queue Ep) <= fuel)%nat ->
  ∃ U' st',
    P2 node_mv list_of_set coords Ep st = Return st'
    ∧ commit_loop node_mv list_of_set coords fuel Ep st = Return st'
    ∧ reachable node_mv list_of_set coords U' st'
    ∧ U `prefix_of` U' ∧ Et st `prefix_of` Et st'.
Proof.
  intros HU Hlen.
  destruct (commit_loop_completes node_mv list_of_set coords fuel Ep U st
              HU Hlen) as (U' & st' & H1 & H2 & H3 & H4 & H5).
  exists U', st'. by split_and!.
Qed.

Lemma commit_phase_completes_witness :
  ∃ U' st',
    P2 ample_mv keep_order plus_coords
      (push pq_new (0%nat, 3%nat, 2) 2) plus_state = Return st'
    ∧ commit_loop ample_mv keep_order plus_coords 4
        (push pq_new (0%nat, 3%nat, 2) 2) plus_state = Return st'
    ∧ reachable ample_mv keep_order plus_coords U' st'
    ∧ [(0, 1); (2, 3)]%nat `prefix_of` U'
    ∧ Et plus_state `prefix_of` Et st'.
Proof.
  apply (commit_phase_completes ample_mv keep_order plus_coords
           [(0, 1); (2, 3)]%nat plus_state
           (push pq_new (0%nat, 3%nat, 2) 2) 4).
  - exact plus_state_reachable.
  - vm_compute. lia.
Defined.

(** ** UnionFind.connected_components (lines 103-105) *)

Section Components.
Variable node_mv : node -> Z.
Variable iter_set : list node -> list node.

Lemma collect_roots keys : ∀ acc X,
  wf_uf X ->
  ∃ roots X',
    for_each
      (fun (acc : list node * UnionFind) r =>
         '(root, X1) ← getitem node_mv acc.2 r;
         Return (acc.1 ++ [root], X1))
      (acc, X) keys = Return (acc ++ roots, X')
    ∧ wf_uf X'
    ∧ Forall2 (fun k r => root_of (parents X') k r) keys roots
    ∧ (∀ y s, root_of (parents X) y s -> root_of (parents X') y s)
    ∧ (∀ y, is_Some (parents X' !! y) -> is_Some (parents X !! y) ∨ y ∈ keys).
Proof.
  induction keys as [|k keys IH]; intros acc X Hwf; simpl.
  - exists [], X. rewrite app_nil_r. split_and!; auto.
  - destruct (getitem_total node_mv X k Hwf)
      as (r & X1 & -> & Hwf1 & Hr & Hk & _ & _ & Hd).
    simpl.
    destruct (IH (acc ++ [r]) X1 Hwf1) as (roots & X' & -> & Hwf' & Hall & Hk' & Hd').
    exists (r :: roots), X'. rewrite <-app_assoc. simpl.
    split_and!; auto.
    intros y [Hy| Hy]%Hd'; [|right; by right].
    apply Hd in Hy as [?| ->]; [by left|right; by left].
Qed.

End Components.

(** X16: In a well-formed structure [connected_components] returns; what it
    returns is the set made of the root of every listed node, in the
    order of listing before the set is built, and no node has changed its
    root. *)
Theorem connected_components_lists_roots node_mv iter_set X keys :
  wf_uf X ->
  ∃ roots X',
    connected_components node_mv iter_set X keys
    = Return (iter_set roots, X')
    ∧ wf_uf X'
    ∧ Forall2 (fun k r => root_of (parents X') k r) keys roots
    ∧ (∀ y s, root_of (parents X) y s -> root_of (parents X') y s).
Proof.
  intros Hwf. unfold connected_components.
  destruct (collect_roots node_mv keys [] X Hwf)
    as (roots & X' & -> & Hwf' & Hall & Hk & _).
  exists roots, X'. simpl. by split_and!.
Qed.

Lemma connected_components_lists_roots_witness :
  ∃ roots X',
    connected_components ample_mv remove_dups (subgraphs plus_state)
      [0; 1; 2; 3]%nat
    = Return (remove_dups roots, X')
    ∧ wf_uf X'
    ∧ Forall2 (fun k r => root_of (parents X') k r) [0; 1; 2; 3]%nat roots
    ∧ (∀ y s, root_of (parents (subgraphs plus_state)) y s ->
              root_of (parents X') y s).
Proof.
  apply (connected_components_lists_roots ample_mv remove_dups
           (subgraphs plus_state) [0; 1; 2; 3]%nat).
  exact (inv_wf _ _ (reachable_inv _ _ _ _ _ plus_state_reachable)).
Defined.

(** ** The initialisation loop (lines 284-290) *)

(** Every registered node is the root of its own set and owns a queue
    that is not empty and holds only edges from that node to nodes of
    [V]. *)
Definition singletons_with_queues (V : list node) (X : UnionFind) : Prop :=
  ∀ v p, parents X !! v = Some p ->
    p = v ∧ v ∈ V
    ∧ queues X !! v = Some v
    ∧ ∃ q, heap X !! v = Some q ∧ _queue q ≠ []
           ∧ ∀ e, e ∈ _queue q ->
               (entry_item e).1 = v ∧ (entry_item e).2 ∈ V.

Lemma FNNd_returns_in neighbours fuel k_cache A b a k_cache' :
  FNNd neighbours fuel k_cache A b = Return (a, k_cache') -> a ∈ A.
Proof.
  unfold FNNd. intros ([a' k'] & Hl & H)%bind_Return.
  injection H as <- <-. by apply FNNd_loop_allowed in Hl as [? _].
Qed.

Section Initialisation.
Variable node_mv : node -> Z.
Variable coords : node -> point.
Variable neighbours : point -> list node.

Lemma init_node_singletons fuel V X kc v X' kc' :
  v ∈ V ->
  (∀ x, x ∈ dom (heap X) -> is_Some (parents X !! x)) ->
  singletons_with_queues V X ->
  init_node node_mv coords neighbours fuel V (X, kc) v = Return (X', kc') ->
  (∀ x, x ∈ dom (heap X') -> is_Some (parents X' !! x))
  ∧ singletons_with_queues V X'
  ∧ (∀ x, is_Some (parents X' !! x) ↔ is_Some (parents X !! x) ∨ x = v).
Proof.
  intros Hv Hdom Hs Hi. unfold init_node in Hi.
  apply bind_Return in Hi as ([vm kc1] & Hf & Hi).
  apply FNNd_returns_in in Hf.
  apply bind_Return in Hi as ([root X1] & Hg & Hi).
  apply bind_Return in Hi as ([h q] & Hq & Hi).
  injection Hi as <- <-.
  assert (∀ q0 : PriorityQueue edge,
    (∀ e, e ∈ _queue q0 -> (entry_item e).1 = v ∧ (entry_item e).2 ∈ V) ->
    _queue (push q0 (v, vm) (sq_dist (coords v) (coords vm))) ≠ []
    ∧ ∀ e, e ∈ _queue (push q0 (v, vm) (sq_dist (coords v) (coords vm))) ->
        (entry_item e).1 = v ∧ (entry_item e).2 ∈ V) as Hpush.
  { intros q0 Hq0.
    assert (_queue (push q0 (v, vm) (sq_dist (coords v) (coords vm)))
            ≡ₚ (sq_dist (coords v) (coords vm), _index q0, (v, vm))
               :: _queue q0) as Hp by apply heappush_Permutation.
    split.
    - intros Hnil. rewrite Hnil in Hp.
      by apply Permutation_nil_cons in Hp.
    - intros e. rewrite Hp, elem_of_cons. intros [->|He]; [done|auto]. }
  destruct (parents X !! v) as [p|] eqn:Hpv.
  - destruct (Hs v p Hpv) as (-> & _ & Hqv & q0 & Hh0 & Hne0 & Hall0).
    rewrite (getitem_compressed node_mv X v v Hpv Hpv) in Hg.
    injection Hg as <- <-.
    unfold queue_at in Hq. rewrite (read_Some _ _ _ Hqv) in Hq. simpl in Hq.
    rewrite (read_Some _ _ _ Hh0) in Hq. simpl in Hq. injection Hq as <- <-.
    simpl. split_and!.
    3:{ intros x. split; [auto|]. intros [?| ->]; eauto. }
    + intros x. rewrite dom_insert, elem_of_union, elem_of_singleton.
      intros [->|Hx]; [eauto|auto].
    + intros x p Hx. destruct (Hs x p Hx) as (-> & Hxv & Hqx & q1 & Hh1 & Hq1).
      split_and!; auto. simpl.
      destruct (decide (x = v)) as [->|Hne].
      * rewrite lookup_insert_eq. eexists. split; [done|].
        apply Hpush. assert (q1 = q0) as -> by congruence. done.
      * rewrite lookup_insert_ne by done. eauto.
  - unfold getitem in Hg. rewrite Hpv in Hg. injection Hg as <- <-.
    unfold queue_at in Hq. simpl in Hq.
    rewrite (read_Some (<[v:=v]> (queues X)) v v) in Hq
      by apply lookup_insert_eq.
    simpl in Hq.
    rewrite (read_Some (<[v:=pq_new]> (heap X)) v pq_new) in Hq
      by apply lookup_insert_eq.
    simpl in Hq. injection Hq as <- <-.
    simpl. split_and!.
    + intros x. rewrite !dom_insert, !elem_of_union, !elem_of_singleton.
      intros [->|[->|Hx]]; try (rewrite lookup_insert_eq; eauto).
      apply insert_is_Some. auto.
    + intros x p Hx. simpl in *. destruct (decide (x = v)) as [->|Hne].
      * rewrite lookup_insert_eq in Hx. injection Hx as <-.
        rewrite !lookup_insert_eq. split_and!; auto.
        eexists. split; [done|]. apply Hpush.
        intros e He. inversion He.
      * rewrite lookup_insert_ne in Hx by done.
        rewrite !lookup_insert_ne by done. by apply Hs.
    + intros x. destruct (decide (x = v)) as [->|Hne].
      * rewrite lookup_insert_eq. split; eauto.
      * rewrite lookup_insert_ne by done. split; [auto|].
        intros [?|?]; done.
Qed.

Lemma init_loop_singletons fuel V l : ∀ X kc X' kc',
  (∀ v, v ∈ l -> v ∈ V) ->
  (∀ x, x ∈ dom (heap X) -> is_Some (parents X !! x)) ->
  singletons_with_queues V X ->
  for_each (init_node node_mv coords neighbours fuel V) (X, kc) l
  = Return (X', kc') ->
  singletons_with_queues V X'
  ∧ (∀ x, is_Some (parents X' !! x) ↔ is_Some (parents X !! x) ∨ x ∈ l).
Proof.
  induction l as [|v l IH]; intros X kc X' kc' Hl Hdom Hs Hf; simpl in Hf.
  - injection Hf as <- <-. split; [done|]. intros x.
    rewrite elem_of_nil. tauto.
  - apply bind_Return in Hf as ([X1 kc1] & Hi & Hf).
    apply init_node_singletons in Hi as (Hdom1 & Hs1 & Hd1);
      [|apply Hl; left|done|done].
    apply IH in Hf as [Hs' Hd']; [|intros; apply Hl; by right|done|done].
    split; [done|]. intros x. rewrite Hd', Hd1, elem_of_cons. tauto.
Qed.

End Initialisation.

(** X17: When the initialisation loop of [modBoruvka] returns, the registered
    nodes are exactly the nodes of [V]; each is the root of its own set
    and owns a queue that is not empty and holds only edges from that
    node to nodes of [V]. *)
Theorem initialisation_makes_singletons
    node_mv coords neighbours fuel V k_cache X k_cache' :
  for_each (init_node node_mv coords neighbours fuel V)
    (empty_UnionFind, k_cache) V = Return (X, k_cache') ->
  (∀ x, is_Some (parents X !! x) ↔ x ∈ V)
  ∧ singletons_with_queues V X.
Proof.
  intros Hf.
  apply init_loop_singletons in Hf as [Hs Hd]; [|done| |].
  - split; [|done]. intros x. rewrite Hd. simpl. rewrite lookup_empty.
    split; [intros [[? [=]]|?]; done|auto].
  - intros x. simpl. rewrite dom_empty. by intros ?%elem_of_empty.
  - intros v p. simpl. by rewrite lookup_empty.
Qed.

Lemma initialisation_makes_singletons_witness :
  ∃ X k_cache',
    for_each (init_node ample_mv line_coords line_neighbours 5 [0; 1; 2]%nat)
      (empty_UnionFind, ∅) [0; 1; 2]%nat = Return (X, k_cache')
    ∧ (∀ x, is_Some (parents X !! x) ↔ x ∈ [0; 1; 2]%nat)
    ∧ singletons_with_queues [0; 1; 2]%nat X.
Proof.
  eexists _, _. split; [vm_compute; reflexivity|].
  eapply (initialisation_makes_singletons ample_mv line_coords line_neighbours
            5 [0; 1; 2]%nat ∅).
  vm_compute. reflexivity.
Defined.

(** ** The gathering of candidates (lines 299-326) *)

Section Gathering.
Variable node_mv : node -> Z.
Variable coords : node -> point.
Variable neighbours : point -> list node.
Variable hav_dist : point -> point -> outcome Z.

(** The loop of lines 316-321 only touches queue objects, and the edge
    it ends with leads out of the member list it was given. *)
Lemma refresh_top_leaves fuel gas : ∀ C members djointVC X kc v vm X' kc' v' vm',
  refresh_top coords neighbours fuel gas C members djointVC X kc v vm
  = Return (X', kc', (v', vm')) ->
  (vm' ∉ members) ∧ parents X' = parents X.
Proof.
  induction gas as [|gas IH];
    intros C members djointVC X kc v vm X' kc' v' vm' Hr; simpl in Hr.
  - case_decide; [discriminate|]. by injection Hr as <- <- <- <-.
  - case_decide; [|by injection Hr as <- <- <- <-].
    apply bind_Return in Hr as ([h q] & Hq & Hr).
    destruct (pop q) as [[? q1]|]; [|discriminate].
    apply bind_Return in Hr as ([um kc1] & _ & Hr).
    apply bind_Return in Hr as ([h2 q2] & Hq2 & Hr).
    destruct (top _) as [[v1 vm1]|]; [|discriminate].
    apply IH in Hr as [? ->]. done.
Qed.

Lemma gather_cases fuel V X kc Ep C X' kc' Ep' :
  gather node_mv coords neighbours hav_dist fuel V (X, kc, Ep) C
  = Return (X', kc', Ep') ->
  (∃ h q, queue_at X C = Return (h, q) ∧ top q = None
          ∧ X' = X ∧ kc' = kc ∧ Ep' = Ep)
  ∨ (∃ h q v vm members X1 v' vm' dm,
       queue_at X C = Return (h, q) ∧ top q = Some (v, vm)
       ∧ component_set node_mv X v = Return (members, X1)
       ∧ parents X' = parents X1 ∧ (vm' ∉ members)
       ∧ hav_dist (coords v') (coords vm') = Return dm
       ∧ Ep' = push Ep (v', vm', dm) dm).
Proof.
  intros Hg. unfold gather in Hg.
  apply bind_Return in Hg as ([h q] & Hq & Hg).
  destruct (top q) as [[v vm]|] eqn:Htop.
  - apply bind_Return in Hg as ([members X1] & Hc & Hg).
    apply bind_Return in Hg as ([[X2 kc2] [v2 vm2]] & Hr & Hg).
    apply bind_Return in Hg as (dm & Hd & Hg). injection Hg as <- <- <-.
    apply refresh_top_leaves in Hr as [Hout Hp].
    right. exists h, q, v, vm, members, X1, v2, vm2, dm. by split_and!.
  - injection Hg as <- <- <-. left. exists h, q. by split_and!.
Qed.

End Gathering.

(** X18: In a state of a run, whenever the body of the loop over the
    components returns (a query may run for ever and [hav_dist] may
    raise), it has either found the queue of [C] empty and added nothing
    to [Ep], or pushed one candidate with the length returned by
    [hav_dist] as priority, and the far end of that candidate is outside
    the set of the node whose edge was on top of the queue. *)
Theorem gathered_candidate_leaves_the_component
    node_mv list_of_set coords neighbours hav_dist
    U X rt E fuel V kc Ep C X' kc' Ep' :
  reachable node_mv list_of_set coords U (mkState X rt E) ->
  gather node_mv coords neighbours hav_dist fuel V (X, kc, Ep) C
  = Return (X', kc', Ep') ->
  (∃ h q, queue_at X C = Return (h, q) ∧ top q = None ∧ Ep' = Ep)
  ∨ (∃ h q v vm v' vm' dm,
       queue_at X C = Return (h, q) ∧ top q = Some (v, vm)
       ∧ hav_dist (coords v') (coords vm') = Return dm
       ∧ Ep' = push Ep (v', vm', dm) dm
       ∧ ¬ same_root (parents X') v vm').
Proof.
  intros HU Hg.
  destruct (gather_cases _ _ _ _ _ _ _ _ _ _ _ _ _ Hg)
    as [(h & q & Hq & Ht & _ & _ & ->)
       |(h & q & v & vm & members & X1 & v' & vm' & dm
         & Hq & Ht & Hc & Hp & Hout & Hd & ->)].
  { left. eauto. }
  right. exists h, q, v, vm, v', vm', dm. split_and!; auto.
  pose proof (inv_wf _ _ (reachable_inv _ _ _ _ _ HU)) as Hwf.
  pose proof (reachable_lists_members _ _ _ _ _ HU) as Hm.
  simpl in Hwf, Hm. unfold component_set in Hc.
  apply bind_Return in Hc as ([r Y] & Hgi & Hc).
  apply bind_Return in Hc as (ch & Hch & Hc). injection Hc as <- <-.
  destruct (getitem_total node_mv X v Hwf)
    as (r' & Y' & Hgi' & Hwf' & Hr & _).
  rewrite Hgi in Hgi'. injection Hgi' as <- <-.
  pose proof (lists_members_getitem _ _ _ _ _ Hwf Hm Hgi) as Hm'.
  destruct (Hm' r) as (l & Hl & _ & Hin & _);
    [eauto using root_of_is_root|].
  assert (ch = l) as ->.
  { unfold read in Hch. rewrite Hl in Hch. by injection Hch. }
  rewrite Hp. intros (s & Hv & Hvm).
  apply Hout, Hin. by rewrite (root_of_det _ _ _ _ Hr Hv).
Qed.

Lemma gathered_candidate_leaves_the_component_witness :
  ∃ X' kc' Ep',
    gather isolate_mv line_coords pair_neighbours line_hav 5 [0; 1]%nat
      (isolate_init, ∅, pq_new) 0%nat = Return (X', kc', Ep')
    ∧ ((∃ h q, queue_at isolate_init 0%nat = Return (h, q) ∧ top q = None
               ∧ Ep' = pq_new)
       ∨ (∃ h q v vm v' vm' dm,
            queue_at isolate_init 0%nat = Return (h, q)
            ∧ top q = Some (v, vm)
            ∧ line_hav (line_coords v') (line_coords vm') = Return dm
            ∧ Ep' = push pq_new (v', vm', dm) dm
            ∧ ¬ same_root (parents X') v vm')).
Proof.
  destruct isolate_init_reached as [U HU].
  eexists _, _, _. split; [vm_compute; reflexivity|].
  eapply (gathered_candidate_leaves_the_component isolate_mv keep_order
            line_coords pair_neighbours line_hav U isolate_init [] []
            5 [0; 1]%nat ∅ pq_new 0%nat).
  - exact HU.
  - vm_compute. reflexivity.
Defined.

(** ** The haversine formula (lines 148-165) *)

Section ProjectionTheorems.
Import Stdlib.Reals.Reals.
#[local] Open Scope R_scope.

(** X21: Whatever [pi] is bound to, the formula under the decorator gives the
    same length in both directions and length 0 from a point to
    itself. *)
Theorem haversine_formula_is_symmetric pi lat1 lon1 lat2 lon2 :
  Haversine.get_hav_distance_body pi lat1 lon1 lat2 lon2
  = Haversine.get_hav_distance_body pi lat2 lon2 lat1 lon1
  ∧ Haversine.get_hav_distance_body pi lat1 lon1 lat1 lon1 = 0.
Proof.
  unfold Haversine.get_hav_distance_body. split.
  - set (r := pi / 180).
    assert (∀ x y, sin ((x - y) / 2) ^ 2 = sin ((y - x) / 2) ^ 2) as Hs.
    { intros x y. replace ((x - y) / 2) with (- ((y - x) / 2)) by field.
      rewrite sin_neg. ring. }
    rewrite (Hs (lat1 * r)), (Hs (lon1 * r)).
    by rewrite (Rmult_comm (cos (lat2 * r))).
  - rewrite !Rminus_diag. unfold Rdiv. rewrite !Rmult_0_l, sin_0.
    replace (0 ^ 2 + _ * _ * 0 ^ 2) with 0 by ring.
    rewrite sqrt_0, asin_0. ring.
Qed.

End ProjectionTheorems.

(** ** The heap order of a queue (lines 117-122) *)

(** The slot above slot [i] is slot [(i - 1) / 2]. *)
Lemma parent_spec i :
  ∃ r, (r < 2 ∧ i - 1 = 2 * ((i - 1) / 2) + r)%nat.
Proof.
  exists ((i - 1) mod 2)%nat.
  pose proof (Nat.div_mod_eq (i - 1) 2).
  pose proof (Nat.mod_upper_bound (i - 1) 2). lia.
Qed.

Ltac parent_of i :=
  let r := fresh "r" in
  let H1 := fresh "Hrem" in
  let H2 := fresh "Hdiv" in
  destruct (parent_spec i) as (r & H1 & H2).

Section HeapOrder.
Context {A : Type}.
Implicit Types (h l : list (entry A)) (x c p g : entry A).

(** No entry is smaller than the entry in the slot above it. *)
Definition heap_ordered l : Prop :=
  ∀ i c p, (0 < i)%nat ->
    l !! i = Some c -> l !! ((i - 1) / 2)%nat = Some p ->
    entry_lt c p = false.

Lemma entry_lt_irrefl x : entry_lt x x = false.
Proof.
  unfold entry_lt. rewrite Z.ltb_irrefl, Nat.ltb_irrefl.
  by rewrite andb_false_r.
Qed.

Lemma entry_lt_asym x c : entry_lt x c = true -> entry_lt c x = false.
Proof.
  unfold entry_lt.
  destruct (Z.ltb_spec (entry_priority x) (entry_priority c)),
    (Z.eqb_spec (entry_priority x) (entry_priority c)),
    (Nat.ltb_spec (entry_index x) (entry_index c)),
    (Z.ltb_spec (entry_priority c) (entry_priority x)),
    (Z.eqb_spec (entry_priority c) (entry_priority x)),
    (Nat.ltb_spec (entry_index c) (entry_index x));
    simpl; try done; lia.
Qed.

(** [g <= p] and [p <= c] give [g <= c]. *)
Lemma entry_le_trans g p c :
  entry_lt p g = false -> entry_lt c p = false -> entry_lt c g = false.
Proof.
  unfold entry_lt.
  destruct (Z.ltb_spec (entry_priority p) (entry_priority g)),
    (Z.eqb_spec (entry_priority p) (entry_priority g)),
    (Nat.ltb_spec (entry_index p) (entry_index g)),
    (Z.ltb_spec (entry_priority c) (entry_priority p)),
    (Z.eqb_spec (entry_priority c) (entry_priority p)),
    (Nat.ltb_spec (entry_index c) (entry_index p)),
    (Z.ltb_spec (entry_priority c) (entry_priority g)),
    (Z.eqb_spec (entry_priority c) (entry_priority g)),
    (Nat.ltb_spec (entry_index c) (entry_index g));
    simpl; try done; lia.
Qed.

(** [x < p] and [p <= c] give [x <= c]. *)
Lemma entry_lt_le x p c :
  entry_lt x p = true -> entry_lt c p = false -> entry_lt c x = false.
Proof.
  intros Hx Hc. apply entry_lt_asym in Hx.
  by apply (entry_le_trans x p c).
Qed.

(** The heap with slot [pos] taken out, on the way up: every pair of
    slots that does not involve [pos] is in order, the entries below
    [pos] are not smaller than [x], nor than the entry above [pos]. *)
Definition hole_up h (pos : nat) x : Prop :=
  (∀ i c p, (0 < i)%nat -> i ≠ pos -> ((i - 1) / 2)%nat ≠ pos ->
     h !! i = Some c -> h !! ((i - 1) / 2)%nat = Some p ->
     entry_lt c p = false)
  ∧ (∀ i c, (0 < i)%nat -> ((i - 1) / 2)%nat = pos ->
       h !! i = Some c -> entry_lt c x = false)
  ∧ (∀ i c g, (0 < i)%nat -> ((i - 1) / 2)%nat = pos -> (0 < pos)%nat ->
       h !! i = Some c -> h !! ((pos - 1) / 2)%nat = Some g ->
       entry_lt c g = false).

Lemma place_ordered h pos x :
  hole_up h pos x -> (pos < length h)%nat ->
  (pos = 0%nat
   ∨ ∃ p, h !! ((pos - 1) / 2)%nat = Some p ∧ entry_lt x p = false) ->
  heap_ordered (<[pos := x]> h).
Proof.
  intros (H1 & H2 & H3) Hlen Hp i c p Hi Hc Hpar.
  destruct (decide (i = pos)) as [->|Hne].
  - rewrite list_lookup_insert_eq in Hc by done. injection Hc as <-.
    destruct Hp as [->|(p' & Hp' & Hlt)]; [lia|].
    rewrite list_lookup_insert_ne in Hpar by (parent_of pos; lia).
    congruence.
  - rewrite list_lookup_insert_ne in Hc by done.
    destruct (decide (((i - 1) / 2)%nat = pos)) as [Heq|Hne'].
    + rewrite Heq, list_lookup_insert_eq in Hpar by done.
      injection Hpar as <-. eauto.
    + rewrite list_lookup_insert_ne in Hpar by done. eauto.
Qed.

Lemma siftdown_loop_ordered fuel : ∀ h pos x,
  hole_up h pos x -> (pos < length h)%nat -> (pos <= fuel)%nat ->
  heap_ordered (siftdown_loop fuel h 0 pos x).
Proof.
  induction fuel as [|fuel IH]; intros h pos x Hh Hlen Hf.
  { apply place_ordered; [done|done|left; lia]. }
  cbn [siftdown_loop].
  destruct (Nat.ltb_spec 0 pos) as [Hpos|];
    [|apply place_ordered; [done|done|left; lia]].
  parent_of pos. set (pp := ((pos - 1) / 2)%nat) in *.
  destruct (lookup_lt_is_Some_2 h pp) as [p Hp]; [lia|].
  rewrite Hp. destruct (entry_lt x p) eqn:Hlt;
    [|apply place_ordered; eauto].
  destruct Hh as (H1 & H2 & H3).
  apply IH; [|rewrite length_insert; lia|lia].
  split_and!.
  - intros i c p' Hi Hne Hne' Hc Hpar.
    assert (i ≠ pos) as Hip by (intros ->; by apply Hne').
    rewrite list_lookup_insert_ne in Hc by done.
    destruct (decide (((i - 1) / 2)%nat = pos)) as [Heq|Hnp].
    + rewrite Heq, list_lookup_insert_eq in Hpar by done.
      injection Hpar as <-. by apply (H3 i c p).
    + rewrite list_lookup_insert_ne in Hpar by done. eauto.
  - intros i c Hi Hpar Hc.
    destruct (decide (i = pos)) as [->|Hip].
    + rewrite list_lookup_insert_eq in Hc by done. injection Hc as <-.
      by apply entry_lt_asym.
    + rewrite list_lookup_insert_ne in Hc by done.
      apply (entry_lt_le x p c); [done|].
      apply (H1 i c p); auto; [lia|by rewrite Hpar].
  - intros i c g Hi Hpar Hpp Hc Hg.
    rewrite list_lookup_insert_ne in Hg by (parent_of pp; lia).
    assert (entry_lt p g = false) as Hgp.
    { apply (H1 pp p g); auto; [lia|parent_of pp; lia]. }
    destruct (decide (i = pos)) as [->|Hip].
    + rewrite list_lookup_insert_eq in Hc by done. by injection Hc as <-.
    + rewrite list_lookup_insert_ne in Hc by done.
      apply (entry_le_trans g p c); [done|].
      apply (H1 i c p); auto; [lia|by rewrite Hpar].
Qed.

Lemma heappush_ordered l item :
  heap_ordered l -> heap_ordered (heappush l item).
Proof.
  intros Hl. unfold heappush, _siftdown.
  rewrite length_app. simpl.
  replace (length l + 1 - 1)%nat with (length l) by lia.
  rewrite lookup_app_r, Nat.sub_diag by lia. simpl.
  apply siftdown_loop_ordered; [|rewrite length_app; simpl; lia|lia].
  split_and!.
  - intros i c p Hi Hne Hne' Hc Hp.
    assert (i < length l)%nat.
    { apply lookup_lt_Some in Hc. rewrite length_app in Hc. simpl in Hc. lia. }
    rewrite lookup_app_l in Hc by done.
    rewrite lookup_app_l in Hp by (parent_of i; lia). eauto.
  - intros i c Hi Hpar Hc. apply lookup_lt_Some in Hc.
    rewrite length_app in Hc. simpl in Hc. parent_of i. lia.
  - intros i c g Hi Hpar _ Hc _. apply lookup_lt_Some in Hc.
    rewrite length_app in Hc. simpl in Hc. parent_of i. lia.
Qed.

(** The heap with slot [pos] taken out, on the way down. *)
Definition hole_down h (pos : nat) : Prop :=
  (∀ i c p, (0 < i)%nat -> i ≠ pos -> ((i - 1) / 2)%nat ≠ pos ->
     h !! i = Some c -> h !! ((i - 1) / 2)%nat = Some p ->
     entry_lt c p = false)
  ∧ (∀ i c g, (0 < i)%nat -> ((i - 1) / 2)%nat = pos -> (0 < pos)%nat ->
       h !! i = Some c -> h !! ((pos - 1) / 2)%nat = Some g ->
       entry_lt c g = false).

Lemma siftup_loop_hole fuel : ∀ h pos h' pos',
  hole_down h pos -> (pos < length h)%nat -> (length h <= pos + fuel)%nat ->
  siftup_loop fuel h pos = (h', pos') ->
  hole_down h' pos' ∧ (pos' < length h')%nat
  ∧ (length h' <= 2 * pos' + 1)%nat.
Proof.
  induction fuel as [|fuel IH]; intros h pos h' pos' Hh Hlen Hf Hl;
    cbn [siftup_loop] in Hl; [lia|].
  destruct (Nat.ltb_spec (2 * pos + 1) (length h)) as [Hlt|];
    [|injection Hl as <- <-; by split_and!].
  destruct (lookup_lt_is_Some_2 h (2 * pos + 1)) as [lc Hlc]; [lia|].
  rewrite Hlc in Hl.
  destruct Hh as (D1 & D3).
  assert (∀ cp c,
    (cp = 2 * pos + 1 ∨ cp = 2 * pos + 1 + 1)%nat ->
    h !! cp = Some c ->
    (∀ i s, i ≠ cp -> (0 < i)%nat -> ((i - 1) / 2)%nat = pos ->
            h !! i = Some s -> entry_lt s c = false) ->
    siftup_loop fuel (<[pos := c]> h) cp = (h', pos') ->
    hole_down h' pos' ∧ (pos' < length h')%nat
    ∧ (length h' <= 2 * pos' + 1)%nat) as Hstep.
  { intros cp c Hcp Hc Hsib Hrec.
    apply IH in Hrec; [done| |rewrite length_insert; by eapply lookup_lt_Some
                           |rewrite length_insert; lia].
    split.
    - intros i s p Hi Hne Hne' Hs Hp.
      destruct (decide (i = pos)) as [->|Hip].
      + rewrite list_lookup_insert_eq in Hs by done. injection Hs as <-.
        rewrite list_lookup_insert_ne in Hp by (parent_of pos; lia).
        apply (D3 cp c p); auto; [lia|parent_of cp; lia].
      + rewrite list_lookup_insert_ne in Hs by done.
        destruct (decide (((i - 1) / 2)%nat = pos)) as [Heq|Hnp].
        * rewrite Heq, list_lookup_insert_eq in Hp by done.
          injection Hp as <-. eauto.
        * rewrite list_lookup_insert_ne in Hp by done. eauto.
    - intros i s g Hi Hpar Hpos Hs Hg.
      assert (((cp - 1) / 2)%nat = pos) as Hcpp by (parent_of cp; lia).
      rewrite Hcpp, list_lookup_insert_eq in Hg by done. injection Hg as <-.
      rewrite list_lookup_insert_ne in Hs by (parent_of i; lia).
      apply (D1 i s c); auto; [parent_of i; lia|lia|by rewrite Hpar]. }
  destruct (h !! (2 * pos + 1 + 1)%nat) as [rc|] eqn:Hrc.
  - destruct (entry_lt lc rc) eqn:Hlr.
    + rewrite Hlc in Hl. apply (Hstep _ lc) in Hl; auto.
      intros i s Hne Hi Hpar Hs.
      assert (i = 2 * pos + 1 + 1)%nat as -> by (parent_of i; lia).
      assert (s = rc) as -> by congruence. by apply entry_lt_asym.
    + rewrite Hrc in Hl. apply (Hstep _ rc) in Hl; auto.
      intros i s Hne Hi Hpar Hs.
      assert (i = 2 * pos + 1)%nat as -> by (parent_of i; lia).
      assert (s = lc) as -> by congruence. done.
  - rewrite Hlc in Hl. apply (Hstep _ lc) in Hl; auto.
    intros i s Hne Hi Hpar Hs.
    assert (i = 2 * pos + 1 + 1)%nat as -> by (parent_of i; lia).
    congruence.
Qed.

Lemma _siftup_ordered h x :
  h !! 0%nat = Some x ->
  (∀ i c p, (0 < i)%nat -> ((i - 1) / 2)%nat ≠ 0%nat ->
     h !! i = Some c -> h !! ((i - 1) / 2)%nat = Some p ->
     entry_lt c p = false) ->
  heap_ordered (_siftup h 0).
Proof.
  intros Hx Hh. unfold _siftup. rewrite Hx.
  destruct (siftup_loop _ _ _) as [h' pos'] eqn:Hl.
  apply siftup_loop_hole in Hl as ((D1 & D3) & Hlen & Hleaf).
  - unfold _siftdown. rewrite list_lookup_insert_eq by done.
    apply siftdown_loop_ordered; [|by rewrite length_insert|lia].
    split_and!.
    + intros i c p Hi Hne Hne' Hc Hp.
      rewrite list_lookup_insert_ne in Hc by done.
      rewrite list_lookup_insert_ne in Hp by done. eauto.
    + intros i c Hi Hpar Hc. apply lookup_lt_Some in Hc.
      rewrite length_insert in Hc. parent_of i. lia.
    + intros i c g Hi Hpar _ Hc _. apply lookup_lt_Some in Hc.
      rewrite length_insert in Hc. parent_of i. lia.
  - split.
    + intros i c p Hi _ Hne. by apply Hh.
    + intros i c g _ _ Hpos. lia.
  - by eapply lookup_lt_Some.
  - lia.
Qed.

Lemma heap_ordered_min l m :
  heap_ordered l -> l !! 0%nat = Some m ->
  ∀ i e, l !! i = Some e -> entry_lt e m = false.
Proof.
  intros Hl Hm i. induction i as [i IH] using lt_wf_ind. intros e He.
  destruct (decide (i = 0%nat)) as [->|Hi].
  - assert (e = m) as -> by congruence. apply entry_lt_irrefl.
  - parent_of i. set (pi := ((i - 1) / 2)%nat) in *.
    destruct (lookup_lt_is_Some_2 l pi) as [p Hp].
    { apply lookup_lt_Some in He. lia. }
    apply (entry_le_trans m p e).
    + apply (IH pi); [lia|done].
    + apply (Hl i e p); [lia|done|done].
Qed.

Lemma heappop_ordered l e l' :
  heap_ordered l -> heappop l = Some (e, l') ->
  heap_ordered l' ∧ l !! 0%nat = Some e.
Proof.
  intros Hl. unfold heappop.
  destruct (last l) as [lastelt|] eqn:Hlast; [|done].
  apply last_Some in Hlast as [rest ->]. rewrite removelast_last.
  destruct rest as [|returnitem rest]; intros [= <- <-].
  - split; [|done]. intros i c p _ Hc. by rewrite lookup_nil in Hc.
  - split; [|done]. apply (_siftup_ordered _ lastelt); [done|].
    intros i c p Hi Hne Hc Hp.
    assert (i ≠ 0)%nat as Hi0 by lia.
    destruct i as [|i]; [done|]. simpl in Hc.
    destruct ((S i - 1) / 2)%nat as [|j] eqn:Hj; [done|]. simpl in Hp.
    apply (Hl (S i) c p); [lia| |].
    + change ((returnitem :: rest) ++ [lastelt]) with
        (returnitem :: (rest ++ [lastelt])). simpl.
      apply lookup_app_l_Some. done.
    + rewrite Hj.
      change ((returnitem :: rest) ++ [lastelt]) with
        (returnitem :: (rest ++ [lastelt])). simpl.
      apply lookup_app_l_Some. done.
Qed.

End HeapOrder.

(** X22: A queue whose list is in heap order stays in heap order under [push]
    and [pop], and [pop] returns the item of an entry that no entry of the
    queue precedes (smaller priority, or equal priority and smaller
    index).  The empty queue is in heap order, so this holds of every
    queue that was only pushed to and popped from. *)
Theorem queue_in_heap_order_pops_a_minimum {A} (q : PriorityQueue A) :
  heap_ordered (_queue q) ->
  (∀ item priority, heap_ordered (_queue (push q item priority)))
  ∧ (∀ item q', pop q = Some (item, q') ->
       heap_ordered (_queue q')
       ∧ ∃ e, e ∈ _queue q ∧ entry_item e = item
              ∧ ∀ e', e' ∈ _queue q -> entry_lt e' e = false).
Proof.
  intros Hq. split.
  - intros item priority. by apply heappush_ordered.
  - intros item q' Hp. unfold pop in Hp.
    destruct (heappop (_queue q)) as [[e l']|] eqn:Hh; [|done].
    injection Hp as <- <-. simpl.
    destruct (heappop_ordered _ _ _ Hq Hh) as [Hl' He].
    split; [done|]. exists e. split_and!; [|done|].
    + by eapply list_elem_of_lookup_2.
    + intros e' [i Hi]%list_elem_of_lookup.
      by apply (heap_ordered_min (_queue q) e Hq He i).
Qed.

Lemma queue_in_heap_order_pops_a_minimum_witness :
  (∀ item priority, heap_ordered (_queue (push small_queue item priority)))
  ∧ (∀ item q', pop small_queue = Some (item, q') ->
       heap_ordered (_queue q')
       ∧ ∃ e, e ∈ _queue small_queue ∧ entry_item e = item
              ∧ ∀ e', e' ∈ _queue small_queue -> entry_lt e' e = false).
Proof.
  apply (queue_in_heap_order_pops_a_minimum small_queue).
  intros i c p Hi Hc. destruct i as [|i]; [lia|].
  vm_compute in Hc. discriminate.
Defined.

(** ** The order of the commit loop (lines 297, 326 and 330-331) *)

(** The entries of a heap in the order in which repeated [heappop]
    returns them. *)
Fixpoint drain {A} (fuel : nat) (l : list (entry A)) : list (entry A) :=
  match fuel with
  | O => []
  | S fuel' =>
      match heappop l with
      | Some (e, l') => e :: drain fuel' l'
      | None => []
      end
  end.

(** No entry of the list precedes an entry listed before it. *)
Definition ascending {A} (es : list (entry A)) : Prop :=
  ∀ i j a b, (i < j)%nat -> es !! i = Some a -> es !! j = Some b ->
    entry_lt b a = false.

Lemma drain_sorted {A} fuel : ∀ l : list (entry A),
  heap_ordered l -> (length l <= fuel)%nat ->
  drain fuel l ≡ₚ l ∧ ascending (drain fuel l).
Proof.
  induction fuel as [|fuel IH]; intros l Hl Hlen; simpl.
  - destruct l; simpl in *; [|lia]. split; [done|].
    intros i j a b _ Ha. by rewrite lookup_nil in Ha.
  - destruct (heappop l) as [[e l']|] eqn:Hpop.
    + destruct (heappop_ordered _ _ _ Hl Hpop) as [Hl' He].
      pose proof (heappop_Permutation _ _ _ Hpop) as Hperm.
      destruct (IH l' Hl') as [Hp Hs].
      { rewrite Hperm in Hlen. simpl in Hlen. lia. }
      split; [by rewrite Hp|].
      intros i j a b Hij Ha Hb. destruct j as [|j]; [lia|]. simpl in Hb.
      destruct i as [|i]; simpl in Ha.
      * injection Ha as <-.
        assert (b ∈ l) as [k Hk]%list_elem_of_lookup.
        { rewrite Hperm. right. rewrite <-Hp.
          by eapply list_elem_of_lookup_2. }
        by apply (heap_ordered_min l e Hl He k).
      * apply (Hs i j); [lia|done|done].
    + apply heappop_None in Hpop as ->. split; [done|].
      intros i j a b _ Ha. by rewrite lookup_nil in Ha.
Qed.

Section CommitOrder.
Variable node_mv : node -> Z.
Variable list_of_set : list (entry edge) -> list (entry edge).
Variable coords : node -> point.
Variable neighbours : point -> list node.
Variable hav_dist : point -> point -> outcome Z.

Lemma commit_loop_drain fuel : ∀ Ep st,
  commit_loop node_mv list_of_set coords fuel Ep st
  = for_each (commit node_mv list_of_set coords) st
      (entry_item <$> drain fuel (_queue Ep)).
Proof.
  induction fuel as [|fuel IH]; intros Ep st; simpl; [done|].
  unfold pop. destruct (heappop (_queue Ep)) as [[e l']|]; simpl; [|done].
  destruct (commit _ _ _ _ _); simpl; [|done..]. by rewrite IH.
Qed.

Lemma gather_loop_ordered fuel V comps : ∀ X kc Ep X' kc' Ep',
  heap_ordered (_queue Ep) ->
  for_each (gather node_mv coords neighbours hav_dist fuel V)
    (X, kc, Ep) comps = Return (X', kc', Ep') ->
  heap_ordered (_queue Ep').
Proof.
  induction comps as [|C comps IH]; intros X kc Ep X' kc' Ep' HEp Hf;
    simpl in Hf.
  - by injection Hf as <- <- <-.
  - apply bind_Return in Hf as ([[X1 kc1] Ep1] & Hg & Hf).
    eapply IH; [|exact Hf].
    destruct (gather_cases _ _ _ _ _ _ _ _ _ _ _ _ _ Hg)
      as [(h & q & _ & _ & _ & _ & ->)
         |(h & q & v & vm & members & X0 & v' & vm' & dm
           & _ & _ & _ & _ & _ & _ & ->)]; [done|].
    by apply heappush_ordered.
Qed.

End CommitOrder.

(** X23: The candidates gathered in a round are committed in ascending order
    of their haversine length, ties in the order of gathering: the queue
    [Ep] filled by the loop over the components is in heap order, and the
    commit loop is the iteration of its body over the entries of [Ep]
    sorted by priority and index. *)
Theorem candidates_are_committed_in_ascending_order
    node_mv list_of_set coords neighbours hav_dist
    fuel V comps X kc X' kc' Ep :
  for_each (gather node_mv coords neighbours hav_dist fuel V)
    (X, kc, pq_new) comps = Return (X', kc', Ep) ->
  ∃ es, es ≡ₚ _queue Ep
    ∧ ascending es
    ∧ ∀ st, P2 node_mv list_of_set coords Ep st
            = for_each (commit node_mv list_of_set coords) st
                (entry_item <$> es).
Proof.
  intros Hf.
  assert (heap_ordered (_queue Ep)) as HEp.
  { eapply gather_loop_ordered; [|exact Hf].
    intros i c p _ Hc. simpl in Hc. by rewrite lookup_nil in Hc. }
  destruct (drain_sorted (length (_queue Ep)) (_queue Ep) HEp) as [Hp Hs];
    [done|].
  exists (drain (length (_queue Ep)) (_queue Ep)). split_and!; auto.
  intros st. apply commit_loop_drain.
Qed.

Lemma candidates_are_committed_in_ascending_order_witness :
  ∃ X' kc' Ep,
    for_each (gather isolate_mv line_coords pair_neighbours line_hav 5
                [0; 1]%nat)
      (isolate_init, ∅, pq_new) [0; 1]%nat = Return (X', kc', Ep)
    ∧ ∃ es, es ≡ₚ _queue Ep
        ∧ ascending es
        ∧ ∀ st, P2 isolate_mv keep_order line_coords Ep st
                = for_each (commit isolate_mv keep_order line_coords) st
                    (entry_item <$> es).
Proof.
  eexists _, _, _. split; [vm_compute; reflexivity|].
  eapply (candidates_are_committed_in_ascending_order isolate_mv keep_order
            line_coords pair_neighbours line_hav 5 [0; 1]%nat [0; 1]%nat
            isolate_init ∅).
  vm_compute. reflexivity.
Defined.

(** ** The direction of the segments (lines 230-264) *)

Lemma share_an_endpoint_swap p1 p2 p3 p4 :
  share_an_endpoint p2 p1 p3 p4 = share_an_endpoint p1 p2 p3 p4
  ∧ share_an_endpoint p1 p2 p4 p3 = share_an_endpoint p1 p2 p3 p4.
Proof.
  unfold share_an_endpoint.
  destruct (array_equal p1 p3), (array_equal p2 p4), (array_equal p1 p4),
    (array_equal p2 p3); done.
Qed.

Lemma overlapping_swap p1 p2 p3 p4 :
  overlapping p2 p1 p3 p4 = overlapping p1 p2 p3 p4
  ∧ overlapping p1 p2 p4 p3 = overlapping p1 p2 p3 p4.
Proof.
  unfold overlapping, chained_ne.
  destruct (p3.1 - p1.1 <? 0), (p3.1 - p2.1 <? 0), (p4.1 - p1.1 <? 0),
    (p4.1 - p2.1 <? 0), (p3.2 - p1.2 <? 0), (p3.2 - p2.2 <? 0),
    (p4.2 - p1.2 <? 0), (p4.2 - p2.2 <? 0); done.
Qed.

Lemma between01_div_iff n d :
  d ≠ 0 ->
  between01 (inject_Z n / inject_Z d) = true
  ↔ (0 < d ∧ 0 <= n <= d) ∨ (d < 0 ∧ d <= n <= 0).
Proof.
  intros Hd. rewrite between01_div by done.
  rewrite orb_true_iff, !andb_true_iff, !Z.ltb_lt, !Z.leb_le. tauto.
Qed.

Lemma between01_flip n d :
  d ≠ 0 ->
  between01 (inject_Z (n - d) / inject_Z (- d))
  = between01 (inject_Z n / inject_Z d)
  ∧ between01 (inject_Z (- n) / inject_Z (- d))
    = between01 (inject_Z n / inject_Z d).
Proof.
  intros Hd.
  split; apply eq_true_iff_eq; rewrite !between01_div_iff by lia; lia.
Qed.

(** X24: For segments whose end points have integer coordinates of
    absolute value up to 2^24, the answer of the segment test does not
    depend on the direction in which the candidate or the accepted segment
    is given. *)
Theorem segment_test_ignores_direction p1 p2 p3 p4 :
  on_grid p1 -> on_grid p2 -> on_grid p3 -> on_grid p4 ->
  segment_test p2 p1 p3 p4 = segment_test p1 p2 p3 p4
  ∧ segment_test p1 p2 p4 p3 = segment_test p1 p2 p3 p4.
Proof.
  intros _ _ _ _.
  destruct (share_an_endpoint_swap p1 p2 p3 p4) as [Hs1 Hs2].
  destruct (overlapping_swap p1 p2 p3 p4) as [Ho1 Ho2].
  destruct p1 as [x1 y1], p2 as [x2 y2], p3 as [x3 y3], p4 as [x4 y4].
  unfold segment_test. rewrite Hs1, Hs2, Ho1, Ho2.
  unfold cross, psub. cbn [fst snd].
  set (d := (x2 - x1) * (y4 - y3) - (y2 - y1) * (x4 - x3)).
  set (tn := (x3 - x1) * (y4 - y3) - (y3 - y1) * (x4 - x3)).
  set (un := (x3 - x1) * (y2 - y1) - (y3 - y1) * (x2 - x1)).
  replace ((x1 - x2) * (y4 - y3) - (y1 - y2) * (x4 - x3)) with (- d)
    by (unfold d; ring).
  replace ((x3 - x2) * (y1 - y2) - (y3 - y2) * (x1 - x2)) with (- un)
    by (unfold un; ring).
  replace ((x3 - x2) * (y4 - y3) - (y3 - y2) * (x4 - x3)) with (tn - d)
    by (unfold tn, d; ring).
  replace ((x2 - x1) * (y3 - y4) - (y2 - y1) * (x3 - x4)) with (- d)
    by (unfold d; ring).
  replace ((x4 - x1) * (y2 - y1) - (y4 - y1) * (x2 - x1)) with (un - d)
    by (unfold un, d; ring).
  replace ((x4 - x1) * (y3 - y4) - (y4 - y1) * (x3 - x4)) with (- tn)
    by (unfold tn; ring).
  destruct (Z.eqb_spec d 0) as [Hd|Hd].
  - rewrite Hd. simpl. rewrite Z.sub_0_r.
    replace (- un =? 0) with (un =? 0)
      by (destruct (Z.eqb_spec un 0), (Z.eqb_spec (- un) 0); lia).
    done.
  - destruct (Z.eqb_spec (- d) 0) as [|_]; [lia|].
    rewrite !andb_false_r.
    destruct (between01_flip tn d Hd) as [Ht1 Ht2].
    destruct (between01_flip un d Hd) as [Hu1 Hu2].
    by rewrite Ht1, Ht2, Hu1, Hu2.
Qed.

Lemma segment_test_ignores_direction_witness :
  segment_test (5, 0) (-5, 0) (0, -5) (0, 5)
  = segment_test (-5, 0) (5, 0) (0, -5) (0, 5)
  ∧ segment_test (-5, 0) (5, 0) (0, 5) (0, -5)
    = segment_test (-5, 0) (5, 0) (0, -5) (0, 5).
Proof.
  apply (segment_test_ignores_direction (-5, 0) (5, 0) (0, -5) (0, 5));
    unfold on_grid; simpl; lia.
Defined.

(** ** The queues in union (lines 100-101) *)

Lemma merge_drains {A} (list_of_set : list (entry A) -> list (entry A))
    (self other : PriorityQueue A) :
  _queue (merge list_of_set self other).2 = [].
Proof.
  unfold merge.
  assert (∀ fuel (s : PriorityQueue A) o, (length o <= fuel)%nat ->
            (merge_loop fuel s o).2 = []) as Hloop.
  { induction fuel as [|fuel IH]; intros s o Hlen; simpl.
    - destruct o; simpl in *; [done|lia].
    - destruct (heappop o) as [[e o']|] eqn:Hpop.
      + apply IH. apply heappop_Permutation in Hpop.
        rewrite Hpop in Hlen. simpl in Hlen. lia.
      + by apply heappop_None in Hpop. }
  specialize (Hloop (length (_queue other)) self (_queue other)
                ltac:(lia)).
  by destruct (merge_loop _ _ _).
Qed.

(** What a returning call of [union] has done to the queues. *)
Lemma union_queue_fields node_mv list_of_set X g1 g2 d X' :
  union node_mv list_of_set X g1 g2 d = Return X' ->
  ∃ r1 X1 r2 X2 w1 w2 r h hh hr qh qr,
    getitem node_mv X g1 = Return (r1, X1)
    ∧ getitem node_mv X1 g2 = Return (r2, X2)
    ∧ weights X2 !! r1 = Some w1 ∧ weights X2 !! r2 = Some w2
    ∧ h = heaviest_of w1 r1 w2 r2
    ∧ r ≠ h ∧ (r = r1 ∨ r = r2)
    ∧ queues X2 !! h = Some hh ∧ queues X2 !! r = Some hr
    ∧ heap X2 !! hh = Some qh ∧ heap X2 !! hr = Some qr
    ∧ parents X' = <[r := h]> (parents X2)
    ∧ queues X' = <[r := hh]> (queues X2)
    ∧ heap X'
      = <[hh := (merge list_of_set qh qr).1]>
          (<[hr := (merge list_of_set qh qr).2]> (heap X2)).
Proof.
  unfold union. intros ([r1 X1] & Hg1 & H)%bind_Return.
  apply bind_Return in H as ([r2 X2] & Hg2 & H).
  apply bind_Return in H as (w1 & Hw1 & H).
  apply bind_Return in H as (w2 & Hw2 & H).
  destruct (filter _ _) as [|r rest] eqn:Hf; [discriminate|].
  apply bind_Return in H as (wh & Hwh & H).
  apply bind_Return in H as (wr & Hwr & H).
  apply bind_Return in H as (m1 & Hm1 & H).
  apply bind_Return in H as (m2 & Hm2 & H).
  apply bind_Return in H as (ch & Hch & H).
  apply bind_Return in H as (cr & Hcr & H).
  apply bind_Return in H as (hh & Hhh & H).
  apply bind_Return in H as (hr & Hhr & H).
  apply bind_Return in H as (qh & Hqh & H).
  apply bind_Return in H as (qr & Hqr & H).
  assert (∀ {V} (m : gmap node V) k v, read m k = Return v -> m !! k = Some v)
    as Hread.
  { intros V m k v. unfold read. destruct (m !! k); congruence. }
  assert (r ∈ filter (λ r0 : node, r0 ≠ heaviest_of w1 r1 w2 r2) [r1; r2])
    as Hr by (rewrite Hf; left).
  apply list_elem_of_filter in Hr as [Hne Hr].
  exists r1, X1, r2, X2, w1, w2, r, (heaviest_of w1 r1 w2 r2), hh, hr, qh, qr.
  destruct (merge list_of_set qh qr) as [qh' qr'] eqn:Hm.
  injection H as <-. simpl.
  split_and!; try done; try (by apply Hread).
  rewrite !elem_of_cons in Hr. destruct Hr as [?|[?|Hr]]; auto. inversion Hr.
Qed.

(** X25: [union] of two nodes of different sets merges the queue object of
    the absorbed root into the queue object of the surviving root: both
    roots then name the surviving object, which holds the result of
    [merge]; the absorbed object is left empty; no other queue object and
    no other handle changes. *)
Theorem union_merges_the_queues node_mv list_of_set X g1 g2 d r1 r2 :
  wf_uf X ->
  root_of (parents X) g1 r1 -> root_of (parents X) g2 r2 -> r1 ≠ r2 ->
  ∃ X' r h qh qr,
    union node_mv list_of_set X g1 g2 d = Return X'
    ∧ ((r = r1 ∧ h = r2) ∨ (r = r2 ∧ h = r1))
    ∧ root_of (parents X') g1 h
    ∧ heap X !! h = Some qh ∧ heap X !! r = Some qr
    ∧ queues X' !! h = Some h ∧ queues X' !! r = Some h
    ∧ heap X' !! h = Some (merge list_of_set qh qr).1
    ∧ heap X' !! r = Some (merge list_of_set qh qr).2
    ∧ _queue (merge list_of_set qh qr).2 = []
    ∧ (∀ k, k ≠ h -> k ≠ r ->
         heap X' !! k = heap X !! k ∧ queues X' !! k = queues X !! k).
Proof.
  intros Hwf H1 H2 Hne.
  destruct (union_spec node_mv list_of_set X g1 g2 d r1 r2 Hwf H1 H2 Hne)
    as (X' & _ & _ & _ & _ & Hu & _).
  destruct (union_queue_fields _ _ _ _ _ _ _ Hu)
    as (s1 & X1 & s2 & X2 & w1 & w2 & r & h & hh & hr & qh & qr
        & Hg1 & Hg2 & Hw1 & Hw2 & Hh & Hrh & Hr & Hqh & Hqr & Hhh & Hhr
        & HP & HQ & HH).
  destruct (getitem_registered node_mv X g1 Hwf)
    as (s1' & p1 & Hg1' & Hs1 & Hp1 & Hd1); [eauto using root_of_registered|].
  rewrite Hg1 in Hg1'. injection Hg1' as -> ->.
  assert (s1' = r1) as -> by eauto using root_of_det.
  pose proof (wf_set_parents X p1 Hwf Hp1 Hd1) as Hwf1.
  destruct (getitem_registered node_mv (set_parents (fun _ => p1) X) g2 Hwf1)
    as (s2' & p2 & Hg2' & Hs2 & Hp2 & _).
  { simpl. eapply root_of_registered, Hp1. exact H2. }
  rewrite Hg2 in Hg2'. injection Hg2' as -> ->.
  assert (s2' = r2) as ->.
  { eapply root_of_det; [exact Hs2|]. simpl. by apply Hp1. }
  simpl in *.
  assert (∀ y s, root_of p2 y s ↔ root_of (parents X) y s) as Hp.
  { intros y s. rewrite Hp2. apply Hp1. }
  assert ((r = r1 ∧ h = r2) ∨ (r = r2 ∧ h = r1)) as Hcase.
  { rewrite Hh in *.
    destruct (heaviest_of_cases w1 r1 w2 r2) as [Hc|Hc]; rewrite Hc in *;
      destruct Hr as [->| ->]; auto; congruence. }
  assert (parents X !! r = Some r ∧ parents X !! h = Some h) as [Hpr Hph].
  { destruct Hcase as [[-> ->]|[-> ->]]; eauto using root_of_is_root. }
  assert (p2 !! r = Some r ∧ p2 !! h = Some h) as [Hpr2 Hph2].
  { split; eapply root_of_is_root, Hp; by apply root_self. }
  assert (hh = h) as ->.
  { pose proof (wf_own X Hwf h Hph). congruence. }
  assert (hr = r) as ->.
  { pose proof (wf_own X Hwf r Hpr). congruence. }
  exists X', r, h, qh, qr. split; [done|]. split; [done|]. split.
  { rewrite HP. apply (link_roots p2 r h Hpr2 Hph2 Hrh).
    exists r1. split; [by apply Hp|].
    destruct Hcase as [[-> ->]|[-> ->]]; repeat case_decide; congruence. }
  rewrite HQ, HH. split; [done|]. split; [done|].
  split; [by rewrite lookup_insert_ne|].
  split; [by rewrite lookup_insert_eq|].
  split; [by rewrite lookup_insert_eq|].
  split; [rewrite lookup_insert_ne by done; by rewrite lookup_insert_eq|].
  split; [apply merge_drains|].
  intros k Hkh Hkr. by rewrite !lookup_insert_ne.
Qed.

Lemma union_merges_the_queues_witness :
  ∃ X' r h qh qr,
    union ample_mv keep_order (subgraphs plus_state) 0%nat 3%nat 2
    = Return X'
    ∧ ((r = 1%nat ∧ h = 3%nat) ∨ (r = 3%nat ∧ h = 1%nat))
    ∧ root_of (parents X') 0%nat h
    ∧ heap (subgraphs plus_state) !! h = Some qh
    ∧ heap (subgraphs plus_state) !! r = Some qr
    ∧ queues X' !! h = Some h ∧ queues X' !! r = Some h
    ∧ heap X' !! h = Some (merge keep_order qh qr).1
    ∧ heap X' !! r = Some (merge keep_order qh qr).2
    ∧ _queue (merge keep_order qh qr).2 = []
    ∧ (∀ k, k ≠ h -> k ≠ r ->
         heap X' !! k = heap (subgraphs plus_state) !! k
         ∧ queues X' !! k = queues (subgraphs plus_state) !! k).
Proof.
  apply (union_merges_the_queues ample_mv keep_order
           (subgraphs plus_state) 0%nat 3%nat 2 1%nat 3%nat).
  - exact (inv_wf _ _ (reachable_inv _ _ _ _ _ plus_state_reachable)).
  - eapply root_step; [vm_compute; reflexivity|discriminate|].
    apply root_self. vm_compute. reflexivity.
  - apply root_self. vm_compute. reflexivity.
  - discriminate.
Defined.
